(** * A shallow embedding of the rope library (node.cpp, rope.cpp)

    A rope represents a string as a binary tree whose leaves hold string
    fragments.  The C++ code is embedded as follows.

    - [size_t] is a [Z] in [0, 2^64); every addition and subtraction the
      source performs on it is written with [wrap].
    - [int] (32 bits, signed) is a [Z]; signed overflow is undefined
      behaviour in C++ and yields [Undef].
    - [std::string] is a [list byte].
    - [std::unique_ptr<rope_node>] is the type [handle]: either [null] or the
      owned node with its four fields.  Exclusive ownership means that no two
      handles share a node, so a handle is modelled by its value.  The
      mutators, the copy constructor and the assignment are modelled a second
      time on node objects in memory, where the copies and the aliasing are
      explicit; the last part of the file shows that this second model
      returns what the first one computes.
    - Exceptions, undefined behaviour (null dereference, out-of-range vector
      access, signed overflow) and loops that are run with fuel are the
      constructors of [outcome]. *)

From Stdlib Require Import ZArith List Bool Lia.
From Stdlib Require Import Strings.Byte Strings.String.
Import ListNotations.
Local Open Scope Z_scope.

Set Implicit Arguments.

(** ** Outcomes of a call *)

(** The two exception types that can leave the library: the library's own
    [std::invalid_argument] (string index out of bounds) and the
    [std::out_of_range] thrown by [std::string::substr]. *)
Inductive exn : Type :=
| invalid_argument
| out_of_range.

Inductive outcome (A : Type) : Type :=
| Ret (a : A)
| Throw (e : exn)
| Undef
| OutOfFuel.

Arguments Ret {A} a.
Arguments Throw {A} e.
Arguments Undef {A}.
Arguments OutOfFuel {A}.

Definition bind {A B : Type} (m : outcome A) (k : A -> outcome B) : outcome B :=
  match m with
  | Ret a => k a
  | Throw e => Throw e
  | Undef => Undef
  | OutOfFuel => OutOfFuel
  end.

Notation "x <- m ;; k" := (bind m (fun x => k))
  (at level 61, m at next level, right associativity).
Notation "' pat <- m ;; k" := (bind m (fun x => match x with pat => k end))
  (at level 61, pat pattern, m at next level, right associativity).

(** ** Machine integers *)

Definition SIZE_MOD : Z := 2 ^ 64.
Definition INT_MAX : Z := 2 ^ 31 - 1.

(** Arithmetic on [size_t] wraps modulo [2^64]. *)
Definition wrap (x : Z) : Z := x mod SIZE_MOD.

(** [a + b] on [int]: undefined on overflow. *)
Definition int_add (a b : Z) : outcome Z :=
  if a + b <=? INT_MAX then Ret (a + b) else Undef.

(** Conversion of a [size_t] to [int] (modular). *)
Definition int_of_size (x : Z) : Z :=
  let y := x mod 2 ^ 32 in if y <? 2 ^ 31 then y else y - 2 ^ 32.

(** ** Strings *)

Definition str : Type := list byte.

Definition bytes (s : string) : str := list_byte_of_string s.

(** [s.length()] *)
Definition slen (s : str) : Z := Z.of_nat (List.length s).

(** [s.substr(pos, n)]: throws [std::out_of_range] when [pos > size()],
    otherwise the characters [pos, min(pos + n, size())). *)
Definition substr (s : str) (pos n : Z) : outcome str :=
  if slen s <? pos then Throw out_of_range
  else
    let rlen := Z.min n (slen s - pos) in
    Ret (firstn (Z.to_nat rlen) (skipn (Z.to_nat pos) s)).

(** [s[index]]: the character, the terminating zero at [index = size()], and
    undefined beyond. *)
Definition char_at (s : str) (index : Z) : outcome byte :=
  if index <? slen s then
    match nth_error s (Z.to_nat index) with
    | Some c => Ret c
    | None => Undef
    end
  else if index =? slen s then Ret x00
  else Undef.

(** Python-like slices on the abstract string, used in statements. *)
Definition take (i : Z) (s : str) : str := firstn (Z.to_nat i) s.
Definition drop (i : Z) (s : str) : str := skipn (Z.to_nat i) s.
Definition slice (s : str) (a b : Z) : str := take (b - a) (drop a s).

(** ** Nodes (node.hpp, node.cpp) *)

(** A [handle] is a [std::unique_ptr<rope_node>]: null, or a node with its
    fields [weight_], [left_], [right_], [fragment_]. *)
Inductive handle : Type :=
| null
| node (weight_ : Z) (left_ right_ : handle) (fragment_ : str).

Definition is_null (p : handle) : bool :=
  match p with null => true | node _ _ _ _ => false end.

(** [rope_node::isLeaf], on the fields of [*this]. *)
Definition isLeaf (left_ right_ : handle) : bool :=
  is_null left_ && is_null right_.

(** [rope_node::getLength].  The [null] case is the guard
    [(right_ == nullptr) ? 0 : right_->getLength()] of the recursive call;
    callers that dereference without a guard check for [null] themselves. *)
Fixpoint getLength (this : handle) : Z :=
  match this with
  | null => 0
  | node w l r _ =>
      if isLeaf l r then w
      else wrap (w + getLength r)
  end.

(** [rope_node(const string& str)]: a leaf. *)
Definition leaf (s : str) : handle := node (slen s) null null s.

(** [rope_node(handle l, handle r)]: an internal node; dereferences [l]. *)
Definition concat (l r : handle) : outcome handle :=
  match l with
  | null => Undef
  | node _ _ _ _ => Ret (node (getLength l) l r [])
  end.

(** [rope_node(const rope_node&)]: the deep copy of [*this], child by child. *)
Fixpoint copy_node (this : handle) : handle :=
  match this with
  | null => null
  | node w l r f => node w (copy_node l) (copy_node r) f
  end.

(** [make_unique<rope_node>] of the pointee of [p]: dereferences [p]. *)
Definition clone (p : handle) : outcome handle :=
  match p with
  | null => Undef
  | node _ _ _ _ => Ret (copy_node p)
  end.

(** [rope_node::getCharByIndex]; the children are dereferenced unguarded. *)
Fixpoint getCharByIndex (this : handle) (index : Z) : outcome byte :=
  match this with
  | null => Undef
  | node w l r f =>
      if isLeaf l r then
        if w <=? index then Throw invalid_argument
        else char_at f index
      else if index <? w then getCharByIndex l index
      else getCharByIndex r (wrap (index - w))
  end.

(** [rope_node::getSubstring]; the [null] case is the guard
    [(child == nullptr) ? empty : child->getSubstring(..)] that the source
    writes at each recursive call, with the empty string as default. *)
Fixpoint getSubstring (this : handle) (start len : Z) : outcome str :=
  match this with
  | null => Ret []
  | node w l r f =>
      if isLeaf l r then
        if len <? w then substr f start len
        else Ret f
      else if start <? w then
        lResult <- getSubstring l start len ;;
        if w <? wrap (start + len) then
          let tmp := wrap (w - start) in
          rResult <- getSubstring r w (wrap (len - tmp)) ;;
          Ret (lResult ++ rResult)
        else Ret lResult
      else getSubstring r (wrap (start - w)) len
  end.

(** [rope_node::treeToString]; [null] is the guard of the recursive calls. *)
Fixpoint treeToString (this : handle) : str :=
  match this with
  | null => []
  | node _ l r f =>
      if isLeaf l r then f
      else treeToString l ++ treeToString r
  end.

(** [splitAt(handle node, size_t index)].  The node is consumed; in the
    branch [index < w] it is reused as the left result with its weight set
    to [index] and its right child reset. *)
Fixpoint splitAt (nd : handle) (index : Z) : outcome (handle * handle) :=
  match nd with
  | null => Undef
  | node w l r f =>
      if isLeaf l r then
        s1 <- substr f 0 index ;;
        s2 <- substr f index (wrap (w - index)) ;;
        Ret (leaf s1, leaf s2)
      else if index <? w then
        '(ll, lr) <- splitAt l index ;;
        c <- concat lr r ;;
        Ret (node index ll null f, c)
      else if w <? index then
        '(rl, rr) <- splitAt r (wrap (index - w)) ;;
        Ret (node w l rl f, rr)
      else Ret (l, r)
  end.

(** [rope_node::getDepth]: [std::max(++lResult, ++rResult)] on [size_t]. *)
Fixpoint getDepth (this : handle) : Z :=
  match this with
  | null => 0
  | node _ l r _ =>
      if isLeaf l r then 0
      else Z.max (wrap (getDepth l + 1)) (wrap (getDepth r + 1))
  end.

(** [rope_node::getLeaves]: the leaves from left to right.  The vector holds
    pointers into the tree; the tree is not modified while they are used, so
    each pointer is modelled by the leaf it points to. *)
Fixpoint getLeaves (this : handle) : list handle :=
  match this with
  | null => []
  | node _ l r _ =>
      if isLeaf l r then [this]
      else getLeaves l ++ getLeaves r
  end.

(** ** Ropes (rope.hpp, rope.cpp) *)

(** A rope owns the handle of its root. *)
Record rope : Type := mkRope { root_ : handle }.

(** The result of a mutator: the state after a normal return, the exception
    together with the state that is left behind, undefined behaviour, or fuel
    exhausted in a loop.  The state is the rope [*this], or the store of all
    rope objects where aliasing matters. *)
Inductive effect (S : Type) : Type :=
| Done (s : S)
| Raised (e : exn) (s : S)
| Undefined
| Exhausted.

Arguments Done {S} s.
Arguments Raised {S} e s.
Arguments Undefined {S}.
Arguments Exhausted {S}.

(** [rope::rope(const string&)] *)
Definition rope_of_string (s : str) : rope := mkRope (leaf s).

(** [rope::rope(void)] delegates to the string constructor. *)
Definition rope_default : rope := rope_of_string [].

(** [rope::rope(const rope&)]: dereferences the root of the argument, copies
    it into a local node and copies that into the new root. *)
Definition rope_copy (r : rope) : outcome rope :=
  newRoot <- clone (root_ r) ;;
  Ret (mkRope (copy_node newRoot)).

(** [rope::toString] *)
Definition toString (r : rope) : str :=
  match root_ r with
  | null => []
  | node _ _ _ _ => treeToString (root_ r)
  end.

(** [rope::length] *)
Definition length (r : rope) : Z :=
  match root_ r with
  | null => 0
  | node _ _ _ _ => getLength (root_ r)
  end.

(** [rope::at] *)
Definition at_ (r : rope) (index : Z) : outcome byte :=
  match root_ r with
  | null => Throw invalid_argument
  | node _ _ _ _ => getCharByIndex (root_ r) index
  end.

(** The bounds test shared by [substring] and [rdelete]:
    [start > actualLength || (start+len) > actualLength]. *)
Definition range_rejected (actualLength start len : Z) : bool :=
  (actualLength <? start) || (actualLength <? wrap (start + len)).

(** [rope::substring]; the root is dereferenced unguarded after the test. *)
Definition substring (r : rope) (start len : Z) : outcome str :=
  let actualLength := length r in
  if range_rejected actualLength start len then Throw invalid_argument
  else match root_ r with
       | null => Undef
       | node _ _ _ _ => getSubstring (root_ r) start len
       end.

(** After [move(this->root_)] the rope holds a null root until the new root
    is assigned; an exception in between leaves it that way. *)
Definition after_move (m : outcome handle) : effect rope :=
  match m with
  | Ret h => Done (mkRope h)
  | Throw e => Raised e (mkRope null)
  | Undef => Undefined
  | OutOfFuel => Exhausted
  end.

(** [rope::insert(size_t, const rope&)].  The argument is copied before
    [*this] is touched, so the argument is passed by its value; the call
    where the argument is [*this] itself is followed on node objects in
    memory by [h_insert_root] below. *)
Definition insert (this : rope) (i : Z) (r : rope) : effect rope :=
  if length this <? i then Raised invalid_argument this
  else
    match rope_copy r with
    | Ret tmp =>
        after_move
          ('(first, second) <- splitAt (root_ this) i ;;
           tmpConcat <- concat first (root_ tmp) ;;
           concat tmpConcat second)
    | Throw e => Raised e this
    | Undef => Undefined
    | OutOfFuel => Exhausted
    end.

(** [rope::insert(size_t, const string&)] *)
Definition insert_str (this : rope) (i : Z) (s : str) : effect rope :=
  insert this i (rope_of_string s).

(** [rope::append(const string&)] *)
Definition append_str (this : rope) (s : str) : effect rope :=
  let tmp := rope_of_string s in
  after_move (concat (root_ this) (root_ tmp)).

(** [rope::append(const rope&)] *)
Definition append (this : rope) (r : rope) : effect rope :=
  match rope_copy r with
  | Ret tmp => after_move (concat (root_ this) (root_ tmp))
  | Throw e => Raised e this
  | Undef => Undefined
  | OutOfFuel => Exhausted
  end.

(** [rope::rdelete] *)
Definition rdelete (this : rope) (start len : Z) : effect rope :=
  let actualLength := length this in
  if range_rejected actualLength start len then Raised invalid_argument this
  else
    after_move
      ('(first1, second1) <- splitAt (root_ this) start ;;
       '(_, second2) <- splitAt second1 len ;;
       concat first1 second2).

(** [fib]: the loop [for (i = 2; i <= n; i++)] runs [n - 1] times. *)
Fixpoint fib_loop (k : nat) (a b : Z) : outcome Z :=
  match k with
  | O => Ret b
  | S k' => next <- int_add a b ;; fib_loop k' b next
  end.

Definition fib (n : Z) : outcome Z :=
  if n =? 0 then Ret 0 else fib_loop (Z.to_nat (n - 1)) 0 1.

(** [buildFibList]: [while (a <= len)]. *)
Fixpoint buildFibList_loop (fuel : nat) (a b len : Z) (intervals : list Z)
  : outcome (list Z) :=
  match fuel with
  | O => OutOfFuel
  | S fuel' =>
      if a <=? len then
        let intervals' := if 0 <? a then intervals ++ [b] else intervals in
        next <- int_add a b ;;
        buildFibList_loop fuel' b next len intervals'
      else Ret intervals
  end.

Definition buildFibList (fuel : nat) (len : Z) : outcome (list Z) :=
  buildFibList_loop fuel 0 1 len [].

(** [rope::isBalanced] *)
Definition isBalanced (r : rope) : outcome bool :=
  match root_ r with
  | null => Ret true
  | node _ _ _ _ =>
      let d := getDepth (root_ r) in
      f <- fib (wrap (d + 2)) ;;
      Ret (f <=? length r)
  end.

(** ** Rebalancing (rope::balance) *)

(** [v[i]] on a [std::vector]: undefined out of range. *)
Definition vec_get {A : Type} (v : list A) (i : Z) : outcome A :=
  if i <? Z.of_nat (List.length v) then
    match nth_error v (Z.to_nat i) with
    | Some x => Ret x
    | None => Undef
    end
  else Undef.

(** [v[i] = x], used on an index that has just been read. *)
Fixpoint vec_set_nat {A : Type} (v : list A) (i : nat) (x : A) : list A :=
  match v, i with
  | [], _ => []
  | _ :: v', O => x :: v'
  | y :: v', S i' => y :: vec_set_nat v' i' x
  end.

Definition vec_set {A : Type} (v : list A) (i : Z) (x : A) : list A :=
  vec_set_nat v (Z.to_nat i) x.

(** The statements the two loops share:
    [tmp = copy of nodes[i]; acc = copy of acc; acc = concat(tmp, acc);
     len = acc->getLength(); if (len >= intervals[i+1]) nodes[i] = nullptr]. *)
Definition absorb (intervals : list Z) (nodes : list handle) (slot acc : handle)
  (i : Z) : outcome (list handle * handle * Z) :=
  tmp <- clone slot ;;
  acc1 <- clone acc ;;
  acc2 <- concat tmp acc1 ;;
  let len := getLength acc2 in
  bound <- vec_get intervals (wrap (i + 1)) ;;
  let nodes' := if bound <=? len then vec_set nodes i null else nodes in
  Ret (nodes', acc2, len).

(** The inner loop [while (i < max_i && len >= intervals[i+1])]. *)
Fixpoint find_slot (fuel : nat) (intervals : list Z) (max_i : Z)
  (nodes : list handle) (acc : handle) (len i : Z)
  : outcome (list handle * handle * Z * Z) :=
  match fuel with
  | O => OutOfFuel
  | S fuel' =>
      if i <? max_i then
        bound <- vec_get intervals (wrap (i + 1)) ;;
        if bound <=? len then
          slot <- vec_get nodes i ;;
          if is_null slot then
            find_slot fuel' intervals max_i nodes acc len (wrap (i + 1))
          else
            '(nodes', acc', len') <- absorb intervals nodes slot acc i ;;
            find_slot fuel' intervals max_i nodes' acc' len' (wrap (i + 1))
        else Ret (nodes, acc, len, i)
      else Ret (nodes, acc, len, i)
  end.

(** The loop [while (!inserted)] for one leaf; returns the slots and
    [currMaxInterval]. *)
Fixpoint place (fuel : nat) (intervals : list Z) (max_i : Z)
  (nodes : list handle) (acc : handle) (len i currMaxInterval : Z)
  : outcome (list handle * Z) :=
  match fuel with
  | O => OutOfFuel
  | S fuel' =>
      '(nodes1, acc1, len1, i1) <- find_slot fuel intervals max_i nodes acc len i ;;
      slot <- vec_get nodes1 i1 ;;
      if is_null slot then
        Ret (vec_set nodes1 i1 acc1,
             if currMaxInterval <? i1 then i1 else currMaxInterval)
      else
        '(nodes2, acc2, len2) <- absorb intervals nodes1 slot acc1 i1 ;;
        place fuel' intervals max_i nodes2 acc2 len2 i1 currMaxInterval
  end.

(** The loop [for (auto& leaf : leaves)]. *)
Fixpoint insert_leaves (fuel : nat) (intervals : list Z) (max_i : Z)
  (leaves : list handle) (nodes : list handle) (currMaxInterval : Z)
  : outcome (list handle * Z) :=
  match leaves with
  | [] => Ret (nodes, currMaxInterval)
  | lf :: rest =>
      let len := getLength lf in
      if 0 <? len then
        acc <- clone lf ;;
        '(nodes', currMax') <-
           place fuel intervals max_i nodes acc len 0 currMaxInterval ;;
        insert_leaves fuel intervals max_i rest nodes' currMax'
      else insert_leaves fuel intervals max_i rest nodes currMaxInterval
  end.

(** The loop [for (int idx = currMaxInterval; idx >= 0; idx--)], from [idx]
    down to 0. *)
Fixpoint gather (idx : nat) (nodes : list handle) (acc : handle)
  : outcome handle :=
  slot <- vec_get nodes (Z.of_nat idx) ;;
  acc' <- (if is_null slot then Ret acc
           else tmp <- clone slot ;; concat acc tmp) ;;
  match idx with
  | O => Ret acc'
  | S idx' => gather idx' nodes acc'
  end.

(** The body of [balance] once the rope is found unbalanced; returns the new
    root. *)
Definition rebuild (fuel : nat) (r : rope) : outcome handle :=
  intervals <- buildFibList fuel (length r) ;;
  let nodes := repeat null (List.length intervals) in
  leaves <- match root_ r with
            | null => Undef
            | node _ _ _ _ => Ret (getLeaves (root_ r))
            end ;;
  let max_i := wrap (Z.of_nat (List.length intervals) - 1) in
  '(nodes1, currMaxInterval) <-
     insert_leaves fuel intervals max_i leaves nodes 0 ;;
  acc <- vec_get nodes1 currMaxInterval ;;
  let nodes2 := vec_set nodes1 currMaxInterval null in
  let idx := int_of_size currMaxInterval in
  if idx <? 0 then Ret acc
  else gather (Z.to_nat idx) nodes2 acc.

(** [rope::balance] *)
Definition balance (fuel : nat) (r : rope) : effect rope :=
  match isBalanced r with
  | Ret true => Done r
  | Ret false =>
      match rebuild fuel r with
      | Ret h => Done (mkRope h)
      | Throw e => Raised e r
      | Undef => Undefined
      | OutOfFuel => Exhausted
      end
  | Throw e => Raised e r
  | Undef => Undefined
  | OutOfFuel => Exhausted
  end.

(** ** Rope objects and assignment (rope::operator=) *)

(** [operator=] compares the addresses of its operands, so rope objects are
    kept in a store indexed by address.  A rope owns its tree exclusively
    ([unique_ptr]), hence the store maps an address to the value of the rope
    that lives there. *)
Definition store : Type := nat -> rope.

Definition upd (st : store) (a : nat) (r : rope) : store :=
  fun b => if Nat.eqb b a then r else st b.

(** [rope::operator=]: [if (this == &rhs) return *this;] then the old root is
    released and the root of [rhs] is dereferenced and copied. *)
Definition assign (st : store) (this rhs : nat) : outcome store :=
  if Nat.eqb this rhs then Ret st
  else
    newRoot <- clone (root_ (st rhs)) ;;
    Ret (upd st this (mkRope newRoot)).

(** The mutators of the public interface, called on the object at an
    address; a rope argument is named by its address too. *)
Inductive mutation : Type :=
| Insert (i : Z) (arg : nat)
| InsertStr (i : Z) (s : str)
| Append (arg : nat)
| AppendStr (s : str)
| Delete (start len : Z).

Definition run (st : store) (this : nat) (m : mutation) : effect rope :=
  match m with
  | Insert i arg => insert (st this) i (st arg)
  | InsertStr i s => insert_str (st this) i s
  | Append arg => append (st this) (st arg)
  | AppendStr s => append_str (st this) s
  | Delete start len => rdelete (st this) start len
  end.

Definition mutate (st : store) (this : nat) (m : mutation) : effect store :=
  match run st this m with
  | Done r => Done (upd st this r)
  | Raised e r => Raised e (upd st this r)
  | Undefined => Undefined
  | Exhausted => Exhausted
  end.

(** The state a call leaves behind, when it leaves one. *)
Definition state_after {S : Type} (e : effect S) : option S :=
  match e with
  | Done s => Some s
  | Raised _ s => Some s
  | Undefined => None
  | Exhausted => None
  end.

(** ** Representation invariants *)

(** The string a handle stands for has fewer than [2^64] bytes: it is held in
    memory. *)
Definition fits (p : handle) : Prop := slen (treeToString p) < SIZE_MOD.

(** The invariant the code maintains on every node below a handle: a leaf
    weighs the length of its fragment; a non-leaf node has a left child, an
    empty fragment and the length of its left subtree's string as weight.
    The right child of a non-leaf node may be absent. *)
Fixpoint wf (p : handle) : Prop :=
  match p with
  | null => True
  | node w l r f =>
      if isLeaf l r then w = slen f
      else l <> null /\ f = [] /\ w = slen (treeToString l) /\ wf l /\ wf r
  end.

(** The right spine ends in a leaf: no right child on it is absent. *)
Fixpoint closed (p : handle) : Prop :=
  match p with
  | null => False
  | node _ l r _ => if isLeaf l r then True else closed r
  end.

(** The invariant of a rope that the constructors establish and the
    operations keep when they return normally. *)
Definition rope_rep (r : rope) : Prop :=
  wf (root_ r) /\ closed (root_ r) /\ fits (root_ r).

(** A call that throws after the root has been moved out leaves a rope
    without root; every other reachable rope satisfies [rope_rep]. *)
Definition rope_inv (r : rope) : Prop := root_ r = null \/ rope_rep r.

(** A value of type [size_t]. *)
Definition is_size (x : Z) : Prop := 0 <= x < SIZE_MOD.

(** A tree as [balance] assembles it: leaves that weigh their fragment, glued
    by the concatenating constructor, both children present everywhere. *)
Fixpoint built (p : handle) : Prop :=
  match p with
  | null => False
  | node w l r f =>
      if isLeaf l r then w = slen f
      else built l /\ built r /\ f = [] /\ w = getLength l
  end.

Definition slot_ok (p : handle) : Prop := p = null \/ built p.

(** *** The state of the rebalancing loops *)

(** The string held by the slots: slot 0 holds the rightmost part. *)
Fixpoint slots_str (nodes : list handle) : str :=
  match nodes with
  | [] => []
  | p :: rest => slots_str rest ++ treeToString p
  end.

(** The interval table starts at 1, its entries are positive, each entry is
    at most twice the one before, and an [int] can index it. *)
Definition intervals_ok (iv : list Z) : Prop :=
  (forall a, nth_error iv 0 = Some a -> a = 1)
  /\ (forall j a b, nth_error iv j = Some a -> nth_error iv (S j) = Some b ->
                    1 <= a /\ b <= 2 * a)
  /\ Z.of_nat (List.length iv) <= INT_MAX.

(** The invariant of the loop of [buildFibList] on [a], [b] and the entries
    pushed so far: the table is empty and the loop is in its first two
    rounds, or [a] is the entry pushed last. *)
Definition fib_state (a b : Z) (acc : list Z) : Prop :=
  0 <= a /\ b <= INT_MAX
  /\ ((acc = [] /\ a <= 1 /\ b = 1)
      \/ (1 <= a /\ a + 1 <= b /\ b <= 2 * a
          /\ exists acc0, acc = acc0 ++ [a]))
  /\ Z.of_nat (List.length acc) <= a
  /\ (forall x, nth_error acc 0 = Some x -> x = 1)
  /\ (forall j x y, nth_error acc j = Some x -> nth_error acc (S j) = Some y ->
                    1 <= x /\ y <= 2 * x).

(** There is a slot per interval, and an occupied slot holds an assembled
    tree that is at least as long as the lower end of its interval. *)
Definition slots_inv (iv : list Z) (nodes : list handle) : Prop :=
  List.length nodes = List.length iv
  /\ forall j p, nth_error nodes j = Some p -> p <> null ->
                 built p
                 /\ forall a, nth_error iv j = Some a -> a <= slen (treeToString p).

(** The invariant of the loops that look for the slot of [acc]: the slots
    below [i] are empty, [acc] has reached the interval of slot [i], and the
    slots followed by [acc] hold the string [pre] read so far. *)
Definition loop_inv (iv : list Z) (nodes : list handle) (acc : handle)
  (len i : Z) (pre : str) : Prop :=
  slots_inv iv nodes
  /\ built acc
  /\ len = slen (treeToString acc)
  /\ 0 <= i
  /\ Forall (eq null) (firstn (Z.to_nat i) nodes)
  /\ (forall a, nth_error iv (Z.to_nat i) = Some a -> a <= len)
  /\ slots_str nodes ++ treeToString acc = pre
  /\ slen pre < SIZE_MOD.

(** No slot above [currMaxInterval] is occupied. *)
Definition cm_inv (nodes : list handle) (cm : Z) : Prop :=
  0 <= cm /\ Forall (eq null) (skipn (S (Z.to_nat cm)) nodes).

(** The node invariant as documented in node.hpp: every non-leaf node has
    both children, an empty fragment and the length of its left subtree's
    string as weight. *)
Fixpoint internal_full (p : handle) : Prop :=
  match p with
  | null => True
  | node w l r f =>
      if isLeaf l r then True
      else l <> null /\ r <> null /\ f = [] /\ w = slen (treeToString l)
           /\ internal_full l /\ internal_full r
  end.

(** The same invariant without the presence of the right child. *)
Fixpoint internal_left (p : handle) : Prop :=
  match p with
  | null => True
  | node w l r f =>
      if isLeaf l r then True
      else l <> null /\ f = [] /\ w = slen (treeToString l)
           /\ internal_left l /\ internal_left r
  end.

(** ** Reachable ropes *)

(** The ropes a program can hold: built by a constructor, then changed by
    the public operations.  A call that throws leaves a state behind too.
    Arguments are values of their C++ types, rope arguments are reachable
    ropes, and the string of every rope fits in memory ([balance] keeps the
    string, so its result needs no such premise). *)
Inductive reachable : rope -> Prop :=
| reach_default : reachable rope_default
| reach_string (s : str) :
    fits (root_ (rope_of_string s)) -> reachable (rope_of_string s)
| reach_copy (r r' : rope) :
    reachable r -> rope_copy r = Ret r' -> reachable r'
| reach_assign (rhs : rope) (newRoot : handle) :
    reachable rhs -> clone (root_ rhs) = Ret newRoot ->
    reachable (mkRope newRoot)
| reach_insert (r : rope) (i : Z) (x r' : rope) :
    reachable r -> reachable x -> is_size i ->
    state_after (insert r i x) = Some r' -> fits (root_ r') -> reachable r'
| reach_insert_str (r : rope) (i : Z) (s : str) (r' : rope) :
    reachable r -> is_size i ->
    state_after (insert_str r i s) = Some r' -> fits (root_ r') -> reachable r'
| reach_append (r x r' : rope) :
    reachable r -> reachable x ->
    state_after (append r x) = Some r' -> fits (root_ r') -> reachable r'
| reach_append_str (r : rope) (s : str) (r' : rope) :
    reachable r ->
    state_after (append_str r s) = Some r' -> fits (root_ r') -> reachable r'
| reach_rdelete (r : rope) (start len : Z) (r' : rope) :
    reachable r -> is_size start -> is_size len ->
    state_after (rdelete r start len) = Some r' -> fits (root_ r') -> reachable r'
| reach_balance (fuel : nat) (r r' : rope) :
    reachable r ->
    state_after (balance fuel r) = Some r' -> reachable r'.

(** ** Concrete ropes used below *)

(** The result of a call that is known to return. *)
Definition returned (e : effect rope) : rope :=
  match e with
  | Done r => r
  | Raised _ r => r
  | Undefined => mkRope null
  | Exhausted => mkRope null
  end.

(** [rope r("ab"); r.append("cd");] *)
Definition rope_ab_cd : rope :=
  returned (append_str (rope_of_string (bytes "ab")) (bytes "cd")).

(** [rope_ab_cd] after [insert(1, "X")]. *)
Definition rope_aXb_cd : rope :=
  returned (insert_str rope_ab_cd 1 (bytes "X")).

(** [rope r("abc");] *)
Definition rope_abc : rope := rope_of_string (bytes "abc").

(** [rope r("a"); r.append("b"); ... r.append("g");] *)
Definition rope_a_to_g : rope :=
  fold_left (fun r s => returned (append_str r (bytes s)))
    ["b"; "c"; "d"; "e"; "f"; "g"]%string (rope_of_string (bytes "a")).

(** [rope r("abc"); r.append("de");] *)
Definition rope_abc_de : rope :=
  returned (append_str rope_abc (bytes "de")).

(** Two rope objects, at the addresses 0 and 1. *)
Definition store_two : store :=
  fun a => if Nat.eqb a 0 then rope_abc else rope_ab_cd.

(** The largest value of [size_t]. *)
Definition SIZE_MAX : Z := SIZE_MOD - 1.

(** ** Comparison (rope::operator==, rope::operator!=) *)

(** [==] on [std::string]: the same bytes in the same order. *)
Fixpoint str_eqb (a b : str) : bool :=
  match a, b with
  | [], [] => true
  | x :: a', y :: b' => Byte.eqb x y && str_eqb a' b'
  | _, _ => false
  end.

(** [rope::operator==] compares the strings of the two ropes. *)
Definition operator_eq (this rhs : rope) : bool :=
  str_eqb (toString this) (toString rhs).

(** [rope::operator!=] *)
Definition operator_ne (this rhs : rope) : bool :=
  negb (operator_eq this rhs).

(** ** The Fibonacci numbers *)

(** The sequence 0, 1, 1, 2, 3, 5, ... itself, to say what [fib] and
    [buildFibList] compute. *)
Fixpoint fibonacci (n : nat) : Z :=
  match n with
  | O => 0
  | S m =>
      match m with
      | O => 1
      | S k => fibonacci k + fibonacci m
      end
  end.

(** ** The slot of [currMaxInterval] *)

(** Slot [cm] holds a tree. *)
Definition occupied (nodes : list handle) (cm : Z) : Prop :=
  exists p, vec_get nodes cm = Ret p /\ p <> null.

(** The inner loop of [balance] is about to pass slot [i]. *)
Definition ready (iv : list Z) (max_i len i : Z) : Prop :=
  i < max_i /\ exists bound, vec_get iv (i + 1) = Ret bound /\ bound <= len.

(** What the loops of [balance] keep about [currMaxInterval]: nothing has
    been placed yet, or its slot is occupied, or the search for the slot of
    [acc] is beyond it or about to pass it. *)
Definition top_ok (nodes : list handle) (cm i : Z) (passing : Prop) : Prop :=
  (Forall (eq null) nodes /\ cm = 0)
  \/ occupied nodes cm
  \/ cm < i
  \/ (cm = i /\ passing).

(** ** Nodes in memory

    The definitions above model a handle by the value of the tree it owns.
    Here the same operations are written on node objects in memory, where a
    handle is an address, [make_unique] obtains storage, assignments to the
    fields of a node happen in place, and a handle that goes out of scope
    releases its node.  When a call throws, the memory it leaves behind is
    not modelled. *)

(** The address of a node allocated by [make_unique]. *)
Definition addr : Type := nat.

(** A [unique_ptr<rope_node>] as the address it holds; [None] is [nullptr]. *)
Definition ptr : Type := option addr.

(** A [rope_node] object: its four fields. *)
Record cell : Type :=
  mkCell { weight_ : Z; left_ : ptr; right_ : ptr; fragment_ : str }.

(** The free store: the node objects that are alive, by address.  The first
    entry for an address is the object that lives there. *)
Definition heap : Type := list (addr * cell).

(** The node object at an address, if one is alive there. *)
Fixpoint h_lookup (h : heap) (a : addr) : option cell :=
  match h with
  | [] => None
  | (b, c) :: h' => if Nat.eqb a b then Some c else h_lookup h' a
  end.

(** Construction of a node object at an address, or assignment to its
    fields. *)
Definition h_store (h : heap) (a : addr) (c : cell) : heap := (a, c) :: h.

(** Release of the storage at an address. *)
Definition h_free (h : heap) (a : addr) : heap :=
  filter (fun e => negb (Nat.eqb (fst e) a)) h.

(** An allocator that hands out the address after the largest one in use. *)
Definition next_addr (h : heap) : addr := S (fold_right Nat.max 0%nat (map fst h)).

Section Memory.

(** [operator new]: the address of the storage it hands out, chosen from the
    memory as it is.  The theorems assume that this storage is not in use. *)
Variable fresh : heap -> addr.

(** [p == nullptr ? nullptr : make_unique<rope_node>( *p )]: storage for the
    new node is obtained, the member initialisers copy [weight_] and
    [fragment_] and leave the children null, and the body of the copy
    constructor clones the left child and then the right child. *)
Fixpoint h_clone (fuel : nat) (h : heap) (p : ptr) : outcome (ptr * heap) :=
  match fuel with
  | O => OutOfFuel
  | S fuel' =>
      match p with
      | None => Ret (None, h)
      | Some a =>
          match h_lookup h a with
          | None => Undef
          | Some c =>
              let n := fresh h in
              let h0 := h_store h n (mkCell (weight_ c) None None (fragment_ c)) in
              '(pl, h1) <- h_clone fuel' h0 (left_ c) ;;
              let h1' := h_store h1 n (mkCell (weight_ c) pl None (fragment_ c)) in
              '(pr, h2) <- h_clone fuel' h1' (right_ c) ;;
              Ret (Some n, h_store h2 n (mkCell (weight_ c) pl pr (fragment_ c)))
          end
      end
  end.

(** [delete p]: the destructor of the node releases the right child and then
    the left child (members are destroyed in reverse order), then the
    storage of the node is returned. *)
Fixpoint h_delete (fuel : nat) (h : heap) (p : ptr) : outcome heap :=
  match fuel with
  | O => OutOfFuel
  | S fuel' =>
      match p with
      | None => Ret h
      | Some a =>
          match h_lookup h a with
          | None => Undef
          | Some c =>
              h1 <- h_delete fuel' h (right_ c) ;;
              h2 <- h_delete fuel' h1 (left_ c) ;;
              Ret (h_free h2 a)
          end
      end
  end.

(** [rope_node::isLeaf] on a node object. *)
Definition c_isLeaf (c : cell) : bool :=
  match left_ c, right_ c with
  | None, None => true
  | _, _ => false
  end.

(** [rope_node::getLength] on the node at an address. *)
Fixpoint h_getLength (fuel : nat) (h : heap) (a : addr) : outcome Z :=
  match fuel with
  | O => OutOfFuel
  | S fuel' =>
      match h_lookup h a with
      | None => Undef
      | Some c =>
          if c_isLeaf c then Ret (weight_ c)
          else
            tmp <- match right_ c with
                   | None => Ret 0
                   | Some r => h_getLength fuel' h r
                   end ;;
            Ret (wrap (weight_ c + tmp))
      end
  end.

(** [make_unique<rope_node>(str)]: a new leaf. *)
Definition h_leaf (h : heap) (s : str) : ptr * heap :=
  let n := fresh h in
  (Some n, h_store h n (mkCell (slen s) None None s)).

(** [make_unique<rope_node>(move(l), move(r))]: a new internal node; the
    constructor dereferences [l] for the weight. *)
Definition h_concat (fuel : nat) (h : heap) (l r : ptr) : outcome (ptr * heap) :=
  let n := fresh h in
  match l with
  | None => Undef
  | Some la =>
      w <- h_getLength fuel h la ;;
      Ret (Some n, h_store h n (mkCell w l r []))
  end.

(** [splitAt(handle node, size_t index)] on the node at an address.  The
    node is destroyed on return where it is not part of the result; where it
    is reused its fields are assigned in place. *)
Fixpoint h_splitAt (fuel : nat) (h : heap) (p : ptr) (index : Z)
  : outcome (ptr * ptr * heap) :=
  match fuel with
  | O => OutOfFuel
  | S fuel' =>
      match p with
      | None => Undef
      | Some a =>
          match h_lookup h a with
          | None => Undef
          | Some c =>
              let w := weight_ c in
              if c_isLeaf c then
                s1 <- substr (fragment_ c) 0 index ;;
                let '(p1, h1) := h_leaf h s1 in
                s2 <- substr (fragment_ c) index (wrap (w - index)) ;;
                let '(p2, h2) := h_leaf h1 s2 in
                Ret (p1, p2, h_free h2 a)
              else if index <? w then
                let h1 := h_store h a (mkCell index None None (fragment_ c)) in
                '(ll, lr, h2) <- h_splitAt fuel' h1 (left_ c) index ;;
                let h3 := h_store h2 a (mkCell index ll None (fragment_ c)) in
                '(c2, h4) <- h_concat fuel h3 lr (right_ c) ;;
                Ret (Some a, c2, h4)
              else if w <? index then
                let h1 := h_store h a (mkCell w (left_ c) None (fragment_ c)) in
                '(rl, rr, h2) <- h_splitAt fuel' h1 (right_ c) (wrap (index - w)) ;;
                let h3 := h_store h2 a (mkCell w (left_ c) rl (fragment_ c)) in
                Ret (Some a, rr, h3)
              else
                Ret (left_ c, right_ c, h_free h a)
          end
      end
  end.

(** [rope::rope(const rope&)]: the root of the argument is dereferenced and
    copied into the local object [newRoot] (the object itself is not on the
    free store, its children are), [make_unique] copies [newRoot] into the
    new root, and [newRoot] is destroyed with its children when the
    constructor returns. *)
Definition h_rope_copy (fuel : nat) (h : heap) (p : ptr) : outcome (ptr * heap) :=
  match p with
  | None => Undef
  | Some a =>
      match h_lookup h a with
      | None => Undef
      | Some c =>
          '(pl, h1) <- h_clone fuel h (left_ c) ;;
          '(pr, h2) <- h_clone fuel h1 (right_ c) ;;
          let n := fresh h2 in
          let h3 := h_store h2 n (mkCell (weight_ c) None None (fragment_ c)) in
          '(pl', h4) <- h_clone fuel h3 pl ;;
          let h4' := h_store h4 n (mkCell (weight_ c) pl' None (fragment_ c)) in
          '(pr', h5) <- h_clone fuel h4' pr ;;
          let h6 := h_store h5 n (mkCell (weight_ c) pl' pr' (fragment_ c)) in
          h7 <- h_delete fuel h6 pr ;;
          h8 <- h_delete fuel h7 pl ;;
          Ret (Some n, h8)
      end
  end.

(** [rope::length] on a root pointer. *)
Definition h_length (fuel : nat) (h : heap) (p : ptr) : outcome Z :=
  match p with
  | None => Ret 0
  | Some a => h_getLength fuel h a
  end.

(** Rope objects by address, each with the pointer its [root_] holds. *)
Definition objects : Type := nat -> ptr.

(** Assignment to the [root_] of the object at an address. *)
Definition set_root (st : objects) (a : nat) (p : ptr) : objects :=
  fun b => if Nat.eqb b a then p else st b.

(** [rope::operator=] on rope objects in memory: the self-assignment test,
    [root_.reset()], then [make_unique<rope_node>( *rhs.root_ )]. *)
Definition h_assign (fuel : nat) (st : objects) (h : heap) (this rhs : nat)
  : outcome (objects * heap) :=
  if Nat.eqb this rhs then Ret (st, h)
  else
    h1 <- h_delete fuel h (st this) ;;
    let st1 := set_root st this None in
    match st1 rhs with
    | None => Undef
    | Some _ =>
        '(p, h2) <- h_clone fuel h1 (st1 rhs) ;;
        Ret (set_root st1 this p, h2)
    end.

(** [rope::insert(size_t, const rope&)] on the root pointers of [*this] and
    of the argument, which may be the same; the new root is returned. *)
Definition h_insert_root (fuel : nat) (h : heap) (this_root arg_root : ptr)
  (i : Z) : outcome (ptr * heap) :=
  len <- h_length fuel h this_root ;;
  if len <? i then Throw invalid_argument
  else
    '(tmp, h1) <- h_rope_copy fuel h arg_root ;;
    '(first, second, h2) <- h_splitAt fuel h1 this_root i ;;
    '(tmpConcat, h3) <- h_concat fuel h2 first tmp ;;
    h_concat fuel h3 tmpConcat second.

(** [rope::append(const rope&)] *)
Definition h_append_root (fuel : nat) (h : heap) (this_root arg_root : ptr)
  : outcome (ptr * heap) :=
  '(tmp, h1) <- h_rope_copy fuel h arg_root ;;
  h_concat fuel h1 this_root tmp.

(** [rope::rdelete] *)
Definition h_rdelete_root (fuel : nat) (h : heap) (this_root : ptr)
  (start len : Z) : outcome (ptr * heap) :=
  actualLength <- h_length fuel h this_root ;;
  if range_rejected actualLength start len then Throw invalid_argument
  else
    '(first1, second1, h1) <- h_splitAt fuel h this_root start ;;
    '(first2, second2, h2) <- h_splitAt fuel h1 second1 len ;;
    h3 <- h_delete fuel h2 first2 ;;
    h_concat fuel h3 first1 second2.

(** The mutators called on the rope object at an address.  A rope argument
    is named by its address and may be [*this]; a string argument is turned
    into a temporary rope, which is destroyed after the call. *)
Definition h_run (fuel : nat) (st : objects) (h : heap) (this : nat)
  (m : mutation) : outcome (objects * heap) :=
  match m with
  | Insert i arg =>
      '(root, h') <- h_insert_root fuel h (st this) (st arg) i ;;
      Ret (set_root st this root, h')
  | InsertStr i s =>
      let '(tmp, h0) := h_leaf h s in
      '(root, h1) <- h_insert_root fuel h0 (st this) tmp i ;;
      h2 <- h_delete fuel h1 tmp ;;
      Ret (set_root st this root, h2)
  | Append arg =>
      '(root, h') <- h_append_root fuel h (st this) (st arg) ;;
      Ret (set_root st this root, h')
  | AppendStr s =>
      let '(tmp, h0) := h_leaf h s in
      '(root, h') <- h_concat fuel h0 (st this) tmp ;;
      Ret (set_root st this root, h')
  | Delete start len =>
      '(root, h') <- h_rdelete_root fuel h (st this) start len ;;
      Ret (set_root st this root, h')
  end.

End Memory.

(** The tree that a pointer leads to in memory, with the addresses of its
    nodes: no address occurs twice. *)
Fixpoint rep (h : heap) (p : ptr) (t : handle) (fp : list addr) : Prop :=
  match t with
  | null => p = None /\ fp = []
  | node w l r f =>
      exists a pl pr fl fr,
        p = Some a
        /\ h_lookup h a = Some (mkCell w pl pr f)
        /\ rep h pl l fl /\ rep h pr r fr
        /\ fp = a :: fl ++ fr
        /\ NoDup fp
  end.

(** The number of nodes on the longest path from a node down. *)
Fixpoint height (t : handle) : nat :=
  match t with
  | null => O
  | node _ l r _ => S (Nat.max (height l) (height r))
  end.

(** The nodes of ["abc"] and of ["ab" . "cd"] in memory. *)
Definition heap_three : heap :=
  [(1, mkCell 3 None None (bytes "abc"));
   (2, mkCell 2 (Some 3) (Some 4) []);
   (3, mkCell 2 None None (bytes "ab"));
   (4, mkCell 2 None None (bytes "cd"))]%nat.

(** An address that an operation on the nodes [fp] may use: one of these
    nodes, or storage that is not in use. *)
Definition within (h : heap) (fp fp' : list addr) : Prop :=
  forall a, In a fp' -> In a fp \/ h_lookup h a = None.

(** Every node that is alive and not among [fp] is left as it is. *)
Definition preserves (h h' : heap) (fp : list addr) : Prop :=
  forall a, ~ In a fp -> h_lookup h a <> None -> h_lookup h' a = h_lookup h a.

(** No address occurs in both lists. *)
Definition disjoint (xs ys : list addr) : Prop :=
  forall a, In a xs -> ~ In a ys.

(** The rope objects in memory stand for the ropes of a store: the root of
    each object leads to the tree of its rope, and no two trees share a
    node. *)
Definition stands_for (h : heap) (sto : objects) (vst : store)
  (fps : nat -> list addr) : Prop :=
  (forall o, rep h (sto o) (root_ (vst o)) (fps o))
  /\ (forall o o', o <> o' -> disjoint (fps o) (fps o')).

(** Three rope objects: ["abc"] at address 0, ["ab" . "cd"] at address 1, and
    no root anywhere else. *)
Definition store_three : store :=
  fun a => if Nat.eqb a 0 then rope_abc
           else if Nat.eqb a 1 then rope_ab_cd else mkRope null.

(** Their roots in [heap_three]. *)
Definition objects_three : objects :=
  fun a => if Nat.eqb a 0 then Some 1%nat
           else if Nat.eqb a 1 then Some 2%nat else None.

(** The addresses of their nodes. *)
Definition footprints_three : nat -> list addr :=
  fun a => if Nat.eqb a 0 then [1]%nat
           else if Nat.eqb a 1 then [2; 3; 4]%nat else [].

(** * Properties *)

Unset Implicit Arguments.

(** ** The outcome monad *)

Lemma bind_Ret_inv (A B : Type) (m : outcome A) (k : A -> outcome B) (b : B) :
  bind m k = Ret b -> exists a, m = Ret a /\ k a = Ret b.
Proof.
  destruct m; simpl; intros H; try discriminate.
  exists a; split; [reflexivity | exact H].
Qed.

(** Inverts a hypothesis of the shape [bind m k = Ret b]. *)
Tactic Notation "inv_bind" hyp(H) "as" ident(a) ident(Ha) :=
  apply bind_Ret_inv in H; destruct H as [a [Ha H]].

(** ** Strings *)

Lemma slen_nonneg (s : str) : 0 <= slen s.
Proof. unfold slen; lia. Qed.

Lemma slen_app (a b : str) : slen (a ++ b) = slen a + slen b.
Proof. unfold slen; rewrite length_app; lia. Qed.

Lemma slen_nil_inv (s : str) : slen s <= 0 -> s = [].
Proof. destruct s; [reflexivity | unfold slen; simpl; lia]. Qed.

Lemma take_0 (s : str) : take 0 s = [].
Proof. reflexivity. Qed.

Lemma drop_0 (s : str) : drop 0 s = s.
Proof. reflexivity. Qed.

Lemma take_drop (i : Z) (s : str) : take i s ++ drop i s = s.
Proof. apply firstn_skipn. Qed.

Lemma slen_take (i : Z) (s : str) : 0 <= i <= slen s -> slen (take i s) = i.
Proof. unfold take, slen; intros H; rewrite length_firstn; lia. Qed.

Lemma slen_drop (i : Z) (s : str) :
  0 <= i <= slen s -> slen (drop i s) = slen s - i.
Proof. unfold drop, slen; intros H; rewrite length_skipn; lia. Qed.

Lemma take_app_l (i : Z) (a b : str) : i <= slen a -> take i (a ++ b) = take i a.
Proof.
  unfold take, slen; intros H; rewrite firstn_app.
  replace (Z.to_nat i - List.length a)%nat with 0%nat by lia.
  simpl; apply app_nil_r.
Qed.

Lemma take_app_r (i : Z) (a b : str) :
  slen a <= i -> take i (a ++ b) = a ++ take (i - slen a) b.
Proof.
  unfold take, slen; intros H; rewrite firstn_app.
  rewrite firstn_all2 by lia.
  f_equal; f_equal; lia.
Qed.

Lemma drop_app_l (i : Z) (a b : str) :
  i <= slen a -> drop i (a ++ b) = drop i a ++ b.
Proof.
  unfold drop, slen; intros H; rewrite skipn_app.
  replace (Z.to_nat i - List.length a)%nat with 0%nat by lia.
  reflexivity.
Qed.

Lemma drop_app_r (i : Z) (a b : str) :
  slen a <= i -> drop i (a ++ b) = drop (i - slen a) b.
Proof.
  unfold drop, slen; intros H; rewrite skipn_app.
  rewrite skipn_all2 by lia.
  simpl; f_equal; lia.
Qed.

Lemma drop_drop (i j : Z) (s : str) :
  0 <= i -> 0 <= j -> drop j (drop i s) = drop (i + j) s.
Proof.
  unfold drop; intros Hi Hj; rewrite skipn_skipn; f_equal; lia.
Qed.

Lemma wrap_small (x : Z) : 0 <= x < SIZE_MOD -> wrap x = x.
Proof. intros H; unfold wrap; apply Z.mod_small; exact H. Qed.

Lemma substr_prefix (f : str) (i : Z) :
  0 <= i -> substr f 0 i = Ret (take i f).
Proof.
  intros Hi; unfold substr.
  pose proof (slen_nonneg f) as Hf.
  destruct (slen f <? 0) eqn:E; [apply Z.ltb_lt in E; lia |].
  simpl; unfold take; f_equal.
  rewrite Z.sub_0_r.
  destruct (Z.min_spec i (slen f)) as [[_ ->] | [Hle ->]]; [reflexivity |].
  unfold slen in *; rewrite !firstn_all2 by lia; reflexivity.
Qed.

Lemma substr_suffix (f : str) (i : Z) :
  0 <= i <= slen f -> substr f i (slen f - i) = Ret (drop i f).
Proof.
  intros Hi; unfold substr.
  destruct (slen f <? i) eqn:E; [apply Z.ltb_lt in E; lia |].
  rewrite Z.min_id; unfold drop; apply f_equal.
  apply firstn_all2; rewrite length_skipn; unfold slen; lia.
Qed.

Lemma substr_beyond (f : str) (i n : Z) :
  slen f < i -> substr f i n = Throw out_of_range.
Proof.
  intros Hi; unfold substr.
  destruct (slen f <? i) eqn:E; [reflexivity | apply Z.ltb_ge in E; lia].
Qed.

(** ** Nodes *)

Lemma isLeaf_nonnull_l (l r : handle) : l <> null -> isLeaf l r = false.
Proof. destruct l; [congruence | reflexivity]. Qed.

Lemma copy_node_id (p : handle) : copy_node p = p.
Proof.
  induction p as [| w l IHl r IHr f]; simpl; [reflexivity |].
  rewrite IHl, IHr; reflexivity.
Qed.

Lemma clone_nonnull (p : handle) : p <> null -> clone p = Ret p.
Proof.
  destruct p; [congruence |]; intros _; unfold clone.
  rewrite copy_node_id; reflexivity.
Qed.

Lemma treeToString_internal (w : Z) (l r : handle) (f : str) :
  l <> null ->
  treeToString (node w l r f) = treeToString l ++ treeToString r.
Proof. intros H; simpl; rewrite isLeaf_nonnull_l by exact H; reflexivity. Qed.

Lemma fits_bounds (p : handle) :
  fits p -> 0 <= slen (treeToString p) < SIZE_MOD.
Proof. unfold fits; pose proof (slen_nonneg (treeToString p)); lia. Qed.

Lemma nonempty_nonnull (p : handle) : 0 < slen (treeToString p) -> p <> null.
Proof. destruct p; [simpl; unfold slen; simpl; lia | discriminate]. Qed.

Lemma closed_nonnull (p : handle) : closed p -> p <> null.
Proof. destruct p; [simpl; tauto | discriminate]. Qed.

(** On a node that satisfies the invariant and whose string fits in memory,
    [getLength] is the length of the string. *)
Lemma getLength_wf (p : handle) :
  wf p -> fits p -> getLength p = slen (treeToString p).
Proof.
  induction p as [| w l IHl r IHr f]; intros Hwf Hfit; [reflexivity |].
  unfold fits in *; simpl in *.
  destruct (isLeaf l r) eqn:E; [exact Hwf |].
  destruct Hwf as (Hl & Hf & Hw & Hwl & Hwr).
  rewrite slen_app in *.
  pose proof (slen_nonneg (treeToString l)).
  pose proof (slen_nonneg (treeToString r)).
  rewrite IHr by (auto; lia).
  rewrite wrap_small by lia; lia.
Qed.

(** ** splitAt *)

Lemma wf_leaf (s : str) : wf (leaf s).
Proof. reflexivity. Qed.

Lemma concat_nonnull (l r : handle) :
  l <> null -> concat l r = Ret (node (getLength l) l r []).
Proof. destruct l; [congruence | reflexivity]. Qed.

Lemma wf_concat (l r : handle) :
  l <> null -> wf l -> fits l -> wf r -> wf (node (getLength l) l r []).
Proof.
  intros Hl Hwl Hfl Hwr; simpl; rewrite isLeaf_nonnull_l by exact Hl.
  repeat split; auto.
  apply getLength_wf; assumption.
Qed.

(** [splitAt] on a node that satisfies the invariant, at an index within its
    string: it returns, the left part is present, both parts satisfy the
    invariant and hold the two halves of the string; the right part is
    present unless the split is at the end, and its right spine is closed
    when that of the node is. *)
Lemma splitAt_spec (p : handle) :
  forall i : Z,
    wf p -> fits p -> p <> null -> 0 <= i <= slen (treeToString p) ->
    exists a b,
      splitAt p i = Ret (a, b)
      /\ a <> null /\ wf a /\ wf b
      /\ treeToString a = take i (treeToString p)
      /\ treeToString b = drop i (treeToString p)
      /\ (i < slen (treeToString p) -> b <> null)
      /\ (closed p -> closed b).
Proof.
  induction p as [| w l IHl r IHr f]; intros i Hwf Hfit Hnn Hi; [congruence |].
  pose proof (fits_bounds _ Hfit) as Hb.
  simpl in Hwf, Hi, Hb |- *.
  destruct (isLeaf l r) eqn:E.
  - (* leaf *)
    subst w.
    rewrite substr_prefix by lia; simpl.
    rewrite wrap_small by (unfold SIZE_MOD in *; lia).
    rewrite substr_suffix by lia; simpl.
    exists (leaf (take i f)), (leaf (drop i f)).
    repeat split; try discriminate; auto.
  - destruct Hwf as (Hl & Hf & Hw & Hwl & Hwr).
    rewrite slen_app in Hi, Hb.
    pose proof (slen_nonneg (treeToString l)) as Hl0.
    pose proof (slen_nonneg (treeToString r)) as Hr0.
    assert (Hfl : fits l) by (unfold fits; lia).
    assert (Hfr : fits r) by (unfold fits; lia).
    destruct (i <? w) eqn:Elt; [apply Z.ltb_lt in Elt | apply Z.ltb_ge in Elt].
    + (* the split point lies in the left subtree *)
      destruct (IHl i Hwl Hfl Hl ltac:(lia))
        as (ll & lr & Hs & Hlln & Hwll & Hwlr & Hsl & Hsr & Hlrn & _).
      rewrite Hs; simpl.
      specialize (Hlrn ltac:(lia)).
      assert (Hlen : slen (treeToString lr) = w - i)
        by (rewrite Hsr, slen_drop by lia; lia).
      assert (Hflr : fits lr) by (unfold fits; lia).
      rewrite concat_nonnull by exact Hlrn; simpl.
      eexists; eexists; split; [reflexivity |].
      split; [discriminate |].
      split.
      { simpl; rewrite isLeaf_nonnull_l by exact Hlln.
        repeat split; auto.
        rewrite Hsl, slen_take by lia; reflexivity. }
      split; [apply wf_concat; assumption |].
      split.
      { rewrite treeToString_internal by exact Hlln.
        rewrite Hsl; simpl treeToString.
        rewrite app_nil_r, take_app_l by lia; reflexivity. }
      split.
      { rewrite treeToString_internal by exact Hlrn.
        rewrite Hsr, drop_app_l by lia; reflexivity. }
      split; [intros _; discriminate |].
      simpl; rewrite isLeaf_nonnull_l by exact Hlrn; auto.
    + destruct (w <? i) eqn:Egt; [apply Z.ltb_lt in Egt | apply Z.ltb_ge in Egt].
      * (* the split point lies in the right subtree *)
        assert (Hrn : r <> null) by (apply nonempty_nonnull; lia).
        rewrite wrap_small by (unfold SIZE_MOD in *; lia).
        destruct (IHr (i - w) Hwr Hfr Hrn ltac:(lia))
          as (rl & rr & Hs & Hrln & Hwrl & Hwrr & Hsl & Hsr & Hrrn & Hcl).
        rewrite Hs; simpl.
        eexists; eexists; split; [reflexivity |].
        split; [discriminate |].
        split.
        { simpl; rewrite isLeaf_nonnull_l by exact Hl. repeat split; auto. }
        split; [exact Hwrr |].
        split.
        { rewrite treeToString_internal by exact Hl.
          rewrite Hsl, take_app_r by lia. subst w; reflexivity. }
        split.
        { rewrite Hsr, drop_app_r by lia. subst w; reflexivity. }
        split; [intros Hlt; rewrite slen_app in Hlt; apply Hrrn; lia | exact Hcl].
      * (* a clean cut between the children *)
        assert (i = w) by lia; subst i.
        exists l, r; split; [reflexivity |].
        split; [exact Hl |].
        split; [exact Hwl |].
        split; [exact Hwr |].
        split; [rewrite take_app_r, Hw, Z.sub_diag, take_0, app_nil_r by lia;
                reflexivity |].
        split; [rewrite drop_app_r, Hw, Z.sub_diag, drop_0 by lia; reflexivity |].
        split; [intros Hlt; rewrite slen_app in Hlt; apply nonempty_nonnull; lia
               | auto].
Qed.

(** Beyond the end of a closed tree [splitAt] reaches a leaf whose fragment is
    shorter than the index, and [substr] throws. *)
Lemma splitAt_beyond (p : handle) :
  forall i : Z,
    wf p -> fits p -> closed p -> slen (treeToString p) < i < SIZE_MOD ->
    splitAt p i = Throw out_of_range.
Proof.
  induction p as [| w l IHl r IHr f]; intros i Hwf Hfit Hcl Hi;
    [simpl in Hcl; tauto |].
  pose proof (fits_bounds _ Hfit) as Hb.
  simpl in Hwf, Hi, Hb, Hcl |- *.
  destruct (isLeaf l r) eqn:E.
  - subst w.
    rewrite substr_prefix by lia; simpl.
    rewrite substr_beyond by lia; reflexivity.
  - destruct Hwf as (Hl & Hf & Hw & Hwl & Hwr).
    rewrite slen_app in Hi, Hb.
    pose proof (slen_nonneg (treeToString l)) as Hl0.
    pose proof (slen_nonneg (treeToString r)) as Hr0.
    destruct (i <? w) eqn:Elt; [apply Z.ltb_lt in Elt; lia |].
    destruct (w <? i) eqn:Egt; [| apply Z.ltb_ge in Egt; lia].
    rewrite wrap_small by lia.
    rewrite IHr; [reflexivity | assumption | unfold fits; lia | assumption | lia].
Qed.

(** ** getCharByIndex *)

Lemma char_at_inside (f : str) (i : Z) :
  0 <= i < slen f ->
  exists c, char_at f i = Ret c /\ nth_error f (Z.to_nat i) = Some c.
Proof.
  intros Hi; unfold char_at.
  destruct (i <? slen f) eqn:E; [| apply Z.ltb_ge in E; lia].
  destruct (nth_error f (Z.to_nat i)) as [c |] eqn:En.
  - exists c; auto.
  - apply nth_error_None in En; unfold slen in Hi; lia.
Qed.

(** Inside the string the index is found, whether or not right children are
    absent further down. *)
Lemma getCharByIndex_inside (p : handle) :
  forall i : Z,
    wf p -> fits p -> 0 <= i < slen (treeToString p) ->
    exists c,
      getCharByIndex p i = Ret c
      /\ nth_error (treeToString p) (Z.to_nat i) = Some c.
Proof.
  induction p as [| w l IHl r IHr f]; intros i Hwf Hfit Hi;
    [simpl in Hi; unfold slen in Hi; simpl in Hi; lia |].
  pose proof (fits_bounds _ Hfit) as Hb.
  simpl in Hwf, Hi, Hb |- *.
  destruct (isLeaf l r) eqn:E.
  - subst w.
    destruct (slen f <=? i) eqn:Ele; [apply Z.leb_le in Ele; lia |].
    apply char_at_inside; lia.
  - destruct Hwf as (Hl & Hf & Hw & Hwl & Hwr).
    rewrite slen_app in Hi, Hb.
    pose proof (slen_nonneg (treeToString l)) as Hl0.
    pose proof (slen_nonneg (treeToString r)) as Hr0.
    destruct (i <? w) eqn:Elt; [apply Z.ltb_lt in Elt | apply Z.ltb_ge in Elt].
    + destruct (IHl i Hwl ltac:(unfold fits; lia) ltac:(lia)) as (c & Hc & Hn).
      exists c; split; [exact Hc |].
      rewrite nth_error_app1 by (unfold slen in *; lia); exact Hn.
    + rewrite wrap_small by lia.
      destruct (IHr (i - w) Hwr ltac:(unfold fits; lia) ltac:(lia))
        as (c & Hc & Hn).
      exists c; split; [exact Hc |].
      rewrite nth_error_app2 by (unfold slen in *; lia).
      rewrite <- Hn; f_equal; unfold slen in *; lia.
Qed.

(** At or beyond the end of a closed tree the last leaf throws. *)
Lemma getCharByIndex_beyond (p : handle) :
  forall i : Z,
    wf p -> fits p -> closed p -> slen (treeToString p) <= i < SIZE_MOD ->
    getCharByIndex p i = Throw invalid_argument.
Proof.
  induction p as [| w l IHl r IHr f]; intros i Hwf Hfit Hcl Hi;
    [simpl in Hcl; tauto |].
  pose proof (fits_bounds _ Hfit) as Hb.
  simpl in Hwf, Hi, Hb, Hcl |- *.
  destruct (isLeaf l r) eqn:E.
  - subst w.
    destruct (slen f <=? i) eqn:Ele; [reflexivity | apply Z.leb_gt in Ele; lia].
  - destruct Hwf as (Hl & Hf & Hw & Hwl & Hwr).
    rewrite slen_app in Hi, Hb.
    pose proof (slen_nonneg (treeToString l)) as Hl0.
    pose proof (slen_nonneg (treeToString r)) as Hr0.
    destruct (i <? w) eqn:Elt; [apply Z.ltb_lt in Elt; lia |].
    rewrite wrap_small by lia.
    apply IHr; [assumption | unfold fits; lia | assumption | lia].
Qed.

(** ** The rope facade *)

Lemma toString_root (r : rope) : toString r = treeToString (root_ r).
Proof. unfold toString; destruct (root_ r); reflexivity. Qed.

Lemma length_root (r : rope) : length r = getLength (root_ r).
Proof. unfold length; destruct (root_ r); reflexivity. Qed.

Lemma rope_rep_nonnull (r : rope) : rope_rep r -> root_ r <> null.
Proof. intros (_ & Hc & _); apply closed_nonnull; exact Hc. Qed.

Lemma length_rep (r : rope) : rope_rep r -> length r = slen (toString r).
Proof.
  intros (Hwf & _ & Hfit).
  rewrite length_root, toString_root; apply getLength_wf; assumption.
Qed.

Lemma rope_copy_nonnull (x : rope) :
  root_ x <> null -> rope_copy x = Ret x.
Proof.
  intros H; unfold rope_copy; rewrite clone_nonnull by exact H; simpl.
  rewrite copy_node_id; destruct x; reflexivity.
Qed.

(** What [insert] does on a rope that satisfies the invariant. *)
Lemma insert_inside (r x : rope) (i : Z) :
  rope_rep r -> root_ x <> null -> 0 <= i <= length r ->
  exists a b,
    splitAt (root_ r) i = Ret (a, b)
    /\ a <> null /\ wf a /\ wf b /\ closed b
    /\ treeToString a = take i (toString r)
    /\ treeToString b = drop i (toString r)
    /\ insert r i x =
       Done (mkRope (node (getLength (node (getLength a) a (root_ x) []))
                          (node (getLength a) a (root_ x) []) b [])).
Proof.
  intros Hrep Hx Hi.
  pose proof (length_rep _ Hrep) as Hlen.
  pose proof (rope_rep_nonnull _ Hrep) as Hnn.
  destruct Hrep as (Hwf & Hcl & Hfit).
  rewrite Hlen, toString_root in Hi.
  destruct (splitAt_spec _ _ Hwf Hfit Hnn Hi)
    as (a & b & Hs & Han & Hwa & Hwb & Hsa & Hsb & _ & Hcb).
  exists a, b.
  rewrite !toString_root.
  repeat (split; [solve [auto] |]).
  unfold insert.
  destruct (length r <? i) eqn:E;
    [apply Z.ltb_lt in E; rewrite Hlen, toString_root in E; lia |].
  rewrite rope_copy_nonnull by exact Hx.
  rewrite Hs; simpl.
  rewrite concat_nonnull by exact Han; simpl.
  reflexivity.
Qed.

Lemma insert_outside (r x : rope) (i : Z) :
  length r < i -> insert r i x = Raised invalid_argument r.
Proof.
  intros Hi; unfold insert.
  destruct (length r <? i) eqn:E; [reflexivity | apply Z.ltb_ge in E; lia].
Qed.

Lemma insert_toString (r x : rope) (i : Z) :
  rope_rep r -> root_ x <> null -> 0 <= i <= length r ->
  exists r',
    insert r i x = Done r'
    /\ toString r' = take i (toString r) ++ toString x ++ drop i (toString r).
Proof.
  intros Hrep Hx Hi.
  destruct (insert_inside _ _ _ Hrep Hx Hi)
    as (a & b & _ & Han & _ & _ & _ & Hsa & Hsb & Hins).
  eexists; split; [exact Hins |].
  rewrite toString_root; simpl root_.
  rewrite treeToString_internal by discriminate.
  rewrite treeToString_internal by exact Han.
  rewrite Hsa, Hsb, (toString_root x), <- app_assoc; reflexivity.
Qed.

Lemma append_str_nonnull (r : rope) (s : str) :
  root_ r <> null ->
  append_str r s =
  Done (mkRope (node (getLength (root_ r)) (root_ r) (leaf s) [])).
Proof.
  intros H; unfold append_str; simpl root_.
  rewrite concat_nonnull by exact H; reflexivity.
Qed.

Lemma append_nonnull (r x : rope) :
  root_ r <> null -> root_ x <> null ->
  append r x =
  Done (mkRope (node (getLength (root_ r)) (root_ r) (root_ x) [])).
Proof.
  intros H Hx; unfold append.
  rewrite rope_copy_nonnull by exact Hx.
  rewrite concat_nonnull by exact H; reflexivity.
Qed.

(** [append] puts the argument behind the string of the rope. *)
Lemma append_toString (r x : rope) (s : str) :
  root_ r <> null -> root_ x <> null ->
  (exists r', append r x = Done r' /\ toString r' = toString r ++ toString x)
  /\ (exists r', append_str r s = Done r' /\ toString r' = toString r ++ s).
Proof.
  intros Hr Hx; split; eexists;
    (split; [first [apply append_nonnull; assumption
                   | apply append_str_nonnull; assumption] |]);
    rewrite !toString_root; simpl root_;
    rewrite treeToString_internal by exact Hr; reflexivity.
Qed.

Lemma range_accepted (n start len : Z) :
  0 <= start -> 0 <= len -> start + len <= n -> n < SIZE_MOD ->
  range_rejected n start len = false.
Proof.
  intros Hs Hl Hsum Hn; unfold range_rejected.
  rewrite wrap_small by lia.
  apply orb_false_iff; split; apply Z.ltb_ge; lia.
Qed.

(** The sum wraps around and the test lets the call through. *)
Lemma range_accepted_wrapped (n start len : Z) :
  is_size start -> is_size len -> start <= n -> SIZE_MOD <= start + len ->
  range_rejected n start len = false.
Proof.
  unfold is_size; intros Hs Hl Hsn Hsum; unfold range_rejected, wrap.
  assert (Hw : (start + len) mod SIZE_MOD = start + len - SIZE_MOD).
  { symmetry; apply Z.mod_unique with (q := 1); lia. }
  rewrite Hw.
  apply orb_false_iff; split; apply Z.ltb_ge; lia.
Qed.

Lemma range_rejected_beyond (n start len : Z) :
  is_size start -> is_size len -> 0 <= n ->
  start + len < SIZE_MOD -> n < start + len ->
  range_rejected n start len = true.
Proof.
  unfold is_size; intros Hs Hl Hn Hsum Hlt; unfold range_rejected.
  rewrite wrap_small by lia.
  apply orb_true_iff; right; apply Z.ltb_lt; lia.
Qed.

Lemma range_rejected_start (n start len : Z) :
  n < start -> range_rejected n start len = true.
Proof.
  intros H; unfold range_rejected.
  apply orb_true_iff; left; apply Z.ltb_lt; lia.
Qed.

(** What [rdelete] does on a rope that satisfies the invariant, for a range
    within the string. *)
Lemma rdelete_inside (r : rope) (start len : Z) :
  rope_rep r -> 0 <= start -> 0 <= len -> start + len <= length r ->
  exists a b,
    a <> null /\ wf a /\ wf b /\ closed b
    /\ treeToString a = take start (toString r)
    /\ treeToString b = drop (start + len) (toString r)
    /\ rdelete r start len = Done (mkRope (node (getLength a) a b [])).
Proof.
  intros Hrep Hs Hl Hsum.
  pose proof (length_rep _ Hrep) as Hlen.
  pose proof (rope_rep_nonnull _ Hrep) as Hnn.
  destruct Hrep as (Hwf & Hcl & Hfit).
  pose proof (fits_bounds _ Hfit) as Hb.
  rewrite toString_root in *.
  destruct (splitAt_spec _ start Hwf Hfit Hnn ltac:(lia))
    as (a & m & Hs1 & Han & Hwa & Hwm & Hsa & Hsm & _ & Hcm).
  specialize (Hcm Hcl).
  assert (Hml : slen (treeToString m) = slen (treeToString (root_ r)) - start)
    by (rewrite Hsm; apply slen_drop; lia).
  destruct (splitAt_spec m len Hwm ltac:(unfold fits; lia)
              (closed_nonnull _ Hcm) ltac:(lia))
    as (d & b & Hs2 & _ & _ & Hwb & _ & Hsb & _ & Hcb).
  exists a, b.
  repeat (split; [solve [auto] |]).
  split; [rewrite Hsb, Hsm; apply drop_drop; lia |].
  unfold rdelete.
  rewrite range_accepted by lia.
  rewrite Hs1; simpl.
  rewrite Hs2; simpl.
  rewrite concat_nonnull by exact Han; reflexivity.
Qed.

(** When [start + len] wraps around, the second split runs off the end of
    the tree: [substr] throws while the root has been moved out. *)
Lemma rdelete_wrapped (r : rope) (start len : Z) :
  rope_rep r -> is_size start -> is_size len ->
  start <= length r -> SIZE_MOD <= start + len ->
  rdelete r start len = Raised out_of_range (mkRope null).
Proof.
  intros Hrep Hs Hl Hsn Hsum.
  pose proof (length_rep _ Hrep) as Hlen.
  pose proof (rope_rep_nonnull _ Hrep) as Hnn.
  destruct Hrep as (Hwf & Hcl & Hfit).
  pose proof (fits_bounds _ Hfit) as Hb.
  rewrite toString_root in *.
  unfold is_size in *.
  destruct (splitAt_spec _ start Hwf Hfit Hnn ltac:(lia))
    as (a & m & Hs1 & Han & Hwa & Hwm & Hsa & Hsm & _ & Hcm).
  specialize (Hcm Hcl).
  assert (Hml : slen (treeToString m) = slen (treeToString (root_ r)) - start)
    by (rewrite Hsm; apply slen_drop; lia).
  unfold rdelete.
  rewrite range_accepted_wrapped by (unfold is_size; lia).
  rewrite Hs1; simpl.
  rewrite (splitAt_beyond m len Hwm ltac:(unfold fits; lia) Hcm ltac:(lia)).
  reflexivity.
Qed.

Lemma rdelete_rejected (r : rope) (start len : Z) :
  range_rejected (length r) start len = true ->
  rdelete r start len = Raised invalid_argument r.
Proof. intros H; unfold rdelete; rewrite H; reflexivity. Qed.

(** Without wrap-around the bounds test does what it is meant to do: a
    range that ends beyond the string is refused and the rope is left as it
    was. *)
Lemma range_beyond_rejected (r : rope) (start len : Z) :
  root_ r = null \/ rope_rep r -> is_size start -> is_size len ->
  length r < start \/ (start + len < SIZE_MOD /\ length r < start + len) ->
  substring r start len = Throw invalid_argument
  /\ rdelete r start len = Raised invalid_argument r.
Proof.
  intros Hr Hs Hl Hout.
  assert (H0 : 0 <= length r).
  { destruct Hr as [Hn | Hrep]; [unfold length; rewrite Hn; lia |].
    rewrite (length_rep _ Hrep); apply slen_nonneg. }
  assert (Hrej : range_rejected (length r) start len = true).
  { destruct Hout as [Hlt | (Hsum & Hlt)];
      [apply range_rejected_start | apply range_rejected_beyond]; auto. }
  split; [unfold substring; rewrite Hrej; reflexivity |].
  apply rdelete_rejected; exact Hrej.
Qed.

(** ** splitAt, at, insert and delete *)

(** C8.  [splitAt(n, i)] with [0 <= i <= length(n)] returns a pair whose left
    part holds the first [i] bytes of the string of [n] and whose right part
    holds the rest, so that the two strings concatenate to the string of
    [n]. *)
Theorem splitAt_correct (n : handle) (i : Z) :
  n <> null -> wf n -> fits n -> 0 <= i <= getLength n ->
  exists left_part right_part,
    splitAt n i = Ret (left_part, right_part)
    /\ treeToString left_part = take i (treeToString n)
    /\ treeToString right_part = drop i (treeToString n)
    /\ treeToString left_part ++ treeToString right_part = treeToString n.
Proof.
  intros Hnn Hwf Hfit Hi.
  rewrite getLength_wf in Hi by assumption.
  destruct (splitAt_spec n i Hwf Hfit Hnn Hi)
    as (a & b & Hs & _ & _ & _ & Hsa & Hsb & _).
  exists a, b; repeat split; auto.
  rewrite Hsa, Hsb; apply take_drop.
Qed.

(** C9.  [at(r, i)] returns byte [i] of [to_string(r)] for [i < length(r)]
    and throws the out-of-bounds error for every [i >= length(r)], also on a
    rope whose root is absent. *)
Theorem at_correct (r : rope) (i : Z) :
  root_ r = null \/ rope_rep r -> is_size i ->
  (i < length r ->
   exists c, at_ r i = Ret c /\ nth_error (toString r) (Z.to_nat i) = Some c)
  /\ (length r <= i -> at_ r i = Throw invalid_argument).
Proof.
  intros [Hnull | Hrep] Hi.
  - unfold length, at_; rewrite Hnull; unfold is_size in Hi.
    split; [intros; lia | reflexivity].
  - pose proof (length_rep _ Hrep) as Hlen.
    pose proof (rope_rep_nonnull _ Hrep) as Hnn.
    destruct Hrep as (Hwf & Hcl & Hfit).
    unfold is_size in Hi.
    assert (Hat : at_ r i = getCharByIndex (root_ r) i)
      by (unfold at_; destruct (root_ r); [congruence | reflexivity]).
    rewrite Hat, Hlen, toString_root.
    split; intros H.
    + apply getCharByIndex_inside; [assumption | assumption | lia].
    + apply getCharByIndex_beyond; [assumption | assumption | assumption | lia].
Qed.

(** On a rope that satisfies the representation invariant, [insert(i, x)]
    with [i <= length] leaves
    [to_string(r)[0:i] + to_string(x) + to_string(r)[i:]] in the rope, for a
    rope [x] that has a root and for a string; with [i > length] it throws
    the out-of-bounds error and leaves the rope as it was. *)
Theorem insert_correct (r x : rope) (s : str) (i : Z) :
  rope_rep r -> root_ x <> null -> is_size i ->
  (i <= length r ->
   (exists r', insert r i x = Done r'
      /\ toString r' = take i (toString r) ++ toString x ++ drop i (toString r))
   /\ (exists r', insert_str r i s = Done r'
      /\ toString r' = take i (toString r) ++ s ++ drop i (toString r)))
  /\ (length r < i ->
      insert r i x = Raised invalid_argument r
      /\ insert_str r i s = Raised invalid_argument r).
Proof.
  intros Hrep Hx Hi; unfold is_size in Hi; split; intros H.
  - split; [apply insert_toString; auto; lia |].
    unfold insert_str.
    destruct (insert_toString r (rope_of_string s) i Hrep) as (r' & Hr' & Hs');
      [discriminate | lia |].
    exists r'; split; [exact Hr' | exact Hs'].
  - unfold insert_str; split; apply insert_outside; exact H.
Qed.

(** What [rdelete] leaves of the string of a rope that satisfies the
    invariant. *)
Lemma rdelete_toString (r : rope) (start len : Z) :
  rope_rep r -> 0 <= start -> 0 <= len -> start + len <= length r ->
  exists r',
    rdelete r start len = Done r'
    /\ toString r' = take start (toString r) ++ drop (start + len) (toString r).
Proof.
  intros Hrep Hs Hl Hsum.
  destruct (rdelete_inside r start len Hrep Hs Hl Hsum)
    as (a & b & Han & _ & _ & _ & Hsa & Hsb & Hdel).
  exists (mkRope (node (getLength a) a b [])); split; [exact Hdel |].
  rewrite toString_root; simpl root_.
  rewrite treeToString_internal by exact Han.
  rewrite Hsa, Hsb; reflexivity.
Qed.

(** On a rope that satisfies the representation invariant, [rdelete(s, l)]
    with [s + l <= length] leaves [to_string(r)[0:s] + to_string(r)[s+l:]]
    in the rope. *)
Theorem rdelete_correct (r : rope) (start len : Z) :
  rope_rep r -> 0 <= start -> 0 <= len -> start + len <= length r ->
  exists r',
    rdelete r start len = Done r'
    /\ toString r' = take start (toString r) ++ drop (start + len) (toString r).
Proof.
  intros Hrep Hs Hl Hsum.
  destruct (rdelete_inside r start len Hrep Hs Hl Hsum)
    as (a & b & Han & _ & _ & _ & Hsa & Hsb & Hdel).
  eexists; split; [exact Hdel |].
  rewrite toString_root; simpl root_.
  rewrite treeToString_internal by exact Han.
  rewrite Hsa, Hsb; reflexivity.
Qed.

(** ** Trees assembled by balance *)

Lemma built_nonnull (p : handle) : built p -> p <> null.
Proof. destruct p; [simpl; tauto | discriminate]. Qed.

Lemma built_wf_closed (p : handle) : built p -> fits p -> wf p /\ closed p.
Proof.
  induction p as [| w l IHl r IHr f]; intros Hb Hfit; [simpl in Hb; tauto |].
  pose proof (fits_bounds _ Hfit) as Hbd.
  simpl in Hb, Hbd |- *.
  destruct (isLeaf l r) eqn:E; [auto |].
  destruct Hb as (Hbl & Hbr & Hf & Hw).
  rewrite slen_app in Hbd.
  pose proof (slen_nonneg (treeToString l)) as Hl0.
  pose proof (slen_nonneg (treeToString r)) as Hr0.
  destruct (IHl Hbl ltac:(unfold fits; lia)) as (Hwl & _).
  destruct (IHr Hbr ltac:(unfold fits; lia)) as (Hwr & Hcr).
  repeat split; auto.
  - apply built_nonnull; exact Hbl.
  - rewrite Hw; apply getLength_wf; [exact Hwl | unfold fits; lia].
Qed.

Lemma leaves_built (p : handle) : wf p -> Forall built (getLeaves p).
Proof.
  induction p as [| w l IHl r IHr f]; intros Hwf; [constructor |].
  simpl in Hwf |- *.
  destruct (isLeaf l r) eqn:E.
  - constructor; [simpl; rewrite E; exact Hwf | constructor].
  - destruct Hwf as (_ & _ & _ & Hwl & Hwr).
    apply Forall_app; auto.
Qed.

Lemma concat_built (l r c : handle) :
  built l -> built r -> concat l r = Ret c -> built c.
Proof.
  intros Hl Hr Hc.
  rewrite concat_nonnull in Hc by (apply built_nonnull; exact Hl).
  injection Hc as <-.
  simpl; rewrite isLeaf_nonnull_l by (apply built_nonnull; exact Hl).
  auto.
Qed.

Lemma vec_get_Forall (A : Type) (P : A -> Prop) (v : list A) (i : Z) (x : A) :
  Forall P v -> vec_get v i = Ret x -> P x.
Proof.
  intros HP; unfold vec_get.
  destruct (i <? Z.of_nat (List.length v)); [| discriminate].
  destruct (nth_error v (Z.to_nat i)) as [y |] eqn:E; [| discriminate].
  intros H; injection H as <-.
  rewrite Forall_forall in HP; apply HP.
  eapply nth_error_In; exact E.
Qed.

Lemma vec_set_nat_Forall (A : Type) (P : A -> Prop) (v : list A) :
  forall (i : nat) (x : A), Forall P v -> P x -> Forall P (vec_set_nat v i x).
Proof.
  induction v as [| y v IH]; intros i x Hv Hx; [constructor |].
  inversion Hv; subst.
  destruct i; simpl; constructor; auto.
Qed.

Lemma vec_set_Forall (A : Type) (P : A -> Prop) (v : list A) (i : Z) (x : A) :
  Forall P v -> P x -> Forall P (vec_set v i x).
Proof. apply vec_set_nat_Forall. Qed.

Lemma slot_ok_null : slot_ok null.
Proof. left; reflexivity. Qed.

Lemma slot_ok_built (p : handle) : slot_ok p -> is_null p = false -> built p.
Proof. intros [-> | H] E; [discriminate | exact H]. Qed.

Lemma absorb_ok (intervals : list Z) (nodes nodes' : list handle)
  (slot acc acc' : handle) (i len' : Z) :
  Forall slot_ok nodes -> built slot -> built acc ->
  absorb intervals nodes slot acc i = Ret (nodes', acc', len') ->
  Forall slot_ok nodes' /\ built acc'.
Proof.
  intros Hn Hs Ha H; unfold absorb in H.
  rewrite !clone_nonnull in H by (apply built_nonnull; assumption).
  simpl in H.
  inv_bind H as acc2 Hacc2.
  pose proof (concat_built _ _ _ Hs Ha Hacc2) as Hb.
  simpl in H; inv_bind H as bound Hbound.
  injection H as <- <- _.
  split; [| exact Hb].
  destruct (bound <=? getLength acc2); [| exact Hn].
  apply vec_set_Forall; [exact Hn | apply slot_ok_null].
Qed.

Lemma find_slot_ok (intervals : list Z) (max_i : Z) (fuel : nat) :
  forall (nodes : list handle) (acc : handle) (len i : Z)
         (nodes' : list handle) (acc' : handle) (len' i' : Z),
    Forall slot_ok nodes -> built acc ->
    find_slot fuel intervals max_i nodes acc len i = Ret (nodes', acc', len', i') ->
    Forall slot_ok nodes' /\ built acc'.
Proof.
  induction fuel as [| fuel IH]; intros nodes acc len i nodes' acc' len' i' Hn Ha H;
    [discriminate |].
  simpl in H.
  destruct (i <? max_i); [| injection H as <- <- _ _; auto].
  inv_bind H as bound Hbound.
  destruct (bound <=? len); [| injection H as <- <- _ _; auto].
  inv_bind H as slot Hget.
  pose proof (vec_get_Forall _ _ _ _ _ Hn Hget) as Hslot.
  destruct (is_null slot) eqn:E.
  - eapply IH; eauto.
  - inv_bind H as res Habs. destruct res as [[n1 a1] l1].
    destruct (absorb_ok _ _ _ _ _ _ _ _ Hn (slot_ok_built _ Hslot E) Ha Habs).
    eapply IH; eauto.
Qed.

Lemma place_ok (intervals : list Z) (max_i : Z) (fuel : nat) :
  forall (nodes : list handle) (acc : handle) (len i cm : Z)
         (nodes' : list handle) (cm' : Z),
    Forall slot_ok nodes -> built acc ->
    place fuel intervals max_i nodes acc len i cm = Ret (nodes', cm') ->
    Forall slot_ok nodes'.
Proof.
  induction fuel as [| fuel IH]; intros nodes acc len i cm nodes' cm' Hn Ha H;
    [discriminate |].
  cbn [place] in H.
  inv_bind H as res Hfind. destruct res as [[[n1 a1] l1] i1].
  destruct (find_slot_ok _ _ _ _ _ _ _ _ _ _ _ Hn Ha Hfind) as (Hn1 & Hb1).
  inv_bind H as slot Hget.
  pose proof (vec_get_Forall _ _ _ _ _ Hn1 Hget) as Hslot.
  destruct (is_null slot) eqn:E.
  - injection H as <- _.
    apply vec_set_Forall; [exact Hn1 | right; exact Hb1].
  - inv_bind H as res Habs. destruct res as [[n2 a2] l2].
    destruct (absorb_ok _ _ _ _ _ _ _ _ Hn1 (slot_ok_built _ Hslot E) Hb1 Habs).
    eapply IH; eauto.
Qed.

Lemma insert_leaves_ok (intervals : list Z) (max_i : Z) (fuel : nat)
  (leaves : list handle) :
  forall (nodes : list handle) (cm : Z) (nodes' : list handle) (cm' : Z),
    Forall built leaves -> Forall slot_ok nodes ->
    insert_leaves fuel intervals max_i leaves nodes cm = Ret (nodes', cm') ->
    Forall slot_ok nodes'.
Proof.
  induction leaves as [| lf rest IH]; intros nodes cm nodes' cm' Hl Hn H.
  - injection H as <- _; exact Hn.
  - inversion Hl as [| ? ? Hlf Hrest]; subst.
    cbn [insert_leaves] in H.
    destruct (0 <? getLength lf); [| eapply IH; eauto].
    rewrite clone_nonnull in H by (apply built_nonnull; exact Hlf).
    simpl in H; inv_bind H as res Hplace. destruct res as [n1 c1].
    eapply IH; [exact Hrest | | exact H].
    eapply place_ok; eauto.
Qed.

Lemma gather_step_ok (slot acc acc' : handle) :
  slot_ok slot -> slot_ok acc ->
  (if is_null slot then Ret acc else tmp <- clone slot ;; concat acc tmp)
  = Ret acc' ->
  slot_ok acc'.
Proof.
  intros Hs Ha H.
  destruct (is_null slot) eqn:E; [injection H as <-; exact Ha |].
  pose proof (slot_ok_built _ Hs E) as Hb.
  rewrite clone_nonnull in H by (apply built_nonnull; exact Hb).
  simpl in H.
  destruct Ha as [-> | Hacc]; [simpl in H; discriminate |].
  right; exact (concat_built _ _ _ Hacc Hb H).
Qed.

Lemma gather_ok (nodes : list handle) (idx : nat) :
  forall acc h : handle,
    Forall slot_ok nodes -> slot_ok acc ->
    gather idx nodes acc = Ret h -> slot_ok h.
Proof.
  induction idx as [| idx IH]; intros acc h Hn Ha H; cbn [gather] in H;
    inv_bind H as slot Hget; inv_bind H as acc1 Hstep;
    pose proof (vec_get_Forall _ _ _ _ _ Hn Hget) as Hslot;
    pose proof (gather_step_ok _ _ _ Hslot Ha Hstep) as Hacc.
  - injection H as <-; exact Hacc.
  - eapply IH; eauto.
Qed.

Lemma repeat_null_ok (n : nat) : Forall slot_ok (repeat null n).
Proof.
  induction n; simpl; constructor; auto using slot_ok_null.
Qed.

(** The root that [balance] installs is absent or a tree assembled from the
    leaves by the concatenating constructor. *)
Lemma rebuild_ok (fuel : nat) (r : rope) (h : handle) :
  wf (root_ r) -> rebuild fuel r = Ret h -> slot_ok h.
Proof.
  intros Hwf H; unfold rebuild in H.
  inv_bind H as intervals Hint; inv_bind H as leaves Hleaves.
  assert (Hl : Forall built leaves).
  { assert (Heq : leaves = getLeaves (root_ r))
      by (destruct (root_ r);
          [discriminate Hleaves | injection Hleaves as Hl'; symmetry; exact Hl']).
    rewrite Heq; apply leaves_built; exact Hwf. }
  inv_bind H as res Hins. destruct res as [nodes1 cm].
  pose proof (insert_leaves_ok _ _ _ _ _ _ _ _ Hl (repeat_null_ok _) Hins) as Hn1.
  inv_bind H as acc Hget.
  pose proof (vec_get_Forall _ _ _ _ _ Hn1 Hget) as Hacc.
  destruct (int_of_size cm <? 0); [injection H as <-; exact Hacc |].
  eapply gather_ok; [| exact Hacc | exact H].
  apply vec_set_Forall; [exact Hn1 | apply slot_ok_null].
Qed.

(** ** balance keeps the string *)

Lemma slots_str_app (l1 l2 : list handle) :
  slots_str (l1 ++ l2) = slots_str l2 ++ slots_str l1.
Proof.
  induction l1 as [| p l1 IH]; simpl; [rewrite app_nil_r; reflexivity |].
  rewrite IH, app_assoc; reflexivity.
Qed.

Lemma slots_str_null (l : list handle) : Forall (eq null) l -> slots_str l = [].
Proof.
  induction 1 as [| p l Hp _ IH]; simpl; [reflexivity |].
  subst p; rewrite IH; reflexivity.
Qed.

Lemma vec_set_nat_split (A : Type) (l1 l2 : list A) (a x : A) :
  vec_set_nat (l1 ++ a :: l2) (List.length l1) x = l1 ++ x :: l2.
Proof. induction l1 as [| y l1 IH]; simpl; [reflexivity | rewrite IH; reflexivity]. Qed.

Lemma vec_get_split (A : Type) (v : list A) (i : Z) (x : A) :
  0 <= i -> vec_get v i = Ret x ->
  exists l1 l2, v = l1 ++ x :: l2 /\ List.length l1 = Z.to_nat i.
Proof.
  intros Hi H; unfold vec_get in H.
  destruct (i <? Z.of_nat (List.length v)); [| discriminate H].
  destruct (nth_error v (Z.to_nat i)) as [y |] eqn:E; [| discriminate H].
  injection H as <-; apply nth_error_split; exact E.
Qed.

Lemma vec_get_bound (A : Type) (v : list A) (i : Z) (x : A) :
  vec_get v i = Ret x -> i < Z.of_nat (List.length v).
Proof.
  unfold vec_get; destruct (i <? Z.of_nat (List.length v)) eqn:E;
    [intros _; apply Z.ltb_lt; exact E | discriminate].
Qed.

Lemma vec_get_nth (A : Type) (v : list A) (i : Z) (x : A) :
  vec_get v i = Ret x -> nth_error v (Z.to_nat i) = Some x.
Proof.
  unfold vec_get; destruct (i <? Z.of_nat (List.length v)); [| discriminate].
  destruct (nth_error v (Z.to_nat i)); [congruence | discriminate].
Qed.

Lemma vec_set_nat_length (A : Type) (v : list A) :
  forall (i : nat) (x : A), List.length (vec_set_nat v i x) = List.length v.
Proof.
  induction v as [| y v IH]; intros i x; [reflexivity |].
  destruct i; simpl; [reflexivity | rewrite IH; reflexivity].
Qed.

Lemma nth_error_vec_set_nat (A : Type) (v : list A) :
  forall (i j : nat) (x y : A),
    nth_error (vec_set_nat v i x) j = Some y ->
    (j = i /\ y = x) \/ (j <> i /\ nth_error v j = Some y).
Proof.
  induction v as [| z v IH]; intros i j x y H; [destruct j; discriminate H |].
  destruct i, j; simpl in H.
  - left; split; congruence.
  - right; split; [discriminate | exact H].
  - right; split; [discriminate | exact H].
  - destruct (IH _ _ _ _ H) as [[-> ->] | [Hne Hn]]; [left; auto | right; auto].
Qed.

Lemma skipn_vec_set_nat (A : Type) (P : A -> Prop) (v : list A) :
  forall (i k : nat) (x : A),
    Forall P (skipn k v) -> P x -> Forall P (skipn k (vec_set_nat v i x)).
Proof.
  induction v as [| z v IH]; intros i k x Hv Hx; [destruct k; constructor |].
  destruct k.
  - simpl in *; apply vec_set_nat_Forall with (v := z :: v); assumption.
  - destruct i; simpl in *; [exact Hv | apply IH; assumption].
Qed.

Lemma skipn_vec_set_nat_below (A : Type) (v : list A) :
  forall (i k : nat) (x : A),
    (i < k)%nat -> skipn k (vec_set_nat v i x) = skipn k v.
Proof.
  induction v as [| z v IH]; intros i k x Hik; [destruct k; reflexivity |].
  destruct k; [lia |].
  destruct i; simpl; [reflexivity | apply IH; lia].
Qed.

Lemma Forall_skipn_le (A : Type) (P : A -> Prop) (k k' : nat) (v : list A) :
  (k <= k')%nat -> Forall P (skipn k v) -> Forall P (skipn k' v).
Proof.
  intros Hk H.
  replace k' with ((k' - k) + k)%nat by lia.
  rewrite <- skipn_skipn.
  rewrite Forall_forall in *; intros x Hx; apply H.
  rewrite <- (firstn_skipn (k' - k) (skipn k v)); apply in_or_app; right; exact Hx.
Qed.

Lemma firstn_split_at (A : Type) (l1 l2 : list A) (a : A) :
  firstn (List.length l1) (l1 ++ a :: l2) = l1.
Proof.
  rewrite firstn_app, Nat.sub_diag, firstn_all; simpl; apply app_nil_r.
Qed.

Lemma firstn_S_split_at (A : Type) (l1 l2 : list A) (a : A) :
  firstn (S (List.length l1)) (l1 ++ a :: l2) = l1 ++ [a].
Proof.
  rewrite firstn_app.
  replace (S (List.length l1) - List.length l1)%nat with 1%nat by lia.
  rewrite firstn_all2 by lia; reflexivity.
Qed.

Lemma skipn_S_split_at (A : Type) (l1 l2 : list A) (a : A) :
  skipn (S (List.length l1)) (l1 ++ a :: l2) = l2.
Proof.
  rewrite skipn_app.
  replace (S (List.length l1) - List.length l1)%nat with 1%nat by lia.
  rewrite skipn_all2 by lia; reflexivity.
Qed.

Lemma built_getLength (p : handle) :
  built p -> fits p -> getLength p = slen (treeToString p).
Proof.
  intros Hb Hf; apply getLength_wf; [apply built_wf_closed |]; assumption.
Qed.

Lemma slots_inv_clear (iv : list Z) (nodes : list handle) (i : Z) :
  slots_inv iv nodes -> slots_inv iv (vec_set nodes i null).
Proof.
  intros (Hlen & Hs); split; [unfold vec_set; rewrite vec_set_nat_length; exact Hlen |].
  intros j p Hj Hp.
  destruct (nth_error_vec_set_nat _ _ _ _ _ _ Hj) as [[_ ->] | [_ Hn]];
    [congruence | exact (Hs j p Hn Hp)].
Qed.

Lemma cm_inv_clear (nodes : list handle) (cm i : Z) :
  cm_inv nodes cm -> cm_inv (vec_set nodes i null) cm.
Proof.
  intros (H0 & H); split; [exact H0 |].
  apply skipn_vec_set_nat; [exact H | reflexivity].
Qed.

(** An empty slot is passed over. *)
Lemma loop_inv_advance (iv : list Z) (nodes : list handle) (acc : handle)
  (len i : Z) (pre : str) :
  loop_inv iv nodes acc len i pre ->
  vec_get nodes i = Ret null ->
  (forall a, nth_error iv (Z.to_nat (i + 1)) = Some a -> a <= len) ->
  loop_inv iv nodes acc len (i + 1) pre.
Proof.
  intros (Hs & Hb & Hl & Hi & Hlo & Hiv & Hstr & Hfit) Hget Hnext.
  destruct (vec_get_split _ _ _ _ Hi Hget) as (l1 & l2 & Hnodes & Hl1).
  split; [exact Hs |].
  split; [exact Hb |].
  split; [exact Hl |].
  split; [lia |].
  split; [| split; [exact Hnext | split; [exact Hstr | exact Hfit]]].
  replace (Z.to_nat (i + 1)) with (S (List.length l1)) by lia.
  rewrite Hnodes, <- Hl1, firstn_split_at in Hlo.
  rewrite Hnodes, firstn_S_split_at.
  apply Forall_app; split; [exact Hlo | auto].
Qed.

(** An occupied slot is absorbed into [acc]; when the new length reaches the
    next interval the slot is cleared and the string is kept. *)
Lemma absorb_inv (iv : list Z) (nodes nodes' : list handle)
  (slot acc acc' : handle) (len len' i : Z) (pre : str) :
  loop_inv iv nodes acc len i pre ->
  vec_get nodes i = Ret slot -> is_null slot = false ->
  absorb iv nodes slot acc i = Ret (nodes', acc', len') ->
  (forall bound, vec_get iv (wrap (i + 1)) = Ret bound ->
                 bound <= slen (treeToString slot) + len) ->
  loop_inv iv nodes' acc' len' i pre
  /\ vec_get nodes' i = Ret null
  /\ len <= len'
  /\ forall cm, cm_inv nodes cm -> cm_inv nodes' cm.
Proof.
  intros (Hs & Hb & Hl & Hi & Hlo & Hiv & Hstr & Hfit) Hget Hnn Habs Hclear.
  assert (Hslot : slot <> null) by (destruct slot; [discriminate Hnn | discriminate]).
  destruct (proj2 Hs _ _ (vec_get_nth _ _ _ _ Hget) Hslot) as (Hbs & _).
  destruct (vec_get_split _ _ _ _ Hi Hget) as (l1 & l2 & Hnodes & Hl1).
  assert (Hlo1 : slots_str l1 = []).
  { apply slots_str_null.
    rewrite Hnodes, <- Hl1, firstn_split_at in Hlo; exact Hlo. }
  assert (Hpre : pre = slots_str l2 ++ treeToString slot ++ treeToString acc).
  { rewrite <- Hstr, Hnodes, slots_str_app; simpl.
    rewrite Hlo1, app_nil_r, <- app_assoc; reflexivity. }
  pose proof (slen_nonneg (slots_str l2)) as H2.
  pose proof (slen_nonneg (treeToString slot)) as H3.
  pose proof (slen_nonneg (treeToString acc)) as H4.
  rewrite Hpre, !slen_app in Hfit.
  unfold absorb in Habs.
  rewrite !clone_nonnull in Habs by (apply built_nonnull; assumption).
  cbn [bind] in Habs.
  rewrite concat_nonnull in Habs by exact Hslot.
  cbn [bind] in Habs.
  inv_bind Habs as bound Hbound.
  set (acc2 := node (getLength slot) slot acc []) in *.
  assert (Hb2 : built acc2)
    by (apply (concat_built slot acc); auto; apply concat_nonnull; exact Hslot).
  assert (Hstr2 : treeToString acc2 = treeToString slot ++ treeToString acc)
    by (apply treeToString_internal; exact Hslot).
  assert (Hlen2 : getLength acc2 = slen (treeToString slot) + len).
  { rewrite built_getLength, Hstr2, slen_app; [lia | exact Hb2 |].
    unfold fits; rewrite Hstr2, slen_app; lia. }
  specialize (Hclear bound Hbound).
  rewrite Hlen2 in Habs.
  destruct (bound <=? slen (treeToString slot) + len) eqn:E;
    [| apply Z.leb_gt in E; lia].
  injection Habs as <- <- <-.
  assert (Hset : vec_set nodes i null = l1 ++ null :: l2)
    by (unfold vec_set; rewrite Hnodes, <- Hl1; apply vec_set_nat_split).
  split; [| split; [| split]].
  - split; [apply slots_inv_clear; exact Hs |].
    split; [exact Hb2 |].
    split; [rewrite Hstr2, slen_app; lia |].
    split; [exact Hi |].
    split.
    { rewrite Hset, <- Hl1, firstn_split_at.
      rewrite Hnodes, <- Hl1, firstn_split_at in Hlo; exact Hlo. }
    split; [intros a Ha; specialize (Hiv a Ha); lia |].
    split; [| rewrite Hpre, !slen_app; lia].
    rewrite Hset, slots_str_app, Hstr2, Hpre; simpl.
    rewrite Hlo1, !app_nil_r; reflexivity.
  - rewrite Hset; unfold vec_get.
    rewrite length_app; simpl.
    destruct (i <? Z.of_nat (List.length l1 + S (List.length l2))) eqn:Ei;
      [| apply Z.ltb_ge in Ei; lia].
    rewrite <- Hl1, nth_error_app2, Nat.sub_diag by lia; reflexivity.
  - lia.
  - intros cm Hcm; apply cm_inv_clear; exact Hcm.
Qed.

Lemma find_slot_inv (iv : list Z) (max_i : Z) (pre : str) (fuel : nat) :
  max_i < SIZE_MOD ->
  forall (nodes : list handle) (acc : handle) (len i : Z)
         (nodes' : list handle) (acc' : handle) (len' i' : Z),
    loop_inv iv nodes acc len i pre ->
    find_slot fuel iv max_i nodes acc len i = Ret (nodes', acc', len', i') ->
    loop_inv iv nodes' acc' len' i' pre
    /\ forall cm, cm_inv nodes cm -> cm_inv nodes' cm.
Proof.
  intros Hmax.
  induction fuel as [| fuel IH];
    intros nodes acc len i nodes' acc' len' i' Hinv H; [discriminate H |].
  cbn [find_slot] in H.
  assert (Hi : 0 <= i) by apply Hinv.
  destruct (i <? max_i) eqn:Elt;
    [apply Z.ltb_lt in Elt | injection H as <- <- <- <-; auto].
  rewrite wrap_small in H by lia.
  inv_bind H as bound Hbound.
  destruct (bound <=? len) eqn:Ele;
    [apply Z.leb_le in Ele | injection H as <- <- <- <-; auto].
  inv_bind H as slot Hget.
  assert (Hnext : forall len2, len <= len2 ->
            forall a, nth_error iv (Z.to_nat (i + 1)) = Some a -> a <= len2).
  { intros len2 Hl2 a Ha.
    rewrite (vec_get_nth _ _ _ _ Hbound) in Ha; injection Ha as <-; lia. }
  destruct (is_null slot) eqn:E.
  - assert (slot = null) by (destruct slot; [reflexivity | discriminate E]); subst slot.
    apply (IH _ _ _ _ _ _ _ _
             (loop_inv_advance _ _ _ _ _ _ Hinv Hget (Hnext len ltac:(lia))) H).
  - inv_bind H as res Habs. destruct res as [[nodes1 acc1] len1].
    destruct (absorb_inv _ _ _ _ _ _ _ _ _ _ Hinv Hget E Habs)
      as (Hinv1 & Hnull & Hlen & Hcm).
    { intros bound' Hb'; rewrite wrap_small in Hb' by lia.
      rewrite Hbound in Hb'; injection Hb' as <-.
      pose proof (slen_nonneg (treeToString slot)); lia. }
    destruct (IH _ _ _ _ _ _ _ _
                (loop_inv_advance _ _ _ _ _ _ Hinv1 Hnull (Hnext len1 Hlen)) H)
      as (Hinv2 & Hcm2).
    split; [exact Hinv2 | intros cm Hc; apply Hcm2, Hcm, Hc].
Qed.

Lemma place_inv (iv : list Z) (max_i : Z) (pre : str) (fuel : nat) :
  intervals_ok iv -> max_i < SIZE_MOD ->
  forall (nodes : list handle) (acc : handle) (len i cm : Z)
         (nodes' : list handle) (cm' : Z),
    loop_inv iv nodes acc len i pre -> cm_inv nodes cm ->
    place fuel iv max_i nodes acc len i cm = Ret (nodes', cm') ->
    slots_inv iv nodes' /\ cm_inv nodes' cm' /\ slots_str nodes' = pre.
Proof.
  intros (_ & Hratio & Hivlen) Hmax.
  induction fuel as [| fuel IH];
    intros nodes acc len i cm nodes' cm' Hinv Hcm H; [discriminate H |].
  cbn [place] in H.
  inv_bind H as res Hfind. destruct res as [[[nodes1 acc1] len1] i1].
  destruct (find_slot_inv _ _ _ _ Hmax _ _ _ _ _ _ _ _ Hinv Hfind) as (Hinv1 & Hcm1).
  specialize (Hcm1 cm Hcm).
  inv_bind H as slot Hget.
  pose proof Hinv1 as (Hs & Hb & Hl & Hi & Hlo & Hiv & Hstr & Hfit).
  destruct (vec_get_split _ _ _ _ Hi Hget) as (la & lb & Hnodes & Hla).
  destruct (is_null slot) eqn:E.
  - assert (slot = null) by (destruct slot; [reflexivity | discriminate E]); subst slot.
    injection H as <- <-.
    assert (Hset : vec_set nodes1 i1 acc1 = la ++ acc1 :: lb)
      by (unfold vec_set; rewrite Hnodes, <- Hla; apply vec_set_nat_split).
    assert (Hlo1 : slots_str la = []).
    { apply slots_str_null.
      rewrite Hnodes, <- Hla, firstn_split_at in Hlo; exact Hlo. }
    split; [| split].
    + split; [unfold vec_set; rewrite vec_set_nat_length; apply Hs |].
      intros j p Hj Hp.
      destruct (nth_error_vec_set_nat _ _ _ _ _ _ Hj) as [[-> ->] | [_ Hn]];
        [| exact (proj2 Hs j p Hn Hp)].
      split; [exact Hb | intros a Ha; rewrite <- Hl; apply Hiv; exact Ha].
    + destruct Hcm1 as (Hcm0 & Hhi).
      destruct (cm <? i1) eqn:Ecm;
        [apply Z.ltb_lt in Ecm | apply Z.ltb_ge in Ecm]; split; try lia.
      * rewrite Hset, <- Hla, skipn_S_split_at.
        apply (Forall_skipn_le _ _ (S (Z.to_nat cm)) (S (List.length la))) in Hhi;
          [| lia].
        rewrite Hnodes, skipn_S_split_at in Hhi; exact Hhi.
      * unfold vec_set; rewrite skipn_vec_set_nat_below by lia; exact Hhi.
    + rewrite Hset, slots_str_app; simpl.
      rewrite <- Hstr, Hnodes, slots_str_app; simpl.
      rewrite Hlo1, !app_nil_r; reflexivity.
  - inv_bind H as res Habs. destruct res as [[nodes2 acc2] len2].
    assert (Hslot : slot <> null) by (destruct slot; [discriminate E | discriminate]).
    destruct (absorb_inv _ _ _ _ _ _ _ _ _ _ Hinv1 Hget E Habs)
      as (Hinv2 & _ & _ & Hcm2).
    { intros bound Hbound.
      pose proof (vec_get_bound _ _ _ _ Hget) as Hlt.
      rewrite (proj1 Hs) in Hlt.
      unfold INT_MAX in Hivlen.
      rewrite wrap_small in Hbound by (unfold SIZE_MOD; lia).
      apply vec_get_nth in Hbound.
      replace (Z.to_nat (i1 + 1)) with (S (Z.to_nat i1)) in Hbound by lia.
      destruct (nth_error iv (Z.to_nat i1)) as [a |] eqn:Ea;
        [| apply nth_error_None in Ea; lia].
      destruct (Hratio _ _ _ Ea Hbound) as (_ & H2a).
      pose proof (proj2 (proj2 Hs _ _ (vec_get_nth _ _ _ _ Hget) Hslot) a Ea).
      specialize (Hiv a eq_refl); lia. }
    exact (IH _ _ _ _ _ _ _ Hinv2 (Hcm2 cm Hcm1) H).
Qed.

Lemma insert_leaves_inv (iv : list Z) (max_i : Z) (fuel : nat)
  (leaves : list handle) :
  intervals_ok iv -> max_i < SIZE_MOD ->
  forall (nodes : list handle) (cm : Z) (nodes' : list handle) (cm' : Z),
    slots_inv iv nodes -> cm_inv nodes cm -> Forall built leaves ->
    slen (slots_str nodes ++ List.concat (map treeToString leaves)) < SIZE_MOD ->
    insert_leaves fuel iv max_i leaves nodes cm = Ret (nodes', cm') ->
    slots_inv iv nodes' /\ cm_inv nodes' cm'
    /\ slots_str nodes' = slots_str nodes ++ List.concat (map treeToString leaves).
Proof.
  intros Hiv Hmax.
  induction leaves as [| lf rest IH]; intros nodes cm nodes' cm' Hs Hcm Hl Hfit H.
  - injection H as <- <-; simpl; rewrite app_nil_r; auto.
  - inversion Hl as [| ? ? Hlf Hrest]; subst.
    cbn [insert_leaves] in H.
    simpl map in *; simpl List.concat in *.
    pose proof (slen_nonneg (slots_str nodes)) as H1.
    pose proof (slen_nonneg (treeToString lf)) as H2.
    pose proof (slen_nonneg (List.concat (map treeToString rest))) as H3.
    rewrite !slen_app in Hfit.
    assert (Hlen : getLength lf = slen (treeToString lf))
      by (apply built_getLength; [exact Hlf | unfold fits; lia]).
    rewrite Hlen in H.
    destruct (0 <? slen (treeToString lf)) eqn:E;
      [apply Z.ltb_lt in E | apply Z.ltb_ge in E].
    + rewrite clone_nonnull in H by (apply built_nonnull; exact Hlf).
      cbn [bind] in H.
      inv_bind H as res Hplace. destruct res as [nodes1 cm1].
      assert (Hinv : loop_inv iv nodes lf (slen (treeToString lf)) 0
                       (slots_str nodes ++ treeToString lf)).
      { split; [exact Hs |].
        split; [exact Hlf |].
        split; [reflexivity |].
        split; [lia |].
        split; [simpl; constructor |].
        split; [intros a Ha; rewrite (proj1 Hiv a Ha); lia |].
        split; [reflexivity | rewrite slen_app; lia]. }
      destruct (place_inv _ _ _ _ Hiv Hmax _ _ _ _ _ _ _ Hinv Hcm Hplace)
        as (Hs1 & Hcm1 & Hstr1).
      destruct (IH _ _ _ _ Hs1 Hcm1 Hrest
                  ltac:(rewrite Hstr1, !slen_app; lia) H) as (Hs2 & Hcm2 & Hstr2).
      rewrite Hstr2, Hstr1, <- app_assoc; auto.
    + rewrite (slen_nil_inv _ E); simpl.
      apply (IH nodes cm nodes' cm' Hs Hcm Hrest); [rewrite slen_app; lia | exact H].
Qed.

Lemma leaves_str (p : handle) :
  List.concat (map treeToString (getLeaves p)) = treeToString p.
Proof.
  induction p as [| w l IHl r IHr f]; [reflexivity |].
  cbn [getLeaves treeToString].
  destruct (isLeaf l r) eqn:E.
  - simpl; rewrite E, app_nil_r; reflexivity.
  - rewrite map_app, concat_app, IHl, IHr; reflexivity.
Qed.

Lemma gather_step_str (slot acc acc' : handle) :
  (if is_null slot then Ret acc else tmp <- clone slot ;; concat acc tmp)
  = Ret acc' ->
  treeToString acc' = treeToString acc ++ treeToString slot.
Proof.
  intros H.
  destruct slot as [| w l r f]; cbn [is_null] in H.
  - injection H as <-; simpl; rewrite app_nil_r; reflexivity.
  - rewrite clone_nonnull in H by discriminate; cbn [bind] in H.
    destruct acc as [| w' l' r' f']; [discriminate H |].
    rewrite concat_nonnull in H by discriminate.
    injection H as <-.
    apply treeToString_internal; discriminate.
Qed.

Lemma slots_str_firstn_S (nodes : list handle) (j : nat) (p : handle) :
  nth_error nodes j = Some p ->
  slots_str (firstn (S j) nodes) = treeToString p ++ slots_str (firstn j nodes).
Proof.
  intros H; destruct (nth_error_split _ _ H) as (l1 & l2 & -> & <-).
  rewrite firstn_S_split_at, firstn_split_at, slots_str_app; reflexivity.
Qed.

Lemma gather_str (nodes : list handle) (idx : nat) :
  forall acc h : handle,
    gather idx nodes acc = Ret h ->
    treeToString h = treeToString acc ++ slots_str (firstn (S idx) nodes).
Proof.
  induction idx as [| idx IH]; intros acc h H; cbn [gather] in H;
    inv_bind H as slot Hget; inv_bind H as acc1 Hstep;
    apply gather_step_str in Hstep; apply vec_get_nth in Hget;
    rewrite Nat2Z.id in Hget;
    rewrite (slots_str_firstn_S _ _ _ Hget).
  - injection H as <-; rewrite Hstep; simpl; rewrite app_nil_r; reflexivity.
  - rewrite (IH _ _ H), Hstep, <- app_assoc; reflexivity.
Qed.

Lemma int_add_inv (a b next : Z) :
  int_add a b = Ret next -> next = a + b /\ a + b <= INT_MAX.
Proof.
  unfold int_add; destruct (a + b <=? INT_MAX) eqn:E; [| discriminate].
  apply Z.leb_le in E; intros H; injection H as <-; auto.
Qed.

Lemma fib_state_step (a b : Z) (acc : list Z) :
  fib_state a b acc -> a + b <= INT_MAX ->
  fib_state b (a + b) (if 0 <? a then acc ++ [b] else acc).
Proof.
  intros (Ha & Hb & Hcase & Hlen & Hfirst & Hratio) Hnext.
  destruct Hcase as [(-> & Ha1 & ->) | (Ha1 & Hab & Hb2 & acc0 & ->)].
  - destruct (0 <? a) eqn:E; [apply Z.ltb_lt in E | apply Z.ltb_ge in E].
    + assert (a = 1) by lia; subst a; simpl.
      split; [lia |]. split; [exact Hnext |].
      split; [right; repeat split; try lia; exists []; reflexivity |].
      split; [simpl; lia |].
      split; [intros x Hx; injection Hx as <-; reflexivity |].
      intros j x y Hx Hy; destruct j; [discriminate Hy |].
      destruct j; discriminate Hx.
    + assert (a = 0) by lia; subst a; simpl.
      split; [lia |]. split; [exact Hnext |].
      split; [left; repeat split; lia |].
      split; [simpl; lia |].
      split; [intros x Hx; discriminate Hx |].
      intros j x y Hx Hy; destruct j; discriminate Hx.
  - destruct (0 <? a) eqn:E; [| apply Z.ltb_ge in E; lia].
    rewrite length_app in *; simpl List.length in *.
    split; [lia |]. split; [exact Hnext |].
    split; [right; repeat split; try lia; exists (acc0 ++ [a]); reflexivity |].
    split; [rewrite !length_app; simpl; lia |].
    split.
    + intros x Hx; apply Hfirst.
      rewrite nth_error_app1 in Hx by (rewrite length_app; simpl; lia); exact Hx.
    + intros j x y Hx Hy.
      destruct (Nat.lt_ge_cases (S j) (List.length (acc0 ++ [a]))) as [Hlt | Hge].
      * rewrite nth_error_app1 in Hx, Hy by lia. exact (Hratio j x y Hx Hy).
      * rewrite length_app in Hge; simpl in Hge.
        assert (Hj : nth_error ((acc0 ++ [a]) ++ [b]) (S j) = Some y) by exact Hy.
        assert (Hjlt : (S j < List.length ((acc0 ++ [a]) ++ [b]))%nat)
          by (apply nth_error_Some; congruence).
        rewrite !length_app in Hjlt; simpl in Hjlt.
        assert (j = List.length acc0) by lia; subst j.
        rewrite nth_error_app1 in Hx by (rewrite length_app; simpl; lia).
        rewrite nth_error_app2, Nat.sub_diag in Hx by lia.
        rewrite nth_error_app2 in Hy by (rewrite length_app; simpl; lia).
        replace (S (List.length acc0) - List.length (acc0 ++ [a]))%nat
          with 0%nat in Hy by (rewrite length_app; cbn [List.length]; lia).
        simpl in Hx, Hy; injection Hx as <-; injection Hy as <-; lia.
Qed.

Lemma buildFibList_loop_ok (len : Z) (fuel : nat) :
  forall (a b : Z) (acc iv : list Z),
    fib_state a b acc ->
    buildFibList_loop fuel a b len acc = Ret iv -> intervals_ok iv.
Proof.
  induction fuel as [| fuel IH]; intros a b acc iv Hst H; [discriminate H |].
  cbn [buildFibList_loop] in H.
  destruct (a <=? len).
  - cbv zeta in H; inv_bind H as next Hnext.
    apply int_add_inv in Hnext; destruct Hnext as (-> & Hle).
    exact (IH _ _ _ _ (fib_state_step _ _ _ Hst Hle) H).
  - injection H as <-.
    destruct Hst as (Ha & Hb & Hcase & Hlen & Hfirst & Hratio).
    split; [exact Hfirst |].
    split; [exact Hratio |].
    destruct Hcase as [(_ & ? & ?) | (? & ? & _)]; lia.
Qed.

Lemma buildFibList_ok (fuel : nat) (len : Z) (iv : list Z) :
  buildFibList fuel len = Ret iv -> intervals_ok iv.
Proof.
  apply buildFibList_loop_ok.
  unfold fib_state, INT_MAX.
  split; [lia |]. split; [lia |].
  split; [left; repeat split; lia |].
  split; [simpl; lia |].
  split; [intros x Hx; discriminate Hx |].
  intros j x y Hx Hy; destruct j; discriminate Hx.
Qed.

Lemma int_of_size_small (x : Z) : 0 <= x <= INT_MAX -> int_of_size x = x.
Proof.
  unfold INT_MAX, int_of_size; intros H.
  rewrite Z.mod_small by lia.
  destruct (x <? 2 ^ 31) eqn:E; [reflexivity | apply Z.ltb_ge in E; lia].
Qed.

Lemma slots_inv_empty (iv : list Z) :
  slots_inv iv (repeat null (List.length iv)).
Proof.
  split; [apply repeat_length |].
  intros j p Hj Hp; apply nth_error_In, repeat_spec in Hj; congruence.
Qed.

Lemma repeat_null_all (n : nat) : Forall (eq null) (repeat null n).
Proof. induction n; simpl; constructor; auto. Qed.

Lemma Forall_skipn_all (A : Type) (P : A -> Prop) (k : nat) (v : list A) :
  Forall P v -> Forall P (skipn k v).
Proof. intros H; apply (Forall_skipn_le A P 0 k); [lia | exact H]. Qed.

(** [balance] rebuilds the tree over the same string. *)
Lemma rebuild_string (fuel : nat) (r : rope) (h : handle) :
  wf (root_ r) -> fits (root_ r) ->
  rebuild fuel r = Ret h -> treeToString h = treeToString (root_ r).
Proof.
  intros Hwf Hfit H; unfold rebuild in H.
  inv_bind H as iv Hint; inv_bind H as leaves Hleaves.
  pose proof (buildFibList_ok _ _ _ Hint) as Hiv.
  assert (Heq : leaves = getLeaves (root_ r))
    by (destruct (root_ r);
        [discriminate Hleaves | injection Hleaves as Hl'; symmetry; exact Hl']).
  assert (Hl : Forall built leaves)
    by (rewrite Heq; apply leaves_built; exact Hwf).
  assert (Hstr : List.concat (map treeToString leaves) = treeToString (root_ r))
    by (rewrite Heq; apply leaves_str).
  inv_bind H as res Hins. destruct res as [nodes1 cm].
  assert (Hmax : wrap (Z.of_nat (List.length iv) - 1) < SIZE_MOD)
    by (apply Z.mod_pos_bound; reflexivity).
  destruct (insert_leaves_inv _ _ _ _ Hiv Hmax _ _ _ _
              (slots_inv_empty iv)
              (conj (Z.le_refl 0) (Forall_skipn_all _ _ _ _ (repeat_null_all _)))
              Hl
              ltac:(rewrite (slots_str_null _ (repeat_null_all _)), Hstr;
                    exact Hfit)
              Hins) as (Hs1 & (Hcm0 & Hhi) & Hstr1).
  rewrite (slots_str_null _ (repeat_null_all _)), Hstr in Hstr1.
  simpl in Hstr1.
  inv_bind H as acc Hget.
  pose proof (vec_get_bound _ _ _ _ Hget) as Hlt.
  rewrite (proj1 Hs1) in Hlt.
  destruct Hiv as (_ & _ & Hivlen).
  rewrite int_of_size_small in H by lia.
  destruct (cm <? 0) eqn:E; [apply Z.ltb_lt in E; lia |].
  apply gather_str in H.
  destruct (vec_get_split _ _ _ _ Hcm0 Hget) as (la & lb & Hnodes & Hla).
  assert (Hset : vec_set nodes1 cm null = la ++ null :: lb)
    by (unfold vec_set; rewrite Hnodes, <- Hla; apply vec_set_nat_split).
  rewrite Hset, <- Hla, firstn_S_split_at, slots_str_app in H.
  rewrite Hnodes, <- Hla, skipn_S_split_at in Hhi.
  rewrite H, <- Hstr1, Hnodes, slots_str_app; simpl.
  rewrite (slots_str_null lb Hhi); reflexivity.
Qed.

(** ** The invariant of reachable ropes *)

Lemma rope_inv_wf (r : rope) : rope_inv r -> wf (root_ r).
Proof. intros [-> | (H & _)]; [exact I | exact H]. Qed.

Lemma fits_concat_l (w : Z) (l r : handle) (f : str) :
  l <> null -> fits (node w l r f) -> fits l.
Proof.
  unfold fits; intros Hl H.
  rewrite treeToString_internal, slen_app in H by exact Hl.
  pose proof (slen_nonneg (treeToString r)); lia.
Qed.

Lemma rope_rep_concat (l r : handle) :
  l <> null -> wf l -> wf r -> closed r ->
  fits (node (getLength l) l r []) ->
  rope_rep (mkRope (node (getLength l) l r [])).
Proof.
  intros Hl Hwl Hwr Hcr Hfit; unfold rope_rep; simpl root_.
  split; [apply wf_concat; auto; eapply fits_concat_l; eauto |].
  split; [simpl; rewrite isLeaf_nonnull_l by exact Hl; exact Hcr | exact Hfit].
Qed.

Lemma state_after_Done (S : Type) (s s' : S) :
  state_after (Done s) = Some s' -> s' = s.
Proof. simpl; congruence. Qed.

Lemma state_after_Raised (S : Type) (e : exn) (s s' : S) :
  state_after (Raised e s) = Some s' -> s' = s.
Proof. simpl; congruence. Qed.

Lemma rope_copy_keeps (r r' : rope) : rope_copy r = Ret r' -> r' = r.
Proof.
  unfold rope_copy; intros H.
  destruct r as [p]; destruct p; [discriminate H |].
  simpl in H; rewrite !copy_node_id in H; congruence.
Qed.

Lemma rope_copy_null (x : rope) : root_ x = null -> rope_copy x = Undef.
Proof. intros H; unfold rope_copy; rewrite H; reflexivity. Qed.

Lemma insert_keeps (r x r' : rope) (i : Z) :
  rope_inv r -> wf (root_ x) -> is_size i ->
  state_after (insert r i x) = Some r' -> fits (root_ r') -> rope_inv r'.
Proof.
  intros Hr Hx Hi H Hfit.
  destruct (Z_lt_le_dec (length r) i) as [Hlt | Hle].
  { rewrite insert_outside in H by exact Hlt.
    apply state_after_Raised in H; subst; exact Hr. }
  assert (Hnlt : (length r <? i) = false) by (apply Z.ltb_ge; exact Hle).
  destruct (root_ x) eqn:Hxn.
  { unfold insert in H; rewrite Hnlt in H.
    rewrite rope_copy_null in H by exact Hxn; discriminate H. }
  rewrite <- Hxn in Hx.
  assert (Hxnn : root_ x <> null) by (rewrite Hxn; discriminate).
  destruct Hr as [Hrn | Hr].
  - unfold insert in H; rewrite Hnlt in H.
    rewrite rope_copy_nonnull in H by exact Hxnn.
    rewrite Hrn in H; discriminate H.
  - unfold is_size in Hi.
    destruct (insert_inside r x i Hr Hxnn ltac:(lia))
      as (a & b & _ & Han & Hwa & Hwb & Hcb & _ & _ & Hins).
    rewrite Hins in H; apply state_after_Done in H; subst r'.
    simpl root_ in Hfit; right.
    apply rope_rep_concat; auto; [discriminate |].
    apply wf_concat; auto.
    eapply fits_concat_l; [exact Han |].
    eapply fits_concat_l; [| exact Hfit]; discriminate.
Qed.

Lemma rope_rep_of_string (s : str) :
  fits (leaf s) -> rope_rep (rope_of_string s).
Proof. intros H; repeat split; exact H. Qed.

Lemma concat_root_keeps (r r' : rope) (x : handle) :
  rope_inv r -> x <> null -> wf x -> closed x ->
  state_after (after_move (concat (root_ r) x)) = Some r' ->
  fits (root_ r') -> rope_inv r'.
Proof.
  intros Hr Hxn Hwx Hcx H Hfit.
  destruct Hr as [Hrn | Hr]; [rewrite Hrn in H; discriminate H |].
  rewrite concat_nonnull in H by (apply rope_rep_nonnull; exact Hr).
  apply state_after_Done in H; subst r'.
  right; apply rope_rep_concat; auto; [apply rope_rep_nonnull | apply Hr]; auto.
Qed.

Lemma append_keeps (r x r' : rope) :
  rope_inv r -> rope_inv x ->
  state_after (append r x) = Some r' -> fits (root_ r') -> rope_inv r'.
Proof.
  intros Hr Hx H Hfit; unfold append in H.
  destruct Hx as [Hxn | Hx]; [rewrite rope_copy_null in H by exact Hxn; discriminate H |].
  rewrite rope_copy_nonnull in H by (apply rope_rep_nonnull; exact Hx).
  eapply concat_root_keeps; eauto; [apply rope_rep_nonnull | apply Hx | apply Hx]; auto.
Qed.

Lemma append_str_keeps (r : rope) (s : str) (r' : rope) :
  rope_inv r ->
  state_after (append_str r s) = Some r' -> fits (root_ r') -> rope_inv r'.
Proof.
  intros Hr H Hfit; unfold append_str in H.
  eapply concat_root_keeps; eauto; [discriminate | apply wf_leaf | exact I].
Qed.

Lemma range_rejected_false (n start len : Z) :
  range_rejected n start len = false -> start <= n /\ wrap (start + len) <= n.
Proof.
  unfold range_rejected; intros H.
  apply orb_false_iff in H; destruct H as (H1 & H2).
  apply Z.ltb_ge in H1, H2; auto.
Qed.

Lemma rdelete_keeps (r : rope) (start len : Z) (r' : rope) :
  rope_inv r -> is_size start -> is_size len ->
  state_after (rdelete r start len) = Some r' -> fits (root_ r') -> rope_inv r'.
Proof.
  intros Hr Hs Hl H Hfit.
  destruct (range_rejected (length r) start len) eqn:E.
  { rewrite rdelete_rejected in H by exact E.
    apply state_after_Raised in H; subst; exact Hr. }
  destruct Hr as [Hrn | Hr].
  { unfold rdelete in H; rewrite E, Hrn in H; discriminate H. }
  apply range_rejected_false in E; destruct E as (E1 & E2).
  unfold is_size in Hs, Hl.
  destruct (Z_lt_le_dec (start + len) SIZE_MOD) as [Hsmall | Hbig].
  - rewrite wrap_small in E2 by lia.
    destruct (rdelete_inside r start len Hr ltac:(lia) ltac:(lia) E2)
      as (a & b & Han & Hwa & Hwb & Hcb & _ & _ & Hdel).
    rewrite Hdel in H; apply state_after_Done in H; subst r'.
    right; apply rope_rep_concat; auto.
  - rewrite rdelete_wrapped in H by (unfold is_size; auto; lia).
    apply state_after_Raised in H; subst r'; left; reflexivity.
Qed.

Lemma balance_string (fuel : nat) (r r' : rope) :
  wf (root_ r) -> fits (root_ r) ->
  state_after (balance fuel r) = Some r' -> toString r' = toString r.
Proof.
  intros Hwf Hfit H; unfold balance in H.
  destruct (isBalanced r) as [[|] | e | |]; try discriminate H;
    try (apply state_after_Done in H; subst; reflexivity);
    try (apply state_after_Raised in H; subst; reflexivity).
  destruct (rebuild fuel r) as [h | e | |] eqn:E; try discriminate H;
    try (apply state_after_Raised in H; subst; reflexivity).
  apply state_after_Done in H; subst r'.
  rewrite !toString_root; apply (rebuild_string fuel); assumption.
Qed.

Lemma balance_keeps (fuel : nat) (r r' : rope) :
  rope_inv r -> state_after (balance fuel r) = Some r' -> rope_inv r'.
Proof.
  intros Hr H.
  destruct Hr as [Hrn | Hr].
  { unfold balance, isBalanced in H; rewrite Hrn in H.
    apply state_after_Done in H; subst; left; exact Hrn. }
  pose proof Hr as (Hwf & Hcl & Hfit).
  assert (Hfit' : fits (root_ r')).
  { unfold fits; rewrite <- toString_root, (balance_string fuel r r' Hwf Hfit H).
    rewrite toString_root; exact Hfit. }
  unfold balance in H.
  destruct (isBalanced r) as [[|] | e | |]; try discriminate H;
    try (apply state_after_Done in H; subst; right; exact Hr);
    try (apply state_after_Raised in H; subst; right; exact Hr).
  destruct (rebuild fuel r) as [h | e | |] eqn:E; try discriminate H;
    try (apply state_after_Raised in H; subst; right; exact Hr).
  apply state_after_Done in H; subst r'; simpl root_ in Hfit'.
  destruct (rebuild_ok fuel r h Hwf E) as [-> | Hb];
    [left; reflexivity | right].
  destruct (built_wf_closed h Hb Hfit'); repeat split; auto.
Qed.

(** Every reachable rope satisfies the invariant. *)
Lemma reachable_inv (r : rope) : reachable r -> rope_inv r.
Proof.
  induction 1 as [| s Hs | r r' _ IH Hc | rhs h _ IH Hc
                  | r i x r' _ IHr _ IHx Hi H Hf
                  | r i s r' _ IHr Hi H Hf | r x r' _ IHr _ IHx H Hf
                  | r s r' _ IHr H Hf | r start len r' _ IHr Hs Hl H Hf
                  | fuel r r' _ IHr H].
  - right; apply rope_rep_of_string; unfold fits, SIZE_MOD; simpl; reflexivity.
  - right; apply rope_rep_of_string; exact Hs.
  - apply rope_copy_keeps in Hc; subst; exact IH.
  - destruct rhs as [p]; simpl root_ in *.
    destruct p; [discriminate Hc |].
    rewrite clone_nonnull in Hc by discriminate.
    injection Hc as <-; exact IH.
  - exact (insert_keeps r x r' i IHr (rope_inv_wf _ IHx) Hi H Hf).
  - exact (insert_keeps r (rope_of_string s) r' i IHr (wf_leaf s) Hi H Hf).
  - exact (append_keeps r x r' IHr IHx H Hf).
  - exact (append_str_keeps r s r' IHr H Hf).
  - exact (rdelete_keeps r start len r' IHr Hs Hl H Hf).
  - exact (balance_keeps fuel r r' IHr H).
Qed.

(** A reachable rope with a root satisfies the representation invariant
    that the theorems on [at], [insert] and [rdelete] assume. *)
Lemma reachable_rope_rep (r : rope) :
  reachable r -> root_ r <> null -> rope_rep r.
Proof.
  intros H Hn; destruct (reachable_inv r H) as [Hnull | Hrep];
    [congruence | exact Hrep].
Qed.

Lemma wf_internal_left (p : handle) : wf p -> internal_left p.
Proof.
  induction p as [| w l IHl r IHr f]; intros H; [exact I |].
  simpl in *; destruct (isLeaf l r); [exact I |].
  destruct H as (Hl & Hf & Hw & Hwl & Hwr); repeat split; auto.
Qed.

(** ** The claim on the node invariant *)

(** In every reachable rope every non-leaf node has its left child present,
    an empty fragment, and the length of the string of its left subtree as
    weight.  Nothing is said of the right child: [splitAt] resets it on the
    node it reuses as left result. *)
Theorem reachable_internal_left (r : rope) :
  reachable r -> internal_left (root_ r).
Proof.
  intros H; apply wf_internal_left, rope_inv_wf, reachable_inv; exact H.
Qed.

Lemma reachable_ab_cd : reachable rope_ab_cd.
Proof.
  apply reach_append_str with (r := rope_of_string (bytes "ab")) (s := bytes "cd").
  - apply reach_string; unfold fits; vm_compute; reflexivity.
  - reflexivity.
  - unfold fits; vm_compute; reflexivity.
Qed.

Lemma reachable_aXb_cd : reachable rope_aXb_cd.
Proof.
  apply reach_insert_str with (r := rope_ab_cd) (i := 1) (s := bytes "X").
  - exact reachable_ab_cd.
  - unfold is_size, SIZE_MOD; lia.
  - reflexivity.
  - unfold fits; vm_compute; reflexivity.
Qed.

(** C3 on the code.  After [rope r("ab"); r.append("cd"); r.insert(1,"X")]
    the rope holds ["aXbcd"], and the node above the leaf ["a"], which
    [splitAt] reused as left result, has no right child: the invariant that
    node.hpp states for internal nodes (non-null children) does not hold in
    this reachable rope. *)
Theorem reachable_not_internal_full :
  reachable rope_aXb_cd
  /\ toString rope_aXb_cd = bytes "aXbcd"
  /\ root_ rope_aXb_cd
     = node 2
         (node 1 (node 1 (leaf (bytes "a")) null []) (leaf (bytes "X")) [])
         (node 1 (leaf (bytes "b")) (leaf (bytes "cd")) [])
         []
  /\ ~ internal_full (root_ rope_aXb_cd).
Proof.
  split; [exact reachable_aXb_cd |].
  split; [vm_compute; reflexivity |].
  split; [vm_compute; reflexivity |].
  vm_compute; intros (_ & _ & _ & _ & (_ & _ & _ & _ & (_ & H & _) & _) & _).
  apply H; reflexivity.
Qed.

Lemma reachable_internal_left_witness :
  reachable rope_aXb_cd /\ internal_left (root_ rope_aXb_cd).
Proof.
  split; [exact reachable_aXb_cd |].
  apply (reachable_internal_left rope_aXb_cd); exact reachable_aXb_cd.
Defined.

(** ** Witnesses on concrete ropes *)

(** Settles [rope_rep] on a concrete rope by evaluation. *)
Ltac concrete_rep :=
  unfold rope_rep, fits; vm_compute;
  repeat split; try reflexivity; try discriminate.

Ltac concrete_size := unfold is_size, SIZE_MOD; lia.

Lemma splitAt_correct_witness :
  exists left_part right_part,
    splitAt (root_ rope_ab_cd) 3 = Ret (left_part, right_part)
    /\ treeToString left_part = bytes "abc"
    /\ treeToString right_part = bytes "d".
Proof.
  destruct (splitAt_correct (root_ rope_ab_cd) 3) as (a & b & Hs & Ha & Hb & _).
  - discriminate.
  - vm_compute; repeat split; try reflexivity; discriminate.
  - unfold fits; vm_compute; reflexivity.
  - vm_compute; split; discriminate.
  - exists a, b; repeat split; assumption.
Defined.

Lemma at_correct_witness :
  (exists c, at_ rope_ab_cd 2 = Ret c
             /\ nth_error (toString rope_ab_cd) 2 = Some c)
  /\ at_ rope_ab_cd 4 = Throw invalid_argument.
Proof.
  split.
  - apply (at_correct rope_ab_cd 2);
      [right; concrete_rep | concrete_size | vm_compute; reflexivity].
  - apply (at_correct rope_ab_cd 4);
      [right; concrete_rep | concrete_size | vm_compute; discriminate].
Defined.

Lemma insert_correct_witness :
  (exists r', insert rope_ab_cd 1 rope_abc = Done r'
              /\ toString r' = bytes "aabcbcd")
  /\ (exists r', insert_str rope_ab_cd 1 (bytes "X") = Done r'
                 /\ toString r' = bytes "aXbcd")
  /\ insert_str rope_ab_cd 5 (bytes "X") = Raised invalid_argument rope_ab_cd.
Proof.
  split; [| split].
  - apply (insert_correct rope_ab_cd rope_abc (bytes "X") 1);
      [concrete_rep | discriminate | concrete_size | vm_compute; discriminate].
  - apply (insert_correct rope_ab_cd rope_abc (bytes "X") 1);
      [concrete_rep | discriminate | concrete_size | vm_compute; discriminate].
  - apply (insert_correct rope_ab_cd rope_abc (bytes "X") 5);
      [concrete_rep | discriminate | concrete_size | vm_compute; reflexivity].
Defined.

Lemma rdelete_correct_witness :
  exists r', rdelete rope_ab_cd 1 2 = Done r' /\ toString r' = bytes "ad".
Proof.
  apply (rdelete_correct rope_ab_cd 1 2);
    [concrete_rep | lia | lia | vm_compute; discriminate].
Defined.

(** ** Assignment *)

Lemma upd_same (st : store) (a : nat) (r : rope) : upd st a r a = r.
Proof. unfold upd; rewrite Nat.eqb_refl; reflexivity. Qed.

Lemma upd_other (st : store) (a b : nat) (r : rope) :
  b <> a -> upd st a r b = st b.
Proof.
  intros H; unfold upd.
  destruct (Nat.eqb b a) eqn:E; [apply Nat.eqb_eq in E; congruence | reflexivity].
Qed.

(** [operator=] on two distinct objects whose right-hand side has a root
    returns with [*this] holding a tree equal to that of the right-hand
    side, node for node, and every other object as it was; on a right-hand
    side without root it dereferences a null pointer; [r = r] returns at
    once and leaves every object as it was. *)
Theorem assign_exact (st : store) (r s : nat) :
  (r <> s -> root_ (st s) <> null ->
   exists st',
     assign st r s = Ret st'
     /\ st' r = mkRope (root_ (st s))
     /\ toString (st' r) = toString (st s)
     /\ forall other : nat, other <> r -> st' other = st other)
  /\ (r <> s -> root_ (st s) = null -> assign st r s = Undef)
  /\ assign st r r = Ret st.
Proof.
  split; [| split].
  - intros Hne Hs.
    assert (Heqb : Nat.eqb r s = false) by (apply Nat.eqb_neq; exact Hne).
    exists (upd st r (mkRope (root_ (st s)))).
    split; [unfold assign; rewrite Heqb, clone_nonnull by exact Hs; reflexivity |].
    split; [apply upd_same |].
    split; [rewrite upd_same, !toString_root; reflexivity |].
    intros other Ho; apply upd_other; exact Ho.
  - intros Hne Hs.
    assert (Heqb : Nat.eqb r s = false) by (apply Nat.eqb_neq; exact Hne).
    unfold assign; rewrite Heqb, Hs; reflexivity.
  - unfold assign; rewrite Nat.eqb_refl; reflexivity.
Qed.

Lemma assign_exact_witness :
  (exists st',
     assign store_two 0 1 = Ret st'
     /\ st' 0%nat = rope_ab_cd
     /\ toString (st' 0%nat) = bytes "abcd"
     /\ forall other : nat, other <> 0%nat -> st' other = store_two other)
  /\ assign (upd store_two 1 (mkRope null)) 0 1 = Undef.
Proof.
  split.
  - apply (assign_exact store_two 0 1); discriminate.
  - apply (assign_exact (upd store_two 1 (mkRope null)) 0 1);
      [discriminate | reflexivity].
Defined.

(** ** The Fibonacci helper *)

Lemma getDepth_nonneg (p : handle) : 0 <= getDepth p.
Proof.
  destruct p as [| w l r f]; simpl; [lia |].
  destruct (isLeaf l r); [lia |].
  pose proof (Z.mod_pos_bound (getDepth l + 1) SIZE_MOD ltac:(reflexivity)).
  unfold wrap; lia.
Qed.

(** [fib(n)] for the arguments [isBalanced] passes on trees of depth at most
    44: no overflow, and at least 1. *)
Lemma fib_small (n : Z) :
  2 <= n <= 46 -> exists f, fib n = Ret f /\ 1 <= f.
Proof.
  intros Hn.
  assert (Hk : exists k : nat, (k <= 44)%nat /\ n = Z.of_nat k + 2)
    by (exists (Z.to_nat (n - 2)); lia).
  destruct Hk as (k & Hk & ->).
  do 45 (destruct k as [| k];
         [eexists; split; [vm_compute; reflexivity | lia] |]).
  lia.
Qed.

(** ** Empty ropes *)

(** The two representations of the empty string are not treated alike.  A
    rope whose root is absent has length 0, is reported balanced, and
    [balance] leaves it unchanged; a rope of length 0 whose root is present
    (as the constructors build it) is reported not balanced, for every depth
    at which [fib] does not overflow. *)
Lemma empty_rope_balance (r : rope) (fuel : nat) :
  (root_ r = null ->
   length r = 0 /\ isBalanced r = Ret true /\ balance fuel r = Done r)
  /\ (root_ r <> null -> length r = 0 -> getDepth (root_ r) <= 44 ->
      isBalanced r = Ret false).
Proof.
  split.
  - intros Hn; unfold balance, isBalanced, length; rewrite Hn; auto.
  - intros Hn Hlen Hd.
    pose proof (getDepth_nonneg (root_ r)) as Hd0.
    assert (Hib : isBalanced r =
                  (f <- fib (wrap (getDepth (root_ r) + 2)) ;;
                   Ret (f <=? length r)))
      by (unfold isBalanced; destruct (root_ r); [congruence | reflexivity]).
    rewrite Hib, Hlen.
    rewrite wrap_small by (unfold SIZE_MOD; lia).
    destruct (fib_small (getDepth (root_ r) + 2) ltac:(lia)) as (f & Hf & Hf1).
    rewrite Hf; simpl.
    destruct (f <=? 0) eqn:Ef; [apply Z.leb_le in Ef; lia | reflexivity].
Qed.

Lemma empty_rope_balance_witness :
  (isBalanced (mkRope null) = Ret true
   /\ balance 0 (mkRope null) = Done (mkRope null))
  /\ isBalanced rope_default = Ret false.
Proof.
  split.
  - apply (empty_rope_balance (mkRope null) 0); reflexivity.
  - apply (empty_rope_balance rope_default 0);
      [discriminate | reflexivity | vm_compute; discriminate].
Defined.

(** C2 on the code.  The rope of the default constructor holds the empty
    string in a leaf: [isBalanced] returns false on it, where it returns true
    on a rope without root, and [balance] then reads slot 0 of a slot vector
    that has no entry.  The rope that [rdelete(0, 3)] leaves of ["abc"] has
    length 0 too and fares the same. *)
Theorem default_rope_not_balanced :
  reachable rope_default
  /\ length rope_default = 0
  /\ toString rope_default = []
  /\ isBalanced rope_default = Ret false
  /\ (forall fuel : nat, balance (S (S fuel)) rope_default = Undefined)
  /\ (exists r',
        rdelete rope_abc 0 3 = Done r'
        /\ length r' = 0
        /\ isBalanced r' = Ret false
        /\ balance 8 r' = Undefined)
  /\ isBalanced (mkRope null) = Ret true.
Proof.
  split; [apply reach_default |].
  split; [reflexivity |].
  split; [reflexivity |].
  split; [vm_compute; reflexivity |].
  split; [intros fuel; vm_compute; reflexivity |].
  split; [| reflexivity].
  eexists; split; [vm_compute; reflexivity |].
  split; [vm_compute; reflexivity |].
  split; vm_compute; reflexivity.
Qed.

(** ** Where the code departs from the claims *)

Lemma reachable_abc_de : reachable rope_abc_de.
Proof.
  apply reach_append_str with (r := rope_abc) (s := bytes "de").
  - apply reach_string; unfold fits; vm_compute; reflexivity.
  - reflexivity.
  - unfold fits; vm_compute; reflexivity.
Qed.

Lemma reachable_a_to_g : reachable rope_a_to_g.
Proof.
  unfold rope_a_to_g; cbn [fold_left].
  repeat match goal with
         | |- reachable (returned (append_str ?R ?S)) =>
             apply reach_append_str with (r := R) (s := S);
             [ | vm_compute; reflexivity | unfold fits; vm_compute; reflexivity]
         end.
  apply reach_string; unfold fits; vm_compute; reflexivity.
Qed.

(** C1 on the code.  On the two-leaf rope ["ab" . "cd"] the valid request
    [substring(1, 2)] returns ["ab"] where the string has ["bc"]: a leaf
    returns its whole fragment when [len] is not below its weight, and the
    right subtree is entered at [w] instead of 0.  On ["abc" . "de"] the
    valid request [substring(2, 2)] ends in [std::out_of_range]. *)
Theorem substring_two_leaves :
  reachable rope_ab_cd
  /\ toString rope_ab_cd = bytes "abcd"
  /\ substring rope_ab_cd 1 2 = Ret (bytes "ab")
  /\ slice (toString rope_ab_cd) 1 (1 + 2) = bytes "bc"
  /\ reachable rope_abc_de
  /\ toString rope_abc_de = bytes "abcde"
  /\ substring rope_abc_de 2 2 = Throw out_of_range.
Proof.
  split; [exact reachable_ab_cd |].
  split; [reflexivity |].
  split; [reflexivity |].
  split; [reflexivity |].
  split; [exact reachable_abc_de |].
  split; reflexivity.
Qed.

(** C4 on the code.  With [start = 1] and [len = SIZE_MAX] the sum
    [start + len] wraps to 0 and the bounds test lets the call through:
    [substring] returns the whole three-byte string, and [rdelete] throws
    [std::out_of_range] from [substr] after the root has been moved out,
    which leaves the rope empty. *)
Theorem range_test_wraps :
  is_size SIZE_MAX
  /\ length rope_abc = 3
  /\ range_rejected (length rope_abc) 1 SIZE_MAX = false
  /\ substring rope_abc 1 SIZE_MAX = Ret (bytes "abc")
  /\ rdelete rope_abc 1 SIZE_MAX = Raised out_of_range (mkRope null)
  /\ toString (mkRope null) = [].
Proof.
  split; [unfold is_size, SIZE_MAX, SIZE_MOD; lia |].
  repeat split; vm_compute; reflexivity.
Qed.

(** The wrapped [rdelete] leaves a rope without root behind: such a rope is
    reachable. *)
Lemma reachable_rootless : reachable (mkRope null).
Proof.
  apply reach_rdelete with (r := rope_abc) (start := 1) (len := SIZE_MAX).
  - apply reach_string; unfold fits; vm_compute; reflexivity.
  - unfold is_size, SIZE_MOD; lia.
  - unfold is_size, SIZE_MAX, SIZE_MOD; lia.
  - vm_compute; reflexivity.
  - unfold fits; vm_compute; reflexivity.
Qed.

(** On a rope without root the edits that the bounds tests let through
    dereference the absent root: [insert] at index 0, [rdelete(0, 0)] and
    both [append]s, whatever the argument.  Every other index or range is
    refused with the out-of-bounds error and the rope stays as it is. *)
Theorem edits_without_root (x : rope) (s : str) (i start len : Z) :
  is_size i -> is_size start -> is_size len ->
  insert (mkRope null) 0 x = Undefined
  /\ insert_str (mkRope null) 0 s = Undefined
  /\ rdelete (mkRope null) 0 0 = Undefined
  /\ append (mkRope null) x = Undefined
  /\ append_str (mkRope null) s = Undefined
  /\ (0 < i ->
      insert (mkRope null) i x = Raised invalid_argument (mkRope null)
      /\ insert_str (mkRope null) i s = Raised invalid_argument (mkRope null))
  /\ (0 < start + len ->
      rdelete (mkRope null) start len = Raised invalid_argument (mkRope null)).
Proof.
  intros Hi Hs Hl; unfold is_size in *.
  assert (Hins : forall y, insert (mkRope null) 0 y = Undefined).
  { intros y; unfold insert, rope_copy; cbn [length root_ Z.ltb Z.compare].
    destruct (clone (root_ y)) as [h | e | |] eqn:E; cbn [bind];
      try reflexivity; destruct (root_ y); discriminate E. }
  split; [apply Hins |].
  split; [apply Hins |].
  split; [reflexivity |].
  split.
  { unfold append, rope_copy.
    destruct (clone (root_ x)) as [h | e | |] eqn:E; cbn [bind];
      try reflexivity; destruct (root_ x); discriminate E. }
  split; [reflexivity |].
  split.
  - intros H0.
    assert (Hlt : (0 <? i) = true) by (apply Z.ltb_lt; exact H0).
    unfold insert_str, insert; cbn [length root_]; rewrite Hlt; auto.
  - intros H0; unfold rdelete, range_rejected; cbn [length root_].
    destruct (0 <? start) eqn:E1; [reflexivity | apply Z.ltb_ge in E1].
    assert (start = 0) by lia; subst start.
    rewrite wrap_small by lia.
    destruct (0 <? 0 + len) eqn:E2; [reflexivity | apply Z.ltb_ge in E2; lia].
Qed.

Lemma edits_without_root_witness :
  insert (mkRope null) 0 rope_abc = Undefined
  /\ rdelete (mkRope null) 0 0 = Undefined
  /\ insert_str (mkRope null) 2 (bytes "x")
     = Raised invalid_argument (mkRope null)
  /\ rdelete (mkRope null) 0 5 = Raised invalid_argument (mkRope null).
Proof.
  destruct (edits_without_root rope_abc (bytes "x") 2 0 5)
    as (H1 & _ & H3 & _ & _ & H6 & H7);
    [concrete_size | concrete_size | concrete_size |].
  split; [exact H1 |].
  split; [exact H3 |].
  split; [apply H6; lia | apply H7; lia].
Defined.

(** C6 on the code.  A rope without root stands for the empty string
    (rope.hpp; [toString], [length], [at] and [isBalanced] test for it) and
    is what [rdelete(1, SIZE_MAX)] leaves of ["abc"].  [insert] at index 0
    into such a rope passes the bounds test and hands the absent root to
    [splitAt], which dereferences it; [insert] of such a rope dereferences
    the absent root in the copy constructor. *)
Theorem insert_without_root :
  rdelete rope_abc 1 SIZE_MAX = Raised out_of_range (mkRope null)
  /\ reachable (mkRope null)
  /\ toString (mkRope null) = []
  /\ length (mkRope null) = 0
  /\ insert_str (mkRope null) 0 (bytes "x") = Undefined
  /\ insert (mkRope null) 0 rope_abc = Undefined
  /\ insert rope_abc 0 (mkRope null) = Undefined.
Proof.
  split; [vm_compute; reflexivity |].
  split; [exact reachable_rootless |].
  repeat split; vm_compute; reflexivity.
Qed.

(** C7 on the code.  On the rope without root that [rdelete(1, SIZE_MAX)]
    leaves of ["abc"], the request [rdelete(0, 0)] is valid ([0 + 0] does not
    exceed the length 0) and passes the bounds test; the absent root is then
    handed to [splitAt], which dereferences it. *)
Theorem rdelete_without_root :
  rdelete rope_abc 1 SIZE_MAX = Raised out_of_range (mkRope null)
  /\ reachable (mkRope null)
  /\ toString (mkRope null) = []
  /\ length (mkRope null) = 0
  /\ range_rejected (length (mkRope null)) 0 0 = false
  /\ rdelete (mkRope null) 0 0 = Undefined.
Proof.
  split; [vm_compute; reflexivity |].
  split; [exact reachable_rootless |].
  repeat split; vm_compute; reflexivity.
Qed.

(** C10 on the code.  Of the two rope objects ["abc"] and ["ab" . "cd"] the
    second is left without root by [rdelete(1, SIZE_MAX)] and holds the empty
    string; assigning it to the first dereferences the absent root. *)
Theorem assign_without_root :
  exists st',
    mutate store_two 1 (Delete 1 SIZE_MAX) = Raised out_of_range st'
    /\ root_ (st' 1%nat) = null
    /\ toString (st' 1%nat) = []
    /\ st' 0%nat = rope_abc
    /\ assign st' 0 1 = Undef.
Proof.
  eexists; split; [vm_compute; reflexivity |].
  repeat split; vm_compute; reflexivity.
Qed.

(** C5 on the code.  The rope of seven one-byte leaves appended one after
    the other is not balanced; [balance] rebuilds it with the same string
    but with depth 4, and [fib(6) = 8 > 7]: [isBalanced] still returns
    false. *)
Theorem balance_seven_leaves :
  reachable rope_a_to_g
  /\ isBalanced rope_a_to_g = Ret false
  /\ exists r',
       balance 16 rope_a_to_g = Done r'
       /\ toString r' = bytes "abcdefg"
       /\ length r' = 7
       /\ getDepth (root_ r') = 4
       /\ fib 6 = Ret 8
       /\ isBalanced r' = Ret false.
Proof.
  split; [exact reachable_a_to_g |].
  split; [vm_compute; reflexivity |].
  eexists; split; [vm_compute; reflexivity |].
  repeat split; vm_compute; reflexivity.
Qed.

(** * Further properties of the code *)

(** ** Length, copies and leaves *)

(** [length()] of a reachable rope is the length of its string. *)
Theorem length_reachable (r : rope) :
  reachable r -> length r = slen (toString r).
Proof.
  intros H; destruct (reachable_inv r H) as [Hn | Hrep].
  - unfold length, toString; rewrite Hn; reflexivity.
  - apply length_rep; exact Hrep.
Qed.

Lemma length_reachable_witness :
  length rope_aXb_cd = slen (toString rope_aXb_cd).
Proof. apply (length_reachable rope_aXb_cd); exact reachable_aXb_cd. Defined.

(** The copy constructor rebuilds the tree of its argument node for node;
    on a rope without root it dereferences a null pointer. *)
Theorem rope_copy_exact (r : rope) :
  (root_ r <> null -> rope_copy r = Ret r)
  /\ (root_ r = null -> rope_copy r = Undef).
Proof. split; [apply rope_copy_nonnull | apply rope_copy_null]. Qed.

Lemma rope_copy_exact_witness :
  rope_copy rope_aXb_cd = Ret rope_aXb_cd
  /\ rope_copy (mkRope null) = Undef.
Proof.
  split.
  - apply (rope_copy_exact rope_aXb_cd); discriminate.
  - apply (rope_copy_exact (mkRope null)); reflexivity.
Defined.

Lemma getLeaves_leaves (p : handle) :
  Forall (fun q => exists w f, q = node w null null f) (getLeaves p).
Proof.
  induction p as [| w l IHl r IHr f]; [constructor |].
  cbn [getLeaves].
  destruct (isLeaf l r) eqn:E; [| apply Forall_app; auto].
  destruct l, r; try discriminate E.
  constructor; [exists w, f; reflexivity | constructor].
Qed.

(** [getLeaves] collects leaves only, and their fragments, in the order
    collected, make up the string of the node; absent children are passed
    over. *)
Theorem getLeaves_string (p : handle) :
  Forall (fun q => exists w f, q = node w null null f) (getLeaves p)
  /\ List.concat (map treeToString (getLeaves p)) = treeToString p.
Proof. split; [apply getLeaves_leaves | apply leaves_str]. Qed.

(** ** Edits keep the invariant and add up lengths *)

Lemma fits_of_slen (p : handle) (n : Z) :
  slen (treeToString p) = n -> n < SIZE_MOD -> fits p.
Proof. unfold fits; lia. Qed.

Lemma rope_inv_nonnull (r : rope) : rope_inv r -> root_ r <> null -> rope_rep r.
Proof. intros [Hn | Hrep] H; [congruence | exact Hrep]. Qed.

Lemma insert_rep (r x : rope) (i : Z) :
  rope_rep r -> rope_rep x -> is_size i -> i <= length r ->
  length r + length x < SIZE_MOD ->
  exists r',
    insert r i x = Done r' /\ rope_rep r'
    /\ toString r' = take i (toString r) ++ toString x ++ drop i (toString r)
    /\ length r' = length r + length x.
Proof.
  intros Hr Hx Hi Hle Hsum.
  pose proof (length_rep _ Hr) as Hlr.
  pose proof (length_rep _ Hx) as Hlx.
  pose proof Hi as Hsz; unfold is_size in Hi.
  destruct (insert_toString r x i Hr (rope_rep_nonnull _ Hx) ltac:(lia))
    as (r' & Hins & Hstr).
  assert (Hlen : slen (toString r') = length r + length x).
  { rewrite Hstr, !slen_app, slen_take, slen_drop by lia; lia. }
  assert (Hfit : fits (root_ r'))
    by (apply (fits_of_slen _ _ ltac:(rewrite <- toString_root; exact Hlen) Hsum)).
  assert (Hrep : rope_rep r').
  { apply rope_inv_nonnull.
    - apply (insert_keeps r x r' i (or_intror Hr) (proj1 Hx) Hsz);
        [rewrite Hins; reflexivity | exact Hfit].
    - destruct (insert_inside r x i Hr (rope_rep_nonnull _ Hx) ltac:(lia))
        as (a & b & _ & _ & _ & _ & _ & _ & _ & Hins').
      rewrite Hins' in Hins; injection Hins as <-; discriminate. }
  exists r'; repeat split; try apply Hrep; auto.
  rewrite (length_rep _ Hrep); exact Hlen.
Qed.

(** [insert] within bounds returns, keeps the representation invariant and
    makes the length the sum of the two lengths. *)
Theorem insert_keeps_rep (r x : rope) (i : Z) :
  rope_rep r -> rope_rep x -> is_size i -> i <= length r ->
  length r + length x < SIZE_MOD ->
  exists r',
    insert r i x = Done r' /\ rope_rep r'
    /\ length r' = length r + length x.
Proof.
  intros Hr Hx Hi Hle Hsum.
  destruct (insert_rep r x i Hr Hx Hi Hle Hsum) as (r' & H1 & H2 & _ & H3).
  exists r'; auto.
Qed.

Lemma rdelete_rep (r : rope) (start len : Z) :
  rope_rep r -> 0 <= start -> 0 <= len -> start + len <= length r ->
  exists r',
    rdelete r start len = Done r' /\ rope_rep r'
    /\ toString r' = take start (toString r) ++ drop (start + len) (toString r)
    /\ length r' = length r - len.
Proof.
  intros Hr Hs Hl Hsum.
  pose proof (length_rep _ Hr) as Hlr.
  pose proof Hr as (_ & _ & Hfit).
  pose proof (fits_bounds _ Hfit) as Hb.
  rewrite <- toString_root in Hb.
  destruct (rdelete_toString r start len Hr Hs Hl Hsum) as (r' & Hdel & Hstr).
  assert (Hlen : slen (toString r') = length r - len).
  { rewrite Hstr, !slen_app, slen_take, slen_drop by lia; lia. }
  assert (Hfit' : fits (root_ r'))
    by (apply (fits_of_slen _ (length r - len));
        [rewrite <- toString_root; exact Hlen | lia]).
  assert (Hrep : rope_rep r').
  { apply rope_inv_nonnull.
    - apply (rdelete_keeps r start len r' (or_intror Hr));
        [unfold is_size; lia | unfold is_size; lia
         | rewrite Hdel; reflexivity | exact Hfit'].
    - destruct (rdelete_inside r start len Hr Hs Hl Hsum)
        as (a & b & _ & _ & _ & _ & _ & _ & Hdel').
      rewrite Hdel' in Hdel; injection Hdel as <-; discriminate. }
  exists r'; repeat split; try apply Hrep; auto.
  rewrite (length_rep _ Hrep); exact Hlen.
Qed.

(** [rdelete] of a range within the string returns, keeps the representation
    invariant and shortens the rope by [len]. *)
Theorem rdelete_keeps_rep (r : rope) (start len : Z) :
  rope_rep r -> 0 <= start -> 0 <= len -> start + len <= length r ->
  exists r',
    rdelete r start len = Done r' /\ rope_rep r'
    /\ length r' = length r - len.
Proof.
  intros Hr Hs Hl Hsum.
  destruct (rdelete_rep r start len Hr Hs Hl Hsum) as (r' & H1 & H2 & _ & H3).
  exists r'; auto.
Qed.

Lemma insert_keeps_rep_witness :
  exists r', insert rope_ab_cd 1 rope_abc = Done r' /\ rope_rep r'
             /\ length r' = 7.
Proof.
  apply (insert_keeps_rep rope_ab_cd rope_abc 1);
    [concrete_rep | concrete_rep | concrete_size
     | vm_compute; discriminate | vm_compute; reflexivity].
Defined.

Lemma rdelete_keeps_rep_witness :
  exists r', rdelete rope_ab_cd 1 2 = Done r' /\ rope_rep r' /\ length r' = 2.
Proof.
  apply (rdelete_keeps_rep rope_ab_cd 1 2);
    [concrete_rep | lia | lia | vm_compute; discriminate].
Defined.

(** [append] leaves the same string as [insert] at the end of the rope: the
    string of the rope followed by that of the argument. *)
Theorem append_is_insert_at_end (r x : rope) :
  rope_rep r -> root_ x <> null ->
  exists r1 r2,
    append r x = Done r1
    /\ insert r (length r) x = Done r2
    /\ toString r1 = toString r ++ toString x
    /\ toString r2 = toString r1.
Proof.
  intros Hr Hx.
  pose proof (length_rep _ Hr) as Hlen.
  pose proof (slen_nonneg (toString r)) as H0.
  destruct (proj1 (append_toString r x [] (rope_rep_nonnull _ Hr) Hx))
    as (r1 & Ha & Hs1).
  destruct (insert_toString r x (length r) Hr Hx ltac:(lia)) as (r2 & Hi & Hs2).
  exists r1, r2; repeat split; auto.
  rewrite Hs2, Hs1, Hlen.
  unfold take, drop, slen.
  rewrite Nat2Z.id, firstn_all, skipn_all, app_nil_r; reflexivity.
Qed.

Lemma append_is_insert_at_end_witness :
  exists r1 r2,
    append rope_ab_cd rope_abc = Done r1
    /\ insert rope_ab_cd 4 rope_abc = Done r2
    /\ toString r1 = bytes "abcdabc"
    /\ toString r2 = toString r1.
Proof.
  apply (append_is_insert_at_end rope_ab_cd rope_abc);
    [concrete_rep | discriminate].
Defined.

(** ** substring on a rope that is a single leaf *)

(** On the rope the string constructor builds, [substring] of a valid range
    returns exactly that range of the string. *)
Theorem substring_single_leaf (s : str) (start len : Z) :
  0 <= start -> 0 <= len -> start + len <= slen s -> slen s < SIZE_MOD ->
  substring (rope_of_string s) start len = Ret (slice s start (start + len))
  /\ slen (slice s start (start + len)) = len.
Proof.
  intros Hs Hl Hsum Hfit.
  assert (Hslice : slice s start (start + len) = take len (drop start s))
    by (unfold slice; f_equal; lia).
  split.
  - unfold substring.
    change (length (rope_of_string s)) with (slen s).
    rewrite range_accepted by lia.
    cbn [rope_of_string root_ leaf getSubstring isLeaf is_null andb].
    rewrite Hslice.
    destruct (len <? slen s) eqn:E; [apply Z.ltb_lt in E | apply Z.ltb_ge in E].
    + unfold substr.
      destruct (slen s <? start) eqn:E2; [apply Z.ltb_lt in E2; lia |].
      rewrite Z.min_l by lia; reflexivity.
    + assert (start = 0) by lia; subst start.
      rewrite drop_0; unfold take, slen in *.
      rewrite firstn_all2 by lia; reflexivity.
  - rewrite Hslice, slen_take; [reflexivity |].
    rewrite slen_drop by lia; lia.
Qed.

Lemma substring_single_leaf_witness :
  substring (rope_of_string (bytes "This_is_a_test.")) 10 5 = Ret (bytes "test.")
  /\ slen (bytes "test.") = 5.
Proof.
  apply (substring_single_leaf (bytes "This_is_a_test.") 10 5);
    [lia | lia | vm_compute; discriminate | vm_compute; reflexivity].
Defined.

(** ** Out-of-range requests *)

Lemma range_beyond_rejected_witness :
  substring rope_ab_cd 1 120 = Throw invalid_argument
  /\ rdelete rope_ab_cd 1 120 = Raised invalid_argument rope_ab_cd.
Proof.
  apply (range_beyond_rejected rope_ab_cd 1 120);
    [right; concrete_rep | concrete_size | concrete_size
     | right; split; [unfold SIZE_MOD; lia | vm_compute; reflexivity]].
Defined.

(** When [start + len] wraps around [2^64] with [start] inside the string,
    [rdelete] passes its bounds test, moves the root out and throws
    [std::out_of_range] from the second split: the rope is left without
    root. *)
Theorem rdelete_wrapped_loses_root (r : rope) (start len : Z) :
  rope_rep r -> is_size start -> is_size len ->
  start <= length r -> SIZE_MOD <= start + len ->
  rdelete r start len = Raised out_of_range (mkRope null)
  /\ toString (mkRope null) = [].
Proof.
  intros Hr Hs Hl Hle Hsum; split; [| reflexivity].
  apply rdelete_wrapped; assumption.
Qed.

Lemma rdelete_wrapped_loses_root_witness :
  rdelete rope_ab_cd 2 (SIZE_MAX - 1) = Raised out_of_range (mkRope null)
  /\ toString (mkRope null) = [].
Proof.
  apply (rdelete_wrapped_loses_root rope_ab_cd 2 (SIZE_MAX - 1));
    [concrete_rep | concrete_size | unfold is_size, SIZE_MAX, SIZE_MOD; lia
     | vm_compute; discriminate | unfold SIZE_MAX; lia].
Defined.

(** [splitAt] does signal an index beyond the end: on a tree whose right
    spine ends in a leaf the walk reaches that leaf and [substr] throws
    [std::out_of_range]. *)
Theorem splitAt_beyond_throws (n : handle) (i : Z) :
  wf n -> fits n -> closed n -> getLength n < i < SIZE_MOD ->
  splitAt n i = Throw out_of_range.
Proof.
  intros Hwf Hfit Hcl Hi.
  rewrite getLength_wf in Hi by assumption.
  apply splitAt_beyond; assumption.
Qed.

Lemma splitAt_beyond_throws_witness :
  splitAt (root_ rope_ab_cd) 5 = Throw out_of_range.
Proof.
  apply (splitAt_beyond_throws (root_ rope_ab_cd) 5);
    [vm_compute; repeat split; try reflexivity; discriminate
     | unfold fits; vm_compute; reflexivity
     | vm_compute; exact I
     | split; [vm_compute; reflexivity | unfold SIZE_MOD; lia]].
Defined.

(** ** Comparison and round trips *)

Lemma str_eqb_eq (a b : str) : str_eqb a b = true <-> a = b.
Proof.
  revert b; induction a as [| x a IH]; intros [| y b]; simpl;
    try (split; [discriminate | discriminate]); [tauto |].
  rewrite andb_true_iff, IH; split.
  - intros (Hxy & ->); apply byte_dec_bl in Hxy; subst; reflexivity.
  - intros H; injection H as -> ->; split; [apply byte_dec_lb |]; reflexivity.
Qed.

(** [==] holds exactly when the two ropes hold the same string, whatever the
    shapes of their trees, and [!=] is its negation. *)
Lemma operator_eq_string (r s : rope) :
  (operator_eq r s = true <-> toString r = toString s)
  /\ operator_ne r s = negb (operator_eq r s).
Proof. split; [apply str_eqb_eq | reflexivity]. Qed.

Lemma take_take_app (i : Z) (s t : str) :
  0 <= i <= slen s -> take i (take i s ++ t) = take i s.
Proof.
  intros Hi; rewrite take_app_l by (rewrite slen_take; lia).
  unfold take, slen in *; rewrite firstn_firstn, Nat.min_id; reflexivity.
Qed.

Lemma drop_take_app (i : Z) (s t : str) :
  0 <= i <= slen s -> drop i (take i s ++ t) = t.
Proof.
  intros Hi; rewrite drop_app_r by (rewrite slen_take; lia).
  rewrite slen_take, Z.sub_diag by lia; apply drop_0.
Qed.

(** Inserting a rope and deleting the range it occupies gives back a rope
    that compares equal to the original. *)
Theorem insert_then_delete (r x : rope) (i : Z) :
  rope_rep r -> rope_rep x -> is_size i -> i <= length r ->
  length r + length x < SIZE_MOD ->
  exists r1 r2,
    insert r i x = Done r1
    /\ rdelete r1 i (length x) = Done r2
    /\ toString r2 = toString r
    /\ operator_eq r2 r = true.
Proof.
  intros Hr Hx Hi Hle Hsum.
  pose proof (length_rep _ Hr) as Hlr.
  pose proof (length_rep _ Hx) as Hlx.
  pose proof (slen_nonneg (toString x)) as Hx0.
  destruct (insert_rep r x i Hr Hx Hi Hle Hsum) as (r1 & Hins & Hr1 & Hs1 & Hl1).
  unfold is_size in Hi.
  destruct (rdelete_toString r1 i (length x) Hr1 ltac:(lia) ltac:(lia) ltac:(lia))
    as (r2 & Hdel & Hs2).
  assert (Hstr : toString r2 = toString r).
  { rewrite Hs2, Hs1, take_take_app by lia.
    rewrite <- (drop_drop i (length x)) by lia.
    rewrite drop_take_app by lia.
    rewrite Hlx, drop_app_r, Z.sub_diag, drop_0 by lia.
    apply take_drop. }
  exists r1, r2; repeat split; auto.
  apply str_eqb_eq; exact Hstr.
Qed.

Lemma insert_then_delete_witness :
  exists r1 r2,
    insert rope_ab_cd 1 rope_abc = Done r1
    /\ rdelete r1 1 3 = Done r2
    /\ toString r2 = bytes "abcd"
    /\ operator_eq r2 rope_ab_cd = true.
Proof.
  apply (insert_then_delete rope_ab_cd rope_abc 1);
    [concrete_rep | concrete_rep | concrete_size
     | vm_compute; discriminate | vm_compute; reflexivity].
Defined.

(** Deleting a range and inserting the deleted bytes at the same place gives
    back a rope that compares equal to the original. *)
Theorem delete_then_insert (r : rope) (start len : Z) :
  rope_rep r -> 0 <= start -> 0 <= len -> start + len <= length r ->
  exists r1 r2,
    rdelete r start len = Done r1
    /\ insert_str r1 start (slice (toString r) start (start + len)) = Done r2
    /\ toString r2 = toString r
    /\ operator_eq r2 r = true.
Proof.
  intros Hr Hs Hl Hsum.
  pose proof (length_rep _ Hr) as Hlr.
  pose proof Hr as (_ & _ & Hfit).
  pose proof (fits_bounds _ Hfit) as Hb.
  rewrite <- toString_root in Hb.
  destruct (rdelete_rep r start len Hr Hs Hl Hsum) as (r1 & Hdel & Hr1 & Hs1 & Hl1).
  destruct (insert_toString r1
              (rope_of_string (slice (toString r) start (start + len))) start
              Hr1 ltac:(discriminate) ltac:(lia)) as (r2 & Hins & Hs2).
  assert (Hstr : toString r2 = toString r).
  { rewrite Hs2, Hs1, take_take_app, drop_take_app by lia.
    change (toString (rope_of_string (slice (toString r) start (start + len))))
      with (slice (toString r) start (start + len)).
    unfold slice; replace (start + len - start) with len by lia.
    rewrite <- (drop_drop start len) by lia.
    rewrite take_drop; apply take_drop. }
  exists r1, r2; repeat split; auto.
  apply str_eqb_eq; exact Hstr.
Qed.

Lemma delete_then_insert_witness :
  exists r1 r2,
    rdelete rope_ab_cd 1 2 = Done r1
    /\ insert_str r1 1 (bytes "bc") = Done r2
    /\ toString r2 = bytes "abcd"
    /\ operator_eq r2 rope_ab_cd = true.
Proof.
  apply (delete_then_insert rope_ab_cd 1 2);
    [concrete_rep | lia | lia | vm_compute; discriminate].
Defined.

(** Edits with nothing to insert or delete return and leave the string as
    it was (the tree grows all the same). *)
Theorem empty_edits_keep_string (r : rope) (i : Z) :
  rope_rep r -> is_size i -> i <= length r ->
  (exists r', insert_str r i [] = Done r' /\ toString r' = toString r)
  /\ (exists r', rdelete r i 0 = Done r' /\ toString r' = toString r)
  /\ (exists r', append_str r [] = Done r' /\ toString r' = toString r).
Proof.
  intros Hr Hi Hle; unfold is_size in Hi.
  split; [| split].
  - destruct (insert_toString r (rope_of_string []) i Hr ltac:(discriminate)
                ltac:(lia)) as (r' & H1 & H2).
    exists r'; split; [exact H1 |].
    rewrite H2; simpl; apply take_drop.
  - destruct (rdelete_toString r i 0 Hr ltac:(lia) ltac:(lia) ltac:(lia))
      as (r' & H1 & H2).
    exists r'; split; [exact H1 |].
    rewrite H2, Z.add_0_r; apply take_drop.
  - destruct (proj2 (append_toString r r [] (rope_rep_nonnull _ Hr)
                      (rope_rep_nonnull _ Hr))) as (r' & H1 & H2).
    exists r'; split; [exact H1 |].
    rewrite H2; apply app_nil_r.
Qed.

Lemma empty_edits_keep_string_witness :
  (exists r', insert_str rope_ab_cd 2 [] = Done r' /\ toString r' = bytes "abcd")
  /\ (exists r', rdelete rope_ab_cd 2 0 = Done r' /\ toString r' = bytes "abcd")
  /\ (exists r', append_str rope_ab_cd [] = Done r' /\ toString r' = bytes "abcd").
Proof.
  apply (empty_edits_keep_string rope_ab_cd 2);
    [concrete_rep | concrete_size | vm_compute; discriminate].
Defined.

(** ** fib and the balance test *)

Lemma fibonacci_SS (n : nat) :
  fibonacci (S (S n)) = fibonacci n + fibonacci (S n).
Proof. reflexivity. Qed.

Lemma fib_recurrence (n : Z) :
  0 <= n <= 44 ->
  exists a b, fib n = Ret a /\ fib (n + 1) = Ret b /\ fib (n + 2) = Ret (a + b).
Proof.
  intros Hn.
  assert (Hk : exists k : nat, (k <= 44)%nat /\ n = Z.of_nat k)
    by (exists (Z.to_nat n); lia).
  destruct Hk as (k & Hk & ->).
  do 45 (destruct k as [| k];
         [do 2 eexists;
          split; [vm_compute; reflexivity |];
          split; [vm_compute; reflexivity | vm_compute; reflexivity] |]).
  lia.
Qed.

Lemma fib_overflow (n : Z) : 47 <= n -> fib n = Undef.
Proof.
  intros Hn; unfold fib.
  destruct (n =? 0) eqn:E; [apply Z.eqb_eq in E; lia |].
  replace (Z.to_nat (n - 1)) with (46 + Z.to_nat (n - 47))%nat by lia.
  generalize (Z.to_nat (n - 47)); intros m.
  vm_compute; reflexivity.
Qed.

Lemma fib_fibonacci_pair (k : nat) :
  (k <= 45)%nat ->
  fib (Z.of_nat k) = Ret (fibonacci k)
  /\ fib (Z.of_nat (S k)) = Ret (fibonacci (S k)).
Proof.
  induction k as [| k IH]; intros Hk; [split; reflexivity |].
  destruct (IH ltac:(lia)) as (H1 & H2).
  split; [exact H2 |].
  destruct (fib_recurrence (Z.of_nat k) ltac:(lia)) as (a & b & Ha & Hb & Hab).
  replace (Z.of_nat k + 1) with (Z.of_nat (S k)) in Hb by lia.
  replace (Z.of_nat k + 2) with (Z.of_nat (S (S k))) in Hab by lia.
  rewrite H1 in Ha; rewrite H2 in Hb.
  injection Ha as <-; injection Hb as <-.
  rewrite fibonacci_SS; exact Hab.
Qed.

(** [fib(n)] is the n-th Fibonacci number for every [n] up to 46; from 47 on
    the addition overflows [int], which is undefined behaviour. *)
Theorem fib_spec (n : Z) :
  (0 <= n <= 46 -> fib n = Ret (fibonacci (Z.to_nat n)))
  /\ (47 <= n -> fib n = Undef).
Proof.
  split; [| apply fib_overflow].
  intros Hn.
  destruct (Z.eq_dec n 46) as [-> | Hne].
  - exact (proj2 (fib_fibonacci_pair 45 ltac:(lia))).
  - pose proof (proj1 (fib_fibonacci_pair (Z.to_nat n) ltac:(lia))) as H.
    rewrite Z2Nat.id in H by lia; exact H.
Qed.

Lemma fib_spec_witness :
  fib 10 = Ret 55 /\ fib 50 = Undef.
Proof.
  split.
  - apply (fib_spec 10); lia.
  - apply (fib_spec 50); lia.
Defined.

(** A rope built from a non-empty string is balanced, and [balance] leaves
    it as it is. *)
Theorem single_leaf_balanced (s : str) (fuel : nat) :
  s <> [] ->
  isBalanced (rope_of_string s) = Ret true
  /\ balance fuel (rope_of_string s) = Done (rope_of_string s).
Proof.
  intros Hs.
  assert (Hb : isBalanced (rope_of_string s) = Ret true).
  { unfold isBalanced.
    change (length (rope_of_string s)) with (slen s).
    cbn [rope_of_string root_ leaf getDepth isLeaf is_null andb].
    change (fib (wrap (0 + 2))) with (Ret (A := Z) 1); cbn [bind].
    destruct (1 <=? slen s) eqn:E; [reflexivity |].
    apply Z.leb_gt in E; destruct s; [congruence | unfold slen in E; simpl in E; lia]. }
  split; [exact Hb | unfold balance; rewrite Hb; reflexivity].
Qed.

Lemma single_leaf_balanced_witness :
  isBalanced rope_abc = Ret true /\ balance 0 rope_abc = Done rope_abc.
Proof. apply (single_leaf_balanced (bytes "abc") 0); discriminate. Defined.

(** ** balance returns *)

Lemma vec_get_total (A : Type) (v : list A) (i : Z) :
  0 <= i < Z.of_nat (List.length v) -> exists x, vec_get v i = Ret x.
Proof.
  intros Hi; unfold vec_get.
  destruct (i <? Z.of_nat (List.length v)) eqn:E; [| apply Z.ltb_ge in E; lia].
  destruct (nth_error v (Z.to_nat i)) as [x |] eqn:En; [exists x; reflexivity |].
  apply nth_error_None in En; lia.
Qed.

Lemma vec_get_det (A : Type) (v : list A) (i : Z) (x y : A) :
  vec_get v i = Ret x -> vec_get v i = Ret y -> x = y.
Proof. congruence. Qed.

Lemma nth_error_vec_set_nat_same (A : Type) (v : list A) :
  forall (i : nat) (x : A),
    (i < List.length v)%nat -> nth_error (vec_set_nat v i x) i = Some x.
Proof.
  induction v as [| y v IH]; intros i x Hi; [simpl in Hi; lia |].
  destruct i; simpl; [reflexivity | apply IH; simpl in Hi; lia].
Qed.

Lemma nth_error_vec_set_nat_other (A : Type) (v : list A) :
  forall (i j : nat) (x : A),
    j <> i -> nth_error (vec_set_nat v i x) j = nth_error v j.
Proof.
  induction v as [| y v IH]; intros i j x Hne; [reflexivity |].
  destruct i, j; simpl; try reflexivity; [congruence | apply IH; congruence].
Qed.

Lemma vec_get_vec_set_same (A : Type) (v : list A) (i : Z) (x : A) :
  0 <= i < Z.of_nat (List.length v) -> vec_get (vec_set v i x) i = Ret x.
Proof.
  intros Hi; unfold vec_get, vec_set.
  rewrite vec_set_nat_length.
  destruct (i <? Z.of_nat (List.length v)) eqn:E; [| apply Z.ltb_ge in E; lia].
  rewrite nth_error_vec_set_nat_same by lia; reflexivity.
Qed.

Lemma vec_get_vec_set_other (A : Type) (v : list A) (i j : Z) (x : A) :
  0 <= i -> 0 <= j -> j <> i -> vec_get (vec_set v i x) j = vec_get v j.
Proof.
  intros Hi Hj Hne; unfold vec_get, vec_set.
  rewrite vec_set_nat_length, nth_error_vec_set_nat_other by lia; reflexivity.
Qed.

Lemma occupied_clear_other (nodes : list handle) (cm i : Z) :
  0 <= i -> 0 <= cm -> cm <> i ->
  occupied nodes cm -> occupied (vec_set nodes i null) cm.
Proof.
  intros Hi Hcm Hne (p & Hp & Hn); exists p.
  rewrite vec_get_vec_set_other by assumption; auto.
Qed.

Lemma occupied_nonneg (nodes : list handle) (cm : Z) :
  occupied nodes cm -> cm < Z.of_nat (List.length nodes).
Proof. intros (p & Hp & _); apply (vec_get_bound _ _ _ _ Hp). Qed.

Lemma slot_within (nodes : list handle) (j : nat) (p : handle) :
  nth_error nodes j = Some p ->
  slen (treeToString p) <= slen (slots_str nodes).
Proof.
  intros H; destruct (nth_error_split _ _ H) as (l1 & l2 & -> & _).
  rewrite slots_str_app; simpl; rewrite !slen_app.
  pose proof (slen_nonneg (slots_str l1)); pose proof (slen_nonneg (slots_str l2)).
  lia.
Qed.

(** What [absorb] returns when the new length reaches the next interval. *)
Lemma absorb_exact (iv : list Z) (nodes : list handle) (slot acc : handle)
  (len i bound : Z) (pre : str) :
  loop_inv iv nodes acc len i pre ->
  vec_get nodes i = Ret slot -> slot <> null ->
  vec_get iv (wrap (i + 1)) = Ret bound ->
  bound <= slen (treeToString slot) + len ->
  absorb iv nodes slot acc i =
  Ret (vec_set nodes i null, node (getLength slot) slot acc [],
       slen (treeToString slot) + len).
Proof.
  intros (Hs & Hb & Hl & Hi & Hlo & Hiv & Hstr & Hfit) Hget Hslot Hbound Hle.
  destruct (proj2 Hs _ _ (vec_get_nth _ _ _ _ Hget) Hslot) as (Hbs & _).
  pose proof (slot_within _ _ _ (vec_get_nth _ _ _ _ Hget)) as Hin.
  pose proof (slen_nonneg (treeToString slot)) as H3.
  pose proof (slen_nonneg (treeToString acc)) as H4.
  rewrite <- Hstr, slen_app in Hfit.
  unfold absorb.
  rewrite !clone_nonnull by (apply built_nonnull; assumption).
  cbn [bind].
  rewrite concat_nonnull by exact Hslot.
  cbn [bind]; rewrite Hbound; cbn [bind].
  set (acc2 := node (getLength slot) slot acc []).
  assert (Hb2 : built acc2)
    by (apply (concat_built slot acc); auto; apply concat_nonnull; exact Hslot).
  assert (Hstr2 : treeToString acc2 = treeToString slot ++ treeToString acc)
    by (apply treeToString_internal; exact Hslot).
  assert (Hlen2 : getLength acc2 = slen (treeToString slot) + len).
  { rewrite built_getLength, Hstr2, slen_app; [lia | exact Hb2 |].
    unfold fits; rewrite Hstr2, slen_app; lia. }
  rewrite Hlen2.
  destruct (bound <=? slen (treeToString slot) + len) eqn:E;
    [reflexivity | apply Z.leb_gt in E; lia].
Qed.

(** An occupied slot and [acc] together reach the next interval. *)
Lemma must_clear (iv : list Z) (nodes : list handle) (slot acc : handle)
  (len i bound : Z) (pre : str) :
  intervals_ok iv ->
  loop_inv iv nodes acc len i pre ->
  vec_get nodes i = Ret slot -> slot <> null ->
  vec_get iv (i + 1) = Ret bound ->
  bound <= slen (treeToString slot) + len.
Proof.
  intros (_ & Hratio & _) (Hs & Hb & Hl & Hi & Hlo & Hiv & Hstr & Hfit)
         Hget Hslot Hbound.
  pose proof (vec_get_bound _ _ _ _ Hget) as Hlt.
  rewrite (proj1 Hs) in Hlt.
  apply vec_get_nth in Hbound.
  replace (Z.to_nat (i + 1)) with (S (Z.to_nat i)) in Hbound by lia.
  destruct (nth_error iv (Z.to_nat i)) as [a |] eqn:Ea;
    [| apply nth_error_None in Ea; lia].
  destruct (Hratio _ _ _ Ea Hbound) as (_ & H2a).
  pose proof (proj2 (proj2 Hs _ _ (vec_get_nth _ _ _ _ Hget) Hslot) a Ea).
  specialize (Hiv a eq_refl); lia.
Qed.

Section BalanceReturns.

Variables (iv : list Z) (max_i L : Z).
Hypothesis Hiv : intervals_ok iv.
Hypothesis Hmax : max_i = Z.of_nat (List.length iv) - 1.
Hypothesis Hmax0 : 0 <= max_i.
Hypothesis Htop : forall a, nth_error iv (Z.to_nat max_i) = Some a -> L < a.

Lemma max_i_size : max_i < SIZE_MOD.
Proof.
  destruct Hiv as (_ & _ & Hlen); unfold INT_MAX, SIZE_MOD in *; lia.
Qed.

(** The top slot is never occupied: its interval starts above the length
    of the whole string. *)
Lemma occupied_below_top (nodes : list handle) (acc : handle) (len i : Z)
  (pre : str) (j : Z) (p : handle) :
  loop_inv iv nodes acc len i pre -> slen pre <= L ->
  vec_get nodes j = Ret p -> p <> null -> 0 <= j -> j < max_i.
Proof.
  intros (Hs & Hb & Hl & Hi & Hlo & Hivi & Hstr & Hfit) HpreL Hget Hp Hj.
  pose proof (vec_get_bound _ _ _ _ Hget) as Hlt.
  rewrite (proj1 Hs) in Hlt.
  destruct (Z.eq_dec j max_i) as [-> | Hne]; [| lia].
  exfalso.
  destruct (nth_error iv (Z.to_nat max_i)) as [a |] eqn:Ea;
    [| apply nth_error_None in Ea; lia].
  pose proof (proj2 (proj2 Hs _ _ (vec_get_nth _ _ _ _ Hget) Hp) a Ea) as Hle.
  pose proof (slot_within _ _ _ (vec_get_nth _ _ _ _ Hget)) as Hin.
  pose proof (Htop a eq_refl) as Hgt.
  pose proof (slen_nonneg (treeToString acc)).
  rewrite <- Hstr, slen_app in HpreL; lia.
Qed.

Lemma find_slot_total (pre : str) (fuel : nat) :
  slen pre <= L ->
  forall (nodes : list handle) (acc : handle) (len i : Z),
    loop_inv iv nodes acc len i pre -> i <= max_i ->
    max_i - i < Z.of_nat fuel ->
    exists nodes' acc' len' i',
      find_slot fuel iv max_i nodes acc len i = Ret (nodes', acc', len', i')
      /\ i <= i' <= max_i
      /\ (ready iv max_i len i -> i + 1 <= i')
      /\ (forall cm, 0 <= cm ->
                     top_ok nodes cm i (ready iv max_i len i) ->
                     top_ok nodes' cm i' False).
Proof.
  intros HpreL.
  pose proof max_i_size as Hsz.
  induction fuel as [| fuel IH]; intros nodes acc len i Hinv Hile Hfuel; [lia |].
  pose proof Hinv as (Hs & Hb & Hl & Hi & Hlo & Hivi & Hstr & Hfit).
  cbn [find_slot].
  destruct (i <? max_i) eqn:Elt; [apply Z.ltb_lt in Elt | apply Z.ltb_ge in Elt].
  2: { exists nodes, acc, len, i.
       split; [reflexivity |]. split; [lia |]. split; [intros (Hlt & _); lia |].
       intros cm Hcm [H | [H | [H | (_ & (Hlt & _))]]];
         [left; exact H | right; left; exact H | right; right; left; exact H | lia]. }
  rewrite wrap_small by lia.
  destruct (vec_get_total _ iv (i + 1) ltac:(lia)) as (bound & Hbound).
  rewrite Hbound; cbn [bind].
  destruct (bound <=? len) eqn:Ele; [apply Z.leb_le in Ele | apply Z.leb_gt in Ele].
  2: { exists nodes, acc, len, i.
       split; [reflexivity |]. split; [lia |].
       split; [intros (_ & b' & Hb' & Hle');
               rewrite Hbound in Hb'; injection Hb' as <-; lia |].
       intros cm Hcm [H | [H | [H | (_ & (_ & b' & Hb' & Hle'))]]];
         [left; exact H | right; left; exact H | right; right; left; exact H |].
       rewrite Hbound in Hb'; injection Hb' as <-; lia. }
  assert (Hnext : forall len2, len <= len2 ->
            forall a, nth_error iv (Z.to_nat (i + 1)) = Some a -> a <= len2).
  { intros len2 Hl2 a Ha.
    rewrite (vec_get_nth _ _ _ _ Hbound) in Ha; injection Ha as <-; lia. }
  destruct (vec_get_total _ nodes i ltac:(rewrite (proj1 Hs); lia)) as (slot & Hget).
  rewrite Hget; cbn [bind].
  destruct (is_null slot) eqn:E.
  - assert (slot = null) by (destruct slot; [reflexivity | discriminate E]); subst slot.
    destruct (IH nodes acc len (i + 1)
                (loop_inv_advance _ _ _ _ _ _ Hinv Hget (Hnext len ltac:(lia)))
                ltac:(lia) ltac:(lia))
      as (n' & a' & l' & i' & Hf & Hi' & _ & Htop').
    exists n', a', l', i'.
    split; [exact Hf |]. split; [lia |]. split; [intros _; lia |].
    intros cm Hcm Ht; apply Htop'; [exact Hcm |].
    destruct Ht as [H | [H | [H | (H1 & _)]]];
      [left; exact H | right; left; exact H
       | right; right; left; lia | right; right; left; lia].
  - assert (Hslot : slot <> null) by (destruct slot; [discriminate E | discriminate]).
    pose proof (slen_nonneg (treeToString slot)) as Hs0.
    assert (Hbw : vec_get iv (wrap (i + 1)) = Ret bound)
      by (rewrite wrap_small by lia; exact Hbound).
    pose proof (absorb_exact iv nodes slot acc len i bound pre
                  Hinv Hget Hslot Hbw ltac:(lia)) as Habs.
    rewrite Habs; cbn [bind].
    destruct (absorb_inv _ _ _ _ _ _ _ _ _ _ Hinv Hget E Habs)
      as (Hinv1 & Hnull & Hlen & _).
    { intros b' Hb'; rewrite Hbw in Hb'; injection Hb' as <-; lia. }
    destruct (IH _ _ _ (i + 1)
                (loop_inv_advance _ _ _ _ _ _ Hinv1 Hnull (Hnext _ Hlen))
                ltac:(lia) ltac:(lia))
      as (n' & a' & l' & i' & Hf & Hi' & _ & Htop').
    exists n', a', l', i'.
    split; [exact Hf |]. split; [lia |]. split; [intros _; lia |].
    intros cm Hcm Ht; apply Htop'; [exact Hcm |].
    destruct Ht as [(Hall & _) | [H | [H | (H1 & _)]]].
    + pose proof (vec_get_Forall _ _ _ _ _ Hall Hget); congruence.
    + destruct (Z.eq_dec cm i) as [-> | Hne];
        [right; right; left; lia
        | right; left; apply occupied_clear_other; auto].
    + right; right; left; lia.
    + right; right; left; lia.
Qed.

Lemma place_total (pre : str) (fuel : nat) :
  slen pre <= L ->
  forall (nodes : list handle) (acc : handle) (len i cm : Z),
    loop_inv iv nodes acc len i pre -> i <= max_i -> 0 <= cm ->
    top_ok nodes cm i (ready iv max_i len i) ->
    (ready iv max_i len i /\ max_i - i < Z.of_nat fuel)
    \/ max_i - i + 1 < Z.of_nat fuel ->
    exists nodes' cm',
      place fuel iv max_i nodes acc len i cm = Ret (nodes', cm')
      /\ occupied nodes' cm'.
Proof.
  intros HpreL.
  pose proof max_i_size as Hsz.
  induction fuel as [| fuel IH]; intros nodes acc len i cm Hinv Hile Hcm Ht Hf;
    [destruct Hf; lia |].
  destruct (find_slot_total pre (S fuel) HpreL nodes acc len i Hinv Hile
              ltac:(destruct Hf; lia))
    as (n1 & a1 & l1 & i1 & Hfind & Hi1 & Hrdy & Htop1).
  destruct (find_slot_inv iv max_i pre (S fuel) Hsz _ _ _ _ _ _ _ _ Hinv Hfind)
    as (Hinv1 & _).
  specialize (Htop1 cm Hcm Ht).
  pose proof Hinv1 as (Hs & Hb & Hl & Hi & Hlo & Hivi & Hstr & Hfit).
  cbn [place]; rewrite Hfind; cbn [bind].
  destruct (vec_get_total _ n1 i1 ltac:(rewrite (proj1 Hs); lia)) as (slot & Hget).
  rewrite Hget; cbn [bind].
  destruct (is_null slot) eqn:E.
  - assert (slot = null) by (destruct slot; [reflexivity | discriminate E]); subst slot.
    eexists; eexists; split; [reflexivity |].
    assert (Hplaced : occupied (vec_set n1 i1 a1) i1).
    { exists a1; split; [| apply built_nonnull; exact Hb].
      apply vec_get_vec_set_same; rewrite (proj1 Hs); lia. }
    destruct (cm <? i1) eqn:Ecm; [exact Hplaced | apply Z.ltb_ge in Ecm].
    destruct Htop1 as [(Hall & ->) | [Hocc | [Hlt | (_ & [])]]].
    + assert (i1 = 0) by lia; subst i1; exact Hplaced.
    + destruct Hocc as (p & Hp & Hpn).
      assert (cm <> i1) by (intros ->; rewrite Hget in Hp; congruence).
      exists p; rewrite vec_get_vec_set_other by lia; auto.
    + lia.
  - assert (Hslot : slot <> null) by (destruct slot; [discriminate E | discriminate]).
    pose proof (occupied_below_top _ _ _ _ _ _ _ Hinv1 HpreL Hget Hslot Hi) as Hlt.
    destruct (vec_get_total _ iv (i1 + 1) ltac:(lia)) as (bound & Hbound).
    assert (Hbw : vec_get iv (wrap (i1 + 1)) = Ret bound)
      by (rewrite wrap_small by lia; exact Hbound).
    pose proof (must_clear _ _ _ _ _ _ _ _ Hiv Hinv1 Hget Hslot Hbound) as Hclear.
    pose proof (absorb_exact iv n1 slot a1 l1 i1 bound pre
                  Hinv1 Hget Hslot Hbw Hclear) as Habs.
    rewrite Habs; cbn [bind].
    destruct (absorb_inv _ _ _ _ _ _ _ _ _ _ Hinv1 Hget E Habs)
      as (Hinv2 & Hnull & Hlen & _).
    { intros b' Hb'; rewrite Hbw in Hb'; injection Hb' as <-; exact Hclear. }
    assert (Hready : ready iv max_i (slen (treeToString slot) + l1) i1)
      by (split; [exact Hlt | exists bound; auto]).
    apply (IH _ _ _ i1 cm Hinv2 ltac:(lia) Hcm).
    + destruct Htop1 as [(Hall & _) | [Hocc | [Hc | (_ & [])]]].
      * pose proof (vec_get_Forall _ _ _ _ _ Hall Hget); congruence.
      * destruct (Z.eq_dec cm i1) as [-> | Hne];
          [right; right; right; auto
          | right; left; apply occupied_clear_other; auto].
      * right; right; left; exact Hc.
    + left; split; [exact Hready |].
      destruct Hf as [(Hr & Hfu) | Hfu]; [specialize (Hrdy Hr) |]; lia.
Qed.

Lemma slots_inv_slot_ok (nodes : list handle) :
  slots_inv iv nodes -> Forall slot_ok nodes.
Proof.
  intros (_ & Hs); apply Forall_forall; intros p Hp.
  destruct (In_nth_error _ _ Hp) as (j & Hj).
  destruct p as [| w l r f]; [left; reflexivity |].
  right; apply (Hs j); [exact Hj | discriminate].
Qed.

Lemma insert_leaves_total (fuel : nat) (leaves : list handle) :
  max_i + 1 < Z.of_nat fuel ->
  forall (nodes : list handle) (cm : Z),
    slots_inv iv nodes -> cm_inv nodes cm -> Forall built leaves ->
    slen (slots_str nodes ++ List.concat (map treeToString leaves)) <= L ->
    L < SIZE_MOD ->
    (Forall (eq null) nodes /\ cm = 0) \/ occupied nodes cm ->
    exists nodes' cm',
      insert_leaves fuel iv max_i leaves nodes cm = Ret (nodes', cm')
      /\ ((Forall (eq null) nodes' /\ cm' = 0) \/ occupied nodes' cm').
Proof.
  intros Hfuel.
  pose proof max_i_size as Hsz.
  induction leaves as [| lf rest IH]; intros nodes cm Hs Hcm Hl HpreL HL Ht.
  - exists nodes, cm; split; [reflexivity | exact Ht].
  - apply Forall_cons_iff in Hl; destruct Hl as (Hlf & Hrest).
    cbn [insert_leaves].
    simpl map in HpreL; simpl List.concat in HpreL.
    pose proof (slen_nonneg (slots_str nodes)) as H1.
    pose proof (slen_nonneg (treeToString lf)) as H2.
    pose proof (slen_nonneg (List.concat (map treeToString rest))) as H3.
    rewrite !slen_app in HpreL.
    assert (Hlen : getLength lf = slen (treeToString lf))
      by (apply built_getLength; [exact Hlf | unfold fits; lia]).
    rewrite Hlen.
    destruct (0 <? slen (treeToString lf)) eqn:E;
      [apply Z.ltb_lt in E | apply Z.ltb_ge in E].
    + rewrite clone_nonnull by (apply built_nonnull; exact Hlf).
      cbn [bind].
      assert (Hinv : loop_inv iv nodes lf (slen (treeToString lf)) 0
                       (slots_str nodes ++ treeToString lf)).
      { split; [exact Hs |].
        split; [exact Hlf |].
        split; [reflexivity |].
        split; [lia |].
        split; [simpl; constructor |].
        split; [intros a Ha; rewrite (proj1 Hiv a Ha); lia |].
        split; [reflexivity | rewrite slen_app; lia]. }
      destruct (place_total (slots_str nodes ++ treeToString lf) fuel
                  ltac:(rewrite slen_app; lia) nodes lf _ 0 cm Hinv Hmax0
                  (proj1 Hcm)
                  ltac:(destruct Ht as [H | H];
                        [left; exact H | right; left; exact H])
                  ltac:(right; lia))
        as (n1 & cm1 & Hplace & Hocc).
      rewrite Hplace; cbn [bind].
      destruct (place_inv _ _ _ _ Hiv Hsz _ _ _ _ _ _ _ Hinv Hcm Hplace)
        as (Hs1 & Hcm1 & Hstr1).
      apply (IH n1 cm1 Hs1 Hcm1 Hrest); [| exact HL | right; exact Hocc].
      rewrite Hstr1, !slen_app; lia.
    + apply (IH nodes cm Hs Hcm Hrest); [| exact HL | exact Ht].
      rewrite slen_app; lia.
Qed.

End BalanceReturns.

(** The loop of [buildFibList] leaves when [a] exceeds [len]; the table it
    returns ends with that entry. *)
Lemma buildFibList_loop_total (len : Z) (fuel : nat) :
  1 <= len -> 3 * len <= INT_MAX ->
  forall (a b : Z) (acc : list Z),
    fib_state a b acc -> a <= 2 * len ->
    3 * len + 2 - (a + b) <= Z.of_nat fuel -> (1 <= fuel)%nat ->
    exists iv0 top,
      buildFibList_loop fuel a b len acc = Ret (iv0 ++ [top])
      /\ len < top
      /\ Z.of_nat (List.length (iv0 ++ [top])) <= 2 * len.
Proof.
  intros Hlen Hint.
  induction fuel as [| fuel IH]; intros a b acc Hst Ha Hfuel Hpos; [lia |].
  cbn [buildFibList_loop].
  pose proof Hst as (Ha0 & Hb & Hcase & Hlacc & _).
  destruct (a <=? len) eqn:E; [apply Z.leb_le in E | apply Z.leb_gt in E].
  - cbv zeta.
    assert (Hsum : a + b <= 3 * len /\ b <= 2 * len /\ 1 <= b)
      by (destruct Hcase as [(_ & ? & ?) | (? & ? & ? & _)]; lia).
    unfold int_add at 1.
    destruct (a + b <=? INT_MAX) eqn:Es; [| apply Z.leb_gt in Es; lia].
    cbn [bind].
    apply IH; [apply fib_state_step; [exact Hst | lia] | lia | lia | lia].
  - destruct Hcase as [(_ & ? & _) | (_ & _ & _ & acc0 & ->)]; [lia |].
    exists acc0, a; split; [reflexivity | split; lia].
Qed.

Lemma buildFibList_total (fuel : nat) (len : Z) :
  1 <= len -> 3 * len <= INT_MAX -> 3 * len + 1 <= Z.of_nat fuel ->
  exists iv0 top,
    buildFibList fuel len = Ret (iv0 ++ [top])
    /\ len < top
    /\ Z.of_nat (List.length (iv0 ++ [top])) <= 2 * len.
Proof.
  intros Hlen Hint Hfuel.
  apply buildFibList_loop_total; try lia.
  unfold fib_state, INT_MAX.
  split; [lia |]. split; [lia |].
  split; [left; repeat split; lia |].
  split; [simpl; lia |].
  split; [intros x Hx; discriminate Hx |].
  intros j x y Hx Hy; destruct j; discriminate Hx.
Qed.

(** The closing loop of [balance] runs through: it concatenates onto a tree,
    or every slot is empty. *)
Lemma gather_total (nodes : list handle) (idx : nat) :
  Forall slot_ok nodes -> (idx < List.length nodes)%nat ->
  forall acc : handle,
    slot_ok acc -> (acc = null -> Forall (eq null) nodes) ->
    exists h, gather idx nodes acc = Ret h.
Proof.
  intros Hn.
  induction idx as [| idx IH]; intros Hidx acc Hacc Hnull; cbn [gather];
    destruct (vec_get_total _ nodes (Z.of_nat _) ltac:(split; [lia | apply Nat2Z.inj_lt; exact Hidx]))
      as (slot & Hget);
    rewrite Hget; cbn [bind];
    pose proof (vec_get_Forall _ _ _ _ _ Hn Hget) as Hslot;
    assert (Hstep : exists acc',
               (if is_null slot then Ret acc
                else tmp <- clone slot ;; concat acc tmp) = Ret acc'
               /\ slot_ok acc' /\ (acc' = null -> Forall (eq null) nodes)).
  1, 3: destruct (is_null slot) eqn:E; [exists acc; auto |];
        pose proof (slot_ok_built _ Hslot E) as Hb;
        rewrite clone_nonnull by (apply built_nonnull; exact Hb);
        cbn [bind];
        destruct acc as [| w l r f];
        [pose proof (vec_get_Forall _ _ _ _ _ (Hnull eq_refl) Hget) as Hs;
         subst slot; discriminate E |];
        eexists; split; [reflexivity |];
        split; [right | intros H; discriminate H];
        destruct Hacc as [Hacc | Hacc]; [discriminate Hacc |];
        apply (concat_built _ _ _ Hacc Hb eq_refl).
  - destruct Hstep as (acc' & -> & _); cbn [bind]; exists acc'; reflexivity.
  - destruct Hstep as (acc' & -> & Hok & Hn'); cbn [bind].
    apply IH; [lia | exact Hok | exact Hn'].
Qed.

(** The body of [balance] returns a root for a rope of at least one byte
    whose length leaves room for the [int] additions of [buildFibList]. *)
Lemma rebuild_total (fuel : nat) (r : rope) :
  rope_rep r -> 1 <= length r -> 3 * length r <= INT_MAX ->
  3 * length r + 2 <= Z.of_nat fuel ->
  exists h, rebuild fuel r = Ret h.
Proof.
  intros Hr Hlen Hint Hfuel.
  pose proof Hr as (Hwf & Hcl & Hfit).
  pose proof (length_rep r Hr) as HL; rewrite toString_root in HL.
  destruct (buildFibList_total fuel (length r) Hlen Hint ltac:(lia))
    as (iv0 & top & Hb & Htop & Hsize).
  pose proof (buildFibList_ok _ _ _ Hb) as Hiv.
  unfold rebuild; rewrite Hb; cbn [bind].
  remember (iv0 ++ [top]) as iv eqn:Eiv.
  assert (Hn : Z.of_nat (List.length iv) = Z.of_nat (List.length iv0) + 1)
    by (rewrite Eiv, length_app; simpl; lia).
  assert (Hleaves : match root_ r with
                    | null => Undef
                    | node _ _ _ _ => Ret (getLeaves (root_ r))
                    end = Ret (getLeaves (root_ r)))
    by (pose proof (rope_rep_nonnull r Hr) as Hnn;
        destruct (root_ r); [contradiction | reflexivity]).
  rewrite Hleaves; cbn [bind]; cbv zeta.
  rewrite wrap_small by (unfold INT_MAX, SIZE_MOD in *; lia).
  assert (Hlast : forall a,
             nth_error iv (Z.to_nat (Z.of_nat (List.length iv) - 1)) = Some a ->
             length r < a).
  { intros a Ha.
    replace (Z.to_nat (Z.of_nat (List.length iv) - 1)) with (List.length iv0) in Ha
      by lia.
    rewrite Eiv, nth_error_app2, Nat.sub_diag in Ha by lia.
    injection Ha as <-; exact Htop. }
  destruct (insert_leaves_total iv (Z.of_nat (List.length iv) - 1) (length r)
              Hiv eq_refl ltac:(lia) Hlast fuel (getLeaves (root_ r)) ltac:(lia)
              (repeat null (List.length iv)) 0
              (slots_inv_empty iv)
              (conj (Z.le_refl 0) (Forall_skipn_all _ _ _ _ (repeat_null_all _)))
              (leaves_built _ Hwf)
              ltac:(rewrite (slots_str_null _ (repeat_null_all _)), leaves_str;
                    simpl; lia)
              ltac:(unfold INT_MAX, SIZE_MOD in *; lia)
              (or_introl (conj (repeat_null_all _) eq_refl)))
    as (nodes1 & cm & Hins & Hcm).
  rewrite Hins; cbn [bind].
  destruct (insert_leaves_inv iv (Z.of_nat (List.length iv) - 1) fuel
              (getLeaves (root_ r)) Hiv
              ltac:(unfold INT_MAX, SIZE_MOD in *; lia) _ _ _ _
              (slots_inv_empty iv)
              (conj (Z.le_refl 0) (Forall_skipn_all _ _ _ _ (repeat_null_all _)))
              (leaves_built _ Hwf)
              ltac:(rewrite (slots_str_null _ (repeat_null_all _)), leaves_str;
                    exact Hfit)
              Hins) as (Hs1 & (Hcm0 & _) & _).
  pose proof (slots_inv_slot_ok _ _ Hs1) as Hok.
  assert (Hget : exists acc, vec_get nodes1 cm = Ret acc
                             /\ (acc = null -> Forall (eq null) nodes1)).
  { destruct Hcm as [(Hall & ->) | (p & Hp & Hpn)].
    - destruct (vec_get_total _ nodes1 0 ltac:(rewrite (proj1 Hs1); lia))
        as (acc & Hacc).
      exists acc; auto.
    - exists p; split; [exact Hp | intros ->; congruence]. }
  destruct Hget as (acc & Hget & Hnull).
  rewrite Hget; cbn [bind].
  pose proof (vec_get_bound _ _ _ _ Hget) as Hlt.
  rewrite (proj1 Hs1) in Hlt.
  destruct Hiv as (_ & _ & Hivlen).
  rewrite int_of_size_small by lia.
  destruct (cm <? 0) eqn:E; [apply Z.ltb_lt in E; lia |].
  apply gather_total.
  - apply vec_set_Forall; [exact Hok | apply slot_ok_null].
  - unfold vec_set; rewrite vec_set_nat_length, (proj1 Hs1); lia.
  - exact (vec_get_Forall _ _ _ _ _ Hok Hget).
  - intros Hacc; apply vec_set_Forall; [exact (Hnull Hacc) | reflexivity].
Qed.

(** [balance] returns on every rope of one byte or more whose depth and
    length stay within what [fib] and [buildFibList] compute in an [int]:
    the rope it leaves holds the same string and satisfies the
    representation invariant, and when the tree was rebuilt, every node of
    it that is not a leaf has both children. *)
Theorem balance_returns (fuel : nat) (r : rope) :
  rope_rep r -> 1 <= length r -> 3 * length r <= INT_MAX ->
  getDepth (root_ r) <= 44 ->
  3 * length r + 2 <= Z.of_nat fuel ->
  exists r',
    balance fuel r = Done r'
    /\ toString r' = toString r
    /\ rope_rep r'
    /\ (r' = r \/ built (root_ r')).
Proof.
  intros Hr Hlen Hint Hdepth Hfuel.
  pose proof Hr as (Hwf & Hcl & Hfit).
  pose proof (rope_rep_nonnull r Hr) as Hnn.
  pose proof (getDepth_nonneg (root_ r)) as Hd0.
  destruct (fib_small (wrap (getDepth (root_ r) + 2))
              ltac:(rewrite wrap_small by (unfold SIZE_MOD; lia); lia))
    as (f & Hf & _).
  assert (Hbal : isBalanced r = Ret (f <=? length r)).
  { unfold isBalanced.
    destruct (root_ r) eqn:Eroot; [contradiction |].
    rewrite Hf; reflexivity. }
  unfold balance; rewrite Hbal.
  destruct (f <=? length r).
  - exists r; repeat split; auto.
  - destruct (rebuild_total fuel r Hr Hlen Hint Hfuel) as (h & Hh).
    rewrite Hh; exists (mkRope h).
    pose proof (rebuild_string fuel r h Hwf Hfit Hh) as Hstr.
    pose proof (rebuild_ok fuel r h Hwf Hh) as Hslot.
    assert (Hfith : fits h) by (unfold fits; rewrite Hstr; exact Hfit).
    assert (Hb : built h).
    { destruct Hslot as [-> | Hb]; [| exact Hb].
      pose proof (length_rep r Hr) as HL.
      rewrite toString_root, <- Hstr in HL; simpl in HL.
      unfold slen in HL; simpl in HL; lia. }
    destruct (built_wf_closed h Hb Hfith) as (Hwh & Hch).
    split; [reflexivity |].
    split; [rewrite !toString_root; exact Hstr |].
    split; [split; [exact Hwh | split; [exact Hch | exact Hfith]] |].
    right; exact Hb.
Qed.

Lemma balance_returns_witness :
  exists r',
    balance 23 rope_a_to_g = Done r'
    /\ toString r' = toString rope_a_to_g
    /\ rope_rep r'
    /\ (r' = rope_a_to_g \/ built (root_ r')).
Proof.
  apply (balance_returns 23 rope_a_to_g);
    [concrete_rep
    | vm_compute; intros H; discriminate H
    | vm_compute; intros H; discriminate H
    | vm_compute; intros H; discriminate H
    | vm_compute; intros H; discriminate H].
Defined.

(** ** The table of buildFibList *)

Lemma fibonacci_mono (n : nat) :
  0 <= fibonacci n <= fibonacci (S n) /\ 1 <= fibonacci (S n).
Proof.
  induction n as [| n IH]; [simpl; lia |].
  rewrite fibonacci_SS; lia.
Qed.

Lemma buildFibList_loop_fibonacci (len : Z) (fuel : nat) :
  3 * len <= INT_MAX ->
  forall k : nat,
    fibonacci k <= len ->
    3 * len + 2 - (fibonacci (S k) + fibonacci (S (S k))) <= Z.of_nat fuel ->
    (1 <= fuel)%nat ->
    exists m : nat,
      buildFibList_loop fuel (fibonacci (S k)) (fibonacci (S (S k))) len
        (map fibonacci (seq 2 k))
      = Ret (map fibonacci (seq 2 m))
      /\ fibonacci m <= len < fibonacci (S m).
Proof.
  intros Hint.
  induction fuel as [| fuel IH]; intros k Hk Hfuel Hpos; [lia |].
  cbn [buildFibList_loop].
  pose proof (fibonacci_mono k) as (Hk0 & Hk1).
  pose proof (fibonacci_SS k) as Hss.
  destruct (fibonacci (S k) <=? len) eqn:E;
    [apply Z.leb_le in E | apply Z.leb_gt in E].
  - cbv zeta.
    destruct (0 <? fibonacci (S k)) eqn:E0; [| apply Z.ltb_ge in E0; lia].
    unfold int_add at 1.
    destruct (fibonacci (S k) + fibonacci (S (S k)) <=? INT_MAX) eqn:Es;
      [| apply Z.leb_gt in Es; lia].
    cbn [bind].
    rewrite <- (fibonacci_SS (S k)).
    replace (map fibonacci (seq 2 k) ++ [fibonacci (S (S k))])
      with (map fibonacci (seq 2 (S k)))
      by (rewrite seq_S, map_app; reflexivity).
    apply (IH (S k) E); [rewrite (fibonacci_SS (S k)); lia | lia].
  - exists k; split; [reflexivity | lia].
Qed.

(** [buildFibList(len)] returns the Fibonacci numbers from the second one
    (1, 2, 3, 5, ...) up to and including the first that exceeds [len]. *)
Theorem buildFibList_fibonacci (fuel : nat) (len : Z) :
  1 <= len -> 3 * len <= INT_MAX -> 3 * len + 1 <= Z.of_nat fuel ->
  exists m : nat,
    buildFibList fuel len = Ret (map fibonacci (seq 2 m))
    /\ fibonacci m <= len < fibonacci (S m).
Proof.
  intros Hlen Hint Hfuel.
  unfold buildFibList.
  destruct fuel as [| fuel]; [lia |].
  cbn [buildFibList_loop].
  destruct (0 <=? len) eqn:E; [| apply Z.leb_gt in E; lia].
  cbv zeta; cbn [Z.ltb Z.compare].
  change (int_add 0 1) with (Ret (A := Z) 1); cbn [bind].
  apply (buildFibList_loop_fibonacci len fuel Hint 0%nat);
    [change (fibonacci 0) with 0; lia
    | change (fibonacci 1) with 1; change (fibonacci 2) with 1; lia
    | unfold INT_MAX in *; lia].
Qed.

Lemma buildFibList_fibonacci_witness :
  exists m : nat,
    buildFibList 22 7 = Ret (map fibonacci (seq 2 m))
    /\ fibonacci m <= 7 < fibonacci (S m).
Proof.
  apply (buildFibList_fibonacci 22 7); unfold INT_MAX; lia.
Defined.

(** * Ropes in memory *)

(** ** Lookup, storage and release *)

Lemma h_lookup_store_same (h : heap) (a : addr) (c : cell) :
  h_lookup (h_store h a c) a = Some c.
Proof. unfold h_store; simpl; rewrite Nat.eqb_refl; reflexivity. Qed.

Lemma h_lookup_store_other (h : heap) (a b : addr) (c : cell) :
  b <> a -> h_lookup (h_store h a c) b = h_lookup h b.
Proof.
  intros H; unfold h_store; simpl.
  destruct (Nat.eqb b a) eqn:E; [apply Nat.eqb_eq in E; congruence | reflexivity].
Qed.

Lemma h_lookup_free_same (h : heap) (a : addr) : h_lookup (h_free h a) a = None.
Proof.
  induction h as [| [b c] h IH]; [reflexivity |].
  unfold h_free in *; simpl.
  destruct (Nat.eqb b a) eqn:E; simpl; [exact IH |].
  rewrite Nat.eqb_sym, E; exact IH.
Qed.

Lemma h_lookup_free_other (h : heap) (a b : addr) :
  b <> a -> h_lookup (h_free h a) b = h_lookup h b.
Proof.
  intros H; induction h as [| [d c] h IH]; [reflexivity |].
  unfold h_free in *; simpl.
  destruct (Nat.eqb d a) eqn:E; simpl.
  - apply Nat.eqb_eq in E; subst d.
    destruct (Nat.eqb b a) eqn:E2; [apply Nat.eqb_eq in E2; congruence | exact IH].
  - destruct (Nat.eqb b d); [reflexivity | exact IH].
Qed.

Lemma h_lookup_bound (h : heap) (a : addr) (c : cell) :
  h_lookup h a = Some c -> (a <= fold_right Nat.max 0 (map fst h))%nat.
Proof.
  induction h as [| [b d] h IH]; [discriminate |].
  simpl; destruct (Nat.eqb a b) eqn:E.
  - apply Nat.eqb_eq in E; subst; lia.
  - intros H; specialize (IH H); lia.
Qed.

Lemma next_addr_spec (h : heap) : h_lookup h (next_addr h) = None.
Proof.
  destruct (h_lookup h (next_addr h)) as [c |] eqn:E; [| reflexivity].
  apply h_lookup_bound in E; unfold next_addr in E; lia.
Qed.

(** What [rep] says depends on the nodes of the tree only. *)
Lemma rep_frame (t : handle) :
  forall (h h' : heap) (p : ptr) (fp : list addr),
    rep h p t fp ->
    (forall a, In a fp -> h_lookup h' a = h_lookup h a) ->
    rep h' p t fp.
Proof.
  induction t as [| w l IHl r IHr f]; intros h h' p fp H Hsame; [exact H |].
  destruct H as (a & pl & pr & fl & fr & -> & Ha & Hl & Hr & -> & Hnd).
  exists a, pl, pr, fl, fr.
  split; [reflexivity |].
  split; [rewrite Hsame by (left; reflexivity); exact Ha |].
  split; [apply (IHl h); [exact Hl |];
          intros b Hb; apply Hsame; right; apply in_or_app; left; exact Hb |].
  split; [apply (IHr h); [exact Hr |];
          intros b Hb; apply Hsame; right; apply in_or_app; right; exact Hb |].
  split; [reflexivity | exact Hnd].
Qed.

(** The nodes of a tree are alive. *)
Lemma rep_live (t : handle) :
  forall (h : heap) (p : ptr) (fp : list addr) (a : addr),
    rep h p t fp -> In a fp -> h_lookup h a <> None.
Proof.
  induction t as [| w l IHl r IHr f]; intros h p fp a H Hin.
  - destruct H as (_ & ->); destruct Hin.
  - destruct H as (b & pl & pr & fl & fr & -> & Hb & Hl & Hr & -> & Hnd).
    destruct Hin as [<- | Hin]; [congruence |].
    apply in_app_or in Hin; destruct Hin as [Hin | Hin];
      [exact (IHl _ _ _ _ Hl Hin) | exact (IHr _ _ _ _ Hr Hin)].
Qed.

Lemma rep_NoDup (t : handle) (h : heap) (p : ptr) (fp : list addr) :
  rep h p t fp -> NoDup fp.
Proof.
  destruct t; simpl.
  - intros (_ & ->); constructor.
  - intros (a & pl & pr & fl & fr & _ & _ & _ & _ & _ & H); exact H.
Qed.

Lemma rep_null_iff (t : handle) (h : heap) (p : ptr) (fp : list addr) :
  rep h p t fp -> (p = None <-> t = null).
Proof.
  destruct t; simpl.
  - intros (-> & _); split; reflexivity.
  - intros (a & pl & pr & fl & fr & -> & _); split; discriminate.
Qed.

(** Deleting a tree returns the storage of its nodes and touches nothing
    else. *)
Lemma h_delete_spec (t : handle) :
  forall (fuel : nat) (h : heap) (p : ptr) (fp : list addr),
    rep h p t fp -> (height t < fuel)%nat ->
    exists h',
      h_delete fuel h p = Ret h'
      /\ (forall a, In a fp -> h_lookup h' a = None)
      /\ (forall a, ~ In a fp -> h_lookup h' a = h_lookup h a).
Proof.
  induction t as [| w l IHl r IHr f]; intros fuel h p fp H Hfuel.
  - destruct H as (-> & ->).
    destruct fuel as [| fuel]; [simpl in Hfuel; lia |].
    exists h; simpl; repeat split; auto; intros a [].
  - destruct H as (a & pl & pr & fl & fr & -> & Ha & Hl & Hr & -> & Hnd).
    destruct fuel as [| fuel]; [lia |].
    cbn [height] in Hfuel.
    cbn [h_delete]; rewrite Ha; cbn [weight_ left_ right_ fragment_].
    apply NoDup_cons_iff in Hnd; destruct Hnd as (Hna & Hnd).
    assert (Hdisj : forall b, In b fl -> ~ In b fr).
    { intros b Hb Hin; revert Hnd Hb Hin; clear.
      induction fl as [| x fl IH]; intros Hnd Hb Hin; [destruct Hb |].
      simpl in Hnd; apply NoDup_cons_iff in Hnd; destruct Hnd as (Hx & Hnd).
      destruct Hb as [-> | Hb]; [apply Hx, in_or_app; right; exact Hin | auto]. }
    destruct (IHr fuel h pr fr Hr ltac:(lia)) as (h1 & Hd1 & Hf1 & Hw1).
    rewrite Hd1; cbn [bind].
    assert (Hl1 : rep h1 pl l fl).
    { apply (rep_frame l h); [exact Hl |].
      intros b Hb; apply Hw1; exact (Hdisj b Hb). }
    destruct (IHl fuel h1 pl fl Hl1 ltac:(lia)) as (h2 & Hd2 & Hf2 & Hw2).
    rewrite Hd2; cbn [bind].
    exists (h_free h2 a); split; [reflexivity |].
    split.
    + intros b [<- | Hb]; [apply h_lookup_free_same |].
      assert (b <> a) by (intros ->; exact (Hna Hb)).
      rewrite h_lookup_free_other by assumption.
      apply in_app_or in Hb; destruct Hb as [Hb | Hb]; [exact (Hf2 b Hb) |].
      rewrite Hw2 by (intros Hin; exact (Hdisj b Hin Hb)).
      exact (Hf1 b Hb).
    + intros b Hb.
      assert (Hba : b <> a) by (intros ->; apply Hb; left; reflexivity).
      assert (Hbl : ~ In b fl)
        by (intros Hin; apply Hb; right; apply in_or_app; left; exact Hin).
      assert (Hbr : ~ In b fr)
        by (intros Hin; apply Hb; right; apply in_or_app; right; exact Hin).
      rewrite h_lookup_free_other by exact Hba.
      rewrite Hw2 by exact Hbl.
      apply Hw1; exact Hbr.
Qed.

Section MemoryFacts.

Variable fresh : heap -> addr.
Hypothesis fresh_spec : forall h, h_lookup h (fresh h) = None.

(** Cloning a tree returns a tree of the same shape and contents made of
    nodes that were not in use, and writes nowhere else. *)
Lemma h_clone_spec (t : handle) :
  forall (fuel : nat) (h : heap) (p : ptr) (fp : list addr),
    rep h p t fp -> (height t < fuel)%nat ->
    exists p' h' fp',
      h_clone fresh fuel h p = Ret (p', h')
      /\ rep h' p' t fp'
      /\ (forall a, In a fp' -> h_lookup h a = None)
      /\ (forall a, ~ In a fp' -> h_lookup h' a = h_lookup h a).
Proof.
  induction t as [| w l IHl r IHr f]; intros fuel h p fp H Hfuel.
  - destruct H as (-> & ->).
    destruct fuel as [| fuel]; [simpl in Hfuel; lia |].
    exists None, h, []; simpl; repeat split; auto; intros a [].
  - destruct H as (a & pl & pr & fl & fr & -> & Ha & Hl & Hr & -> & Hnd).
    destruct fuel as [| fuel]; [lia |].
    cbn [height] in Hfuel.
    cbn [h_clone]; rewrite Ha; cbv zeta; cbn [weight_ left_ right_ fragment_].
    set (n := fresh h).
    pose proof (fresh_spec h) as Hn; fold n in Hn.
    set (h0 := h_store h n (mkCell w None None f)).
    assert (Hl0 : rep h0 pl l fl).
    { apply (rep_frame l h); [exact Hl |].
      intros b Hb; apply h_lookup_store_other.
      intros ->; exact (rep_live _ _ _ _ _ Hl Hb Hn). }
    destruct (IHl fuel h0 pl fl Hl0 ltac:(lia))
      as (pl' & h1 & fl' & Hcl & Hrl & Hfl & Hwl).
    rewrite Hcl; cbn [bind].
    set (h1' := h_store h1 n (mkCell w pl' None f)).
    assert (Hnfl : ~ In n fl').
    { intros Hin; specialize (Hfl n Hin); unfold h0 in Hfl.
      rewrite h_lookup_store_same in Hfl; discriminate Hfl. }
    assert (Hr1 : rep h1' pr r fr).
    { apply (rep_frame r h); [exact Hr |].
      intros b Hb.
      pose proof (rep_live _ _ _ _ _ Hr Hb) as Hlive.
      assert (b <> n) by (intros ->; exact (Hlive Hn)).
      unfold h1'; rewrite h_lookup_store_other by assumption.
      rewrite Hwl.
      - unfold h0; apply h_lookup_store_other; assumption.
      - intros Hin; specialize (Hfl b Hin); unfold h0 in Hfl.
        rewrite h_lookup_store_other in Hfl by assumption; exact (Hlive Hfl). }
    destruct (IHr fuel h1' pr fr Hr1 ltac:(lia))
      as (pr' & h2 & fr' & Hcr & Hrr & Hfr & Hwr).
    rewrite Hcr; cbn [bind].
    assert (Hnfr : ~ In n fr').
    { intros Hin; specialize (Hfr n Hin); unfold h1' in Hfr.
      rewrite h_lookup_store_same in Hfr; discriminate Hfr. }
    assert (Hdisj : forall b, In b fl' -> ~ In b fr').
    { intros b Hb Hin.
      pose proof (rep_live _ _ _ _ _ Hrl Hb) as Hlive.
      specialize (Hfr b Hin); unfold h1' in Hfr.
      rewrite h_lookup_store_other in Hfr by (intros ->; exact (Hnfl Hb)).
      exact (Hlive Hfr). }
    exists (Some n), (h_store h2 n (mkCell w pl' pr' f)), (n :: fl' ++ fr').
    split; [reflexivity |].
    split.
    { exists n, pl', pr', fl', fr'.
      split; [reflexivity |].
      split; [apply h_lookup_store_same |].
      split.
      { apply (rep_frame l h1); [exact Hrl |].
        intros b Hb.
        rewrite h_lookup_store_other by (intros ->; exact (Hnfl Hb)).
        rewrite Hwr by (exact (Hdisj b Hb)).
        unfold h1'; apply h_lookup_store_other; intros ->; exact (Hnfl Hb). }
      split.
      { apply (rep_frame r h2); [exact Hrr |].
        intros b Hb; apply h_lookup_store_other; intros ->; exact (Hnfr Hb). }
      split; [reflexivity |].
      constructor.
      - intros Hin; apply in_app_or in Hin; destruct Hin; auto.
      - apply NoDup_app.
        + exact (rep_NoDup _ _ _ _ Hrl).
        + exact (rep_NoDup _ _ _ _ Hrr).
        + exact Hdisj. }
    split.
    { intros b [<- | Hb]; [exact Hn |].
      apply in_app_or in Hb; destruct Hb as [Hb | Hb].
      - specialize (Hfl b Hb); unfold h0 in Hfl.
        rewrite h_lookup_store_other in Hfl by (intros ->; exact (Hnfl Hb)).
        exact Hfl.
      - pose proof (Hfr b Hb) as Hnone; unfold h1' in Hnone.
        rewrite h_lookup_store_other in Hnone by (intros ->; exact (Hnfr Hb)).
        assert (Hnl : ~ In b fl')
          by (intros Hin; exact (rep_live _ _ _ _ _ Hrl Hin Hnone)).
        rewrite Hwl in Hnone by exact Hnl; unfold h0 in Hnone.
        rewrite h_lookup_store_other in Hnone by (intros ->; exact (Hnfr Hb)).
        exact Hnone. }
    intros b Hb.
    assert (Hbn : b <> n) by (intros ->; apply Hb; left; reflexivity).
    assert (Hbl : ~ In b fl')
      by (intros Hin; apply Hb; right; apply in_or_app; left; exact Hin).
    assert (Hbr : ~ In b fr')
      by (intros Hin; apply Hb; right; apply in_or_app; right; exact Hin).
    rewrite h_lookup_store_other by exact Hbn.
    rewrite Hwr by exact Hbr.
    unfold h1'; rewrite h_lookup_store_other by exact Hbn.
    rewrite Hwl by exact Hbl.
    unfold h0; apply h_lookup_store_other; exact Hbn.
Qed.

End MemoryFacts.

(** ** Footprints *)

Lemma In_addr_dec (a : addr) (l : list addr) : In a l \/ ~ In a l.
Proof. destruct (in_dec Nat.eq_dec a l); auto. Qed.

Lemma preserves_refl (h : heap) (fp : list addr) : preserves h h fp.
Proof. intros a _ _; reflexivity. Qed.

Lemma preserves_store (h : heap) (a : addr) (c : cell) (fp : list addr) :
  In a fp \/ h_lookup h a = None -> preserves h (h_store h a c) fp.
Proof.
  intros Ha b Hb Hlive; apply h_lookup_store_other.
  intros ->; destruct Ha as [Ha | Ha]; [exact (Hb Ha) | exact (Hlive Ha)].
Qed.

Lemma preserves_free (h : heap) (a : addr) (fp : list addr) :
  In a fp -> preserves h (h_free h a) fp.
Proof.
  intros Ha b Hb _; apply h_lookup_free_other; intros ->; exact (Hb Ha).
Qed.

Lemma preserves_trans (h h1 h2 : heap) (fp fin : list addr) :
  preserves h h1 fp -> within h fp fin -> preserves h1 h2 fin ->
  preserves h h2 fp.
Proof.
  intros H1 Hw H2 a Ha Hlive.
  rewrite <- (H1 a Ha Hlive).
  apply H2; [| rewrite (H1 a Ha Hlive); exact Hlive].
  intros Hin; destruct (Hw a Hin) as [Hf | Hn]; [exact (Ha Hf) | exact (Hlive Hn)].
Qed.

Lemma within_trans (h h1 : heap) (fp fin fout : list addr) :
  preserves h h1 fp -> within h fp fin -> within h1 fin fout ->
  within h fp fout.
Proof.
  intros H1 Hw Hw1 a Ha.
  destruct (Hw1 a Ha) as [Hin | Hn]; [exact (Hw a Hin) |].
  destruct (In_addr_dec a fp) as [Hf | Hf]; [left; exact Hf | right].
  destruct (h_lookup h a) as [c |] eqn:E; [| reflexivity].
  rewrite (H1 a Hf) in Hn by congruence; congruence.
Qed.

Lemma within_self (h : heap) (fp : list addr) : within h fp fp.
Proof. intros a Ha; left; exact Ha. Qed.

Lemma within_sub (h : heap) (fp fp1 fp2 : list addr) :
  within h fp fp1 -> incl fp2 fp1 -> within h fp fp2.
Proof. intros H Hi a Ha; apply H, Hi, Ha. Qed.

Lemma within_app (h : heap) (fp f1 f2 : list addr) :
  within h fp f1 -> within h fp f2 -> within h fp (f1 ++ f2).
Proof.
  intros H1 H2 a Ha; apply in_app_or in Ha; destruct Ha; [apply H1 | apply H2]; auto.
Qed.

Lemma within_cons (h : heap) (fp f : list addr) (a : addr) :
  In a fp \/ h_lookup h a = None -> within h fp f -> within h fp (a :: f).
Proof. intros Ha H b [<- | Hb]; [exact Ha | exact (H b Hb)]. Qed.

Lemma within_nil (h : heap) (fp : list addr) : within h fp [].
Proof. intros a []. Qed.

Lemma rep_keep (t : handle) (h h' : heap) (p : ptr) (f fin : list addr) :
  rep h p t f -> disjoint f fin -> preserves h h' fin -> rep h' p t f.
Proof.
  intros Hr Hd Hp; apply (rep_frame t h); [exact Hr |].
  intros a Ha; apply Hp; [exact (Hd a Ha) | exact (rep_live _ _ _ _ _ Hr Ha)].
Qed.

Lemma rep_disjoint_within (t : handle) (h : heap) (p : ptr)
  (f fin fout : list addr) :
  rep h p t f -> disjoint f fin -> within h fin fout -> disjoint f fout.
Proof.
  intros Hr Hd Hw a Ha Hout.
  destruct (Hw a Hout) as [Hin | Hn];
    [exact (Hd a Ha Hin) | exact (rep_live _ _ _ _ _ Hr Ha Hn)].
Qed.

Lemma disjoint_sym (xs ys : list addr) : disjoint xs ys -> disjoint ys xs.
Proof. intros H a Ha Hb; exact (H a Hb Ha). Qed.

Lemma disjoint_nil_r (xs : list addr) : disjoint xs [].
Proof. intros a _ []. Qed.

Lemma disjoint_app_r (xs ys zs : list addr) :
  disjoint xs ys -> disjoint xs zs -> disjoint xs (ys ++ zs).
Proof.
  intros H1 H2 a Ha Hin; apply in_app_or in Hin;
    destruct Hin; [exact (H1 a Ha H) | exact (H2 a Ha H)].
Qed.

Lemma disjoint_cons_r (xs ys : list addr) (b : addr) :
  ~ In b xs -> disjoint xs ys -> disjoint xs (b :: ys).
Proof. intros Hb H a Ha [<- | Hin]; [exact (Hb Ha) | exact (H a Ha Hin)]. Qed.

Lemma NoDup_app_disjoint (xs ys : list addr) :
  NoDup (xs ++ ys) -> NoDup xs /\ NoDup ys /\ disjoint xs ys.
Proof.
  induction xs as [| x xs IH]; simpl; intros H.
  - split; [constructor | split; [exact H | intros a []]].
  - apply NoDup_cons_iff in H; destruct H as (Hx & H).
    destruct (IH H) as (H1 & H2 & H3).
    split; [constructor; [intros Hin; apply Hx, in_or_app; left; exact Hin | exact H1] |].
    split; [exact H2 |].
    intros a [<- | Ha] Hin; [apply Hx, in_or_app; right; exact Hin | exact (H3 a Ha Hin)].
Qed.

Lemma NoDup_app_intro (xs ys : list addr) :
  NoDup xs -> NoDup ys -> disjoint xs ys -> NoDup (xs ++ ys).
Proof. intros H1 H2 H3; apply NoDup_app; auto. Qed.

(** The parts of what [rep] says of a node. *)
Lemma rep_node_inv (h : heap) (p : ptr) (w : Z) (l r : handle) (f : str)
  (fp : list addr) :
  rep h p (node w l r f) fp ->
  exists a pl pr fl fr,
    p = Some a /\ h_lookup h a = Some (mkCell w pl pr f)
    /\ rep h pl l fl /\ rep h pr r fr /\ fp = a :: fl ++ fr
    /\ ~ In a fl /\ ~ In a fr /\ NoDup fl /\ NoDup fr /\ disjoint fl fr.
Proof.
  intros (a & pl & pr & fl & fr & -> & Ha & Hl & Hr & -> & Hnd).
  apply NoDup_cons_iff in Hnd; destruct Hnd as (Hna & Hnd).
  destruct (NoDup_app_disjoint _ _ Hnd) as (H1 & H2 & H3).
  exists a, pl, pr, fl, fr; repeat split; auto;
    intros Hin; apply Hna, in_or_app; auto.
Qed.

Lemma rep_node_intro (h : heap) (a : addr) (w : Z) (pl pr : ptr)
  (l r : handle) (f : str) (fl fr : list addr) :
  h_lookup h a = Some (mkCell w pl pr f) ->
  rep h pl l fl -> rep h pr r fr ->
  ~ In a fl -> ~ In a fr -> disjoint fl fr ->
  rep h (Some a) (node w l r f) (a :: fl ++ fr).
Proof.
  intros Ha Hl Hr Hal Har Hd.
  exists a, pl, pr, fl, fr; repeat split; auto.
  constructor.
  - intros Hin; apply in_app_or in Hin; destruct Hin; auto.
  - apply NoDup_app_intro; [exact (rep_NoDup _ _ _ _ Hl) | exact (rep_NoDup _ _ _ _ Hr) | exact Hd].
Qed.

Lemma c_isLeaf_rep (h : heap) (pl pr : ptr) (l r : handle) (fl fr : list addr)
  (w : Z) (f : str) :
  rep h pl l fl -> rep h pr r fr ->
  c_isLeaf (mkCell w pl pr f) = isLeaf l r.
Proof.
  intros Hl Hr.
  pose proof (rep_null_iff _ _ _ _ Hl) as Il.
  pose proof (rep_null_iff _ _ _ _ Hr) as Ir.
  unfold c_isLeaf, isLeaf; cbn [left_ right_].
  destruct pl, pr, l, r; simpl; try reflexivity;
    try (destruct Il as (Il1 & Il2); first [discriminate (Il1 eq_refl) | discriminate (Il2 eq_refl)]);
    try (destruct Ir as (Ir1 & Ir2); first [discriminate (Ir1 eq_refl) | discriminate (Ir2 eq_refl)]).
Qed.

(** [getLength] read from memory is [getLength] of the tree. *)
Lemma h_getLength_sim (t : handle) :
  forall (fuel : nat) (h : heap) (a : addr) (fp : list addr),
    rep h (Some a) t fp -> (height t <= fuel)%nat ->
    h_getLength fuel h a = Ret (getLength t).
Proof.
  induction t as [| w l IHl r IHr f]; intros fuel h a fp H Hfuel.
  - destruct H as (H & _); discriminate H.
  - apply rep_node_inv in H.
    destruct H as (b & pl & pr & fl & fr & Hb & Ha & Hl & Hr & _).
    injection Hb as <-.
    destruct fuel as [| fuel]; [simpl in Hfuel; lia |].
    cbn [height] in Hfuel.
    cbn [h_getLength getLength]; rewrite Ha.
    rewrite (c_isLeaf_rep h pl pr l r fl fr w f Hl Hr).
    destruct (isLeaf l r); [reflexivity |].
    cbn [right_ weight_].
    destruct pr as [ra |].
    + rewrite (IHr fuel h ra fr Hr ltac:(lia)); reflexivity.
    + apply (rep_null_iff r h None fr) in Hr.
      rewrite (proj1 Hr eq_refl); reflexivity.
Qed.

Lemma preserves_weaken (h h' : heap) (fp fp' : list addr) :
  incl fp fp' -> preserves h h' fp -> preserves h h' fp'.
Proof. intros Hi H a Ha Hlive; apply H; [intros Hin; exact (Ha (Hi a Hin)) | exact Hlive]. Qed.

Lemma within_weaken (h : heap) (fp fp' f : list addr) :
  incl fp fp' -> within h fp f -> within h fp' f.
Proof.
  intros Hi H a Ha; destruct (H a Ha) as [Hin | Hn];
    [left; exact (Hi a Hin) | right; exact Hn].
Qed.

Lemma within_fresh (h hk : heap) (fp : list addr) (n : addr) :
  preserves h hk fp -> h_lookup hk n = None ->
  In n fp \/ h_lookup h n = None.
Proof.
  intros P Hn.
  destruct (In_addr_dec n fp) as [Hf | Hf]; [left; exact Hf | right].
  destruct (h_lookup h n) as [c |] eqn:E; [| reflexivity].
  rewrite (P n Hf) in Hn by congruence; congruence.
Qed.

Lemma disjoint_single_r (xs : list addr) (a : addr) :
  ~ In a xs -> disjoint xs [a].
Proof. intros H b Hb [<- | []]; exact (H Hb). Qed.

Lemma splitAt_height (t : handle) :
  forall (i : Z) (t1 t2 : handle),
    splitAt t i = Ret (t1, t2) ->
    (height t1 <= height t)%nat /\ (height t2 <= height t)%nat.
Proof.
  induction t as [| w l IHl r IHr f]; intros i t1 t2 H; [discriminate H |].
  cbn [splitAt] in H.
  destruct (isLeaf l r) eqn:El.
  - destruct (substr f 0 i) as [s1 | | |]; try discriminate H.
    destruct (substr f i (wrap (w - i))) as [s2 | | |]; try discriminate H.
    cbn [bind] in H; injection H as <- <-; simpl; lia.
  - destruct (i <? w).
    + destruct (splitAt l i) as [[ll lr] | | |] eqn:E; try discriminate H.
      cbn [bind] in H.
      destruct lr as [| w' l' r' f']; [discriminate H |].
      cbn [concat bind] in H; injection H as <- <-.
      destruct (IHl _ _ _ E) as (H1 & H2).
      cbn [height] in *; lia.
    + destruct (w <? i).
      * destruct (splitAt r (wrap (i - w))) as [[rl rr] | | |] eqn:E;
          try discriminate H.
        cbn [bind] in H; injection H as <- <-.
        destruct (IHr _ _ _ E) as (H1 & H2).
        cbn [height] in *; lia.
      * injection H as <- <-; cbn [height]; lia.
Qed.

Lemma set_root_same (st : objects) (a : nat) (p : ptr) : set_root st a p a = p.
Proof. unfold set_root; rewrite Nat.eqb_refl; reflexivity. Qed.

Lemma set_root_other (st : objects) (a b : nat) (p : ptr) :
  b <> a -> set_root st a p b = st b.
Proof.
  intros H; unfold set_root.
  destruct (Nat.eqb b a) eqn:E; [apply Nat.eqb_eq in E; congruence | reflexivity].
Qed.

Lemma set_root_twice_other (st : objects) (a b : nat) (p q : ptr) :
  b <> a -> set_root (set_root st a p) a q b = st b.
Proof. intros H; rewrite !set_root_other by exact H; reflexivity. Qed.

Section Simulation.

Variable fresh : heap -> addr.
Hypothesis fresh_spec : forall h, h_lookup h (fresh h) = None.

Lemma h_leaf_sim (h : heap) (s : str) :
  exists n,
    h_leaf fresh h s = (Some n, h_store h n (mkCell (slen s) None None s))
    /\ h_lookup h n = None
    /\ rep (h_store h n (mkCell (slen s) None None s)) (Some n) (leaf s) [n].
Proof.
  exists (fresh h); split; [reflexivity |].
  split; [apply fresh_spec |].
  apply (rep_node_intro _ _ _ None None null null s [] []);
    [apply h_lookup_store_same | split; reflexivity | split; reflexivity
    | intros [] | intros [] | intros a []].
Qed.

Lemma h_concat_sim (fuel : nat) (h : heap) (pl pr : ptr) (l r : handle)
  (fl fr : list addr) :
  rep h pl l fl -> rep h pr r fr -> disjoint fl fr -> l <> null ->
  (height l <= fuel)%nat ->
  exists n,
    h_concat fresh fuel h pl pr
    = Ret (Some n, h_store h n (mkCell (getLength l) pl pr []))
    /\ h_lookup h n = None
    /\ rep (h_store h n (mkCell (getLength l) pl pr [])) (Some n)
           (node (getLength l) l r []) (n :: fl ++ fr).
Proof.
  intros Hl Hr Hd Hnn Hfuel.
  pose proof (fresh_spec h) as Hn.
  exists (fresh h).
  assert (Hnl : ~ In (fresh h) fl)
    by (intros Hin; exact (rep_live _ _ _ _ _ Hl Hin Hn)).
  assert (Hnr : ~ In (fresh h) fr)
    by (intros Hin; exact (rep_live _ _ _ _ _ Hr Hin Hn)).
  split.
  - unfold h_concat.
    destruct pl as [la |];
      [| apply (rep_null_iff l h None fl) in Hl; exfalso; apply Hnn, Hl; reflexivity].
    rewrite (h_getLength_sim l fuel h la fl Hl Hfuel); reflexivity.
  - split; [exact Hn |].
    apply (rep_node_intro _ _ _ pl pr); auto.
    + apply h_lookup_store_same.
    + apply (rep_keep l h _ _ _ []);
        [exact Hl | apply disjoint_nil_r | apply preserves_store; right; exact Hn].
    + apply (rep_keep r h _ _ _ []);
        [exact Hr | apply disjoint_nil_r | apply preserves_store; right; exact Hn].
Qed.

Lemma h_clone_sim (t : handle) (fuel : nat) (h : heap) (p : ptr)
  (fp : list addr) :
  rep h p t fp -> (height t < fuel)%nat ->
  exists p' h' fp',
    h_clone fresh fuel h p = Ret (p', h')
    /\ rep h' p' t fp'
    /\ within h [] fp'
    /\ preserves h h' [].
Proof.
  intros H Hfuel.
  destruct (h_clone_spec fresh fresh_spec t fuel h p fp H Hfuel)
    as (p' & h' & fp' & Hc & Hr & Hf & Hw).
  exists p', h', fp'; split; [exact Hc |]; split; [exact Hr |].
  split; [intros a Ha; right; exact (Hf a Ha) |].
  intros a _ Hlive; apply Hw; intros Hin; exact (Hlive (Hf a Hin)).
Qed.

Lemma h_delete_sim (t : handle) (fuel : nat) (h : heap) (p : ptr)
  (fp : list addr) :
  rep h p t fp -> (height t < fuel)%nat ->
  exists h', h_delete fuel h p = Ret h' /\ preserves h h' fp.
Proof.
  intros H Hfuel.
  destruct (h_delete_spec t fuel h p fp H Hfuel) as (h' & Hd & _ & Hw).
  exists h'; split; [exact Hd | intros a Ha _; exact (Hw a Ha)].
Qed.

(** A tree that is kept while storage not in use is written. *)
Lemma rep_keep_fresh (t : handle) (h h' : heap) (p : ptr) (f : list addr) :
  rep h p t f -> preserves h h' [] -> rep h' p t f.
Proof.
  intros Hr Hp; apply (rep_keep t h _ _ _ []);
    [exact Hr | apply disjoint_nil_r | exact Hp].
Qed.

Lemma rep_disjoint_fresh (t : handle) (h : heap) (p : ptr) (f f' : list addr) :
  rep h p t f -> within h [] f' -> disjoint f f'.
Proof.
  intros Hr Hw; apply (rep_disjoint_within t h p f []);
    [exact Hr | apply disjoint_nil_r | exact Hw].
Qed.

Lemma fresh_not_in (t : handle) (h : heap) (p : ptr) (f : list addr) (n : addr) :
  rep h p t f -> h_lookup h n = None -> ~ In n f.
Proof. intros Hr Hn Hin; exact (rep_live _ _ _ _ _ Hr Hin Hn). Qed.

Lemma live_not_within (h : heap) (f : list addr) (n : addr) :
  within h [] f -> h_lookup h n <> None -> ~ In n f.
Proof. intros Hw Hn Hin; destruct (Hw n Hin) as [[] | E]; exact (Hn E). Qed.

(** The copy constructor of a rope returns a tree equal to that of its
    argument, node for node, in storage that was not in use, and leaves every
    node that was alive as it is. *)
Lemma h_rope_copy_sim (t : handle) (fuel : nat) (h : heap) (p : ptr)
  (fp : list addr) :
  rep h p t fp -> t <> null -> (height t <= fuel)%nat ->
  exists p' h' fp',
    h_rope_copy fresh fuel h p = Ret (p', h')
    /\ rep h' p' t fp'
    /\ within h [] fp'
    /\ preserves h h' [].
Proof.
  intros H Hnn Hfuel.
  destruct t as [| w l r f]; [congruence |].
  apply rep_node_inv in H.
  destruct H as (a & pl & pr & fl & fr & -> & Ha & Hl & Hr & -> & _).
  cbn [height] in Hfuel.
  unfold h_rope_copy; rewrite Ha; cbn [weight_ left_ right_ fragment_].
  (* the local object newRoot *)
  destruct (h_clone_sim l fuel h pl fl Hl ltac:(lia))
    as (pl1 & h1 & fl1 & Hc1 & Rl1 & Wl1 & P01).
  rewrite Hc1; cbn [bind].
  assert (Hr1 : rep h1 pr r fr) by exact (rep_keep_fresh r h h1 pr fr Hr P01).
  destruct (h_clone_sim r fuel h1 pr fr Hr1 ltac:(lia))
    as (pr1 & h2 & fr1 & Hc2 & Rr1 & Wr1' & P12).
  rewrite Hc2; cbn [bind]; cbv zeta.
  assert (P02 : preserves h h2 [])
    by exact (preserves_trans h h1 h2 [] [] P01 (within_nil h []) P12).
  assert (Wr1 : within h [] fr1)
    by exact (within_trans h h1 [] [] fr1 P01 (within_nil h []) Wr1').
  assert (Rl2 : rep h2 pl1 l fl1) by exact (rep_keep_fresh l h1 h2 pl1 fl1 Rl1 P12).
  assert (D1 : disjoint fl1 fr1) by exact (rep_disjoint_fresh l h1 pl1 fl1 fr1 Rl1 Wr1').
  (* the new root *)
  set (n := fresh h2).
  pose proof (fresh_spec h2) as Hn; fold n in Hn.
  assert (Wn : within h [] [n])
    by (intros b [<- | []]; exact (within_fresh h h2 [] n P02 Hn)).
  set (h3 := h_store h2 n (mkCell w None None f)).
  assert (P23 : preserves h2 h3 []) by (apply preserves_store; right; exact Hn).
  assert (Hn3 : h_lookup h3 n <> None)
    by (unfold h3; rewrite h_lookup_store_same; discriminate).
  assert (Rl3 : rep h3 pl1 l fl1) by exact (rep_keep_fresh l h2 h3 pl1 fl1 Rl2 P23).
  assert (Rr3 : rep h3 pr1 r fr1) by exact (rep_keep_fresh r h2 h3 pr1 fr1 Rr1 P23).
  assert (P03 : preserves h h3 [])
    by exact (preserves_trans h h2 h3 [] [] P02 (within_nil h []) P23).
  destruct (h_clone_sim l fuel h3 pl1 fl1 Rl3 ltac:(lia))
    as (pl2 & h4 & fl2 & Hc3 & Rl4 & Wl2' & P34).
  rewrite Hc3; cbn [bind]; cbv zeta.
  assert (Hnl2 : ~ In n fl2) by exact (live_not_within h3 fl2 n Wl2' Hn3).
  assert (P04 : preserves h h4 [])
    by exact (preserves_trans h h3 h4 [] [] P03 (within_nil h []) P34).
  assert (Wl2 : within h [] fl2)
    by exact (within_trans h h3 [] [] fl2 P03 (within_nil h []) Wl2').
  assert (Hn4 : h_lookup h4 n <> None)
    by (rewrite (P34 n ltac:(intros []) Hn3); exact Hn3).
  set (h4' := h_store h4 n (mkCell w pl2 None f)).
  assert (P44 : preserves h4 h4' [n])
    by (apply preserves_store; left; left; reflexivity).
  assert (Hn4' : h_lookup h4' n <> None)
    by (unfold h4'; rewrite h_lookup_store_same; discriminate).
  assert (Rl1_4 : rep h4 pl1 l fl1) by exact (rep_keep_fresh l h3 h4 pl1 fl1 Rl3 P34).
  assert (Rr1_4 : rep h4 pr1 r fr1) by exact (rep_keep_fresh r h3 h4 pr1 fr1 Rr3 P34).
  assert (Hnl1 : ~ In n fl1) by exact (fresh_not_in l h2 pl1 fl1 n Rl2 Hn).
  assert (Hnr1 : ~ In n fr1) by exact (fresh_not_in r h2 pr1 fr1 n Rr1 Hn).
  assert (Rl1_4' : rep h4' pl1 l fl1)
    by (apply (rep_keep l h4 _ _ _ [n]);
        [exact Rl1_4 | apply disjoint_single_r; exact Hnl1 | exact P44]).
  assert (Rr1_4' : rep h4' pr1 r fr1)
    by (apply (rep_keep r h4 _ _ _ [n]);
        [exact Rr1_4 | apply disjoint_single_r; exact Hnr1 | exact P44]).
  assert (Rl2_4' : rep h4' pl2 l fl2)
    by (apply (rep_keep l h4 _ _ _ [n]);
        [exact Rl4 | apply disjoint_single_r; exact Hnl2 | exact P44]).
  assert (P04' : preserves h h4' [])
    by exact (preserves_trans h h4 h4' [] [n] P04 Wn P44).
  destruct (h_clone_sim r fuel h4' pr1 fr1 Rr1_4' ltac:(lia))
    as (pr2 & h5 & fr2 & Hc4 & Rr5 & Wr2' & P45).
  rewrite Hc4; cbn [bind]; cbv zeta.
  assert (Hnr2 : ~ In n fr2) by exact (live_not_within h4' fr2 n Wr2' Hn4').
  assert (P05 : preserves h h5 [])
    by exact (preserves_trans h h4' h5 [] [] P04' (within_nil h []) P45).
  assert (Wr2 : within h [] fr2)
    by exact (within_trans h h4' [] [] fr2 P04' (within_nil h []) Wr2').
  set (h6 := h_store h5 n (mkCell w pl2 pr2 f)).
  assert (P56 : preserves h5 h6 [n])
    by (apply preserves_store; left; left; reflexivity).
  assert (P06 : preserves h h6 [])
    by exact (preserves_trans h h5 h6 [] [n] P05 Wn P56).
  assert (Rl1_6 : rep h6 pl1 l fl1).
  { apply (rep_keep l h5 _ _ _ [n]);
      [| apply disjoint_single_r; exact Hnl1 | exact P56].
    exact (rep_keep_fresh l h4' h5 pl1 fl1 Rl1_4' P45). }
  assert (Rr1_6 : rep h6 pr1 r fr1).
  { apply (rep_keep r h5 _ _ _ [n]);
      [| apply disjoint_single_r; exact Hnr1 | exact P56].
    exact (rep_keep_fresh r h4' h5 pr1 fr1 Rr1_4' P45). }
  assert (Rl2_6 : rep h6 pl2 l fl2).
  { apply (rep_keep l h5 _ _ _ [n]);
      [| apply disjoint_single_r; exact Hnl2 | exact P56].
    exact (rep_keep_fresh l h4' h5 pl2 fl2 Rl2_4' P45). }
  assert (Rr2_6 : rep h6 pr2 r fr2)
    by (apply (rep_keep r h5 _ _ _ [n]);
        [exact Rr5 | apply disjoint_single_r; exact Hnr2 | exact P56]).
  assert (D2 : disjoint fl2 fr2)
    by exact (rep_disjoint_fresh l h4' pl2 fl2 fr2 Rl2_4' Wr2').
  assert (Dl2l1 : disjoint fl2 fl1)
    by (apply disjoint_sym; exact (rep_disjoint_fresh l h3 pl1 fl1 fl2 Rl3 Wl2')).
  assert (Dl2r1 : disjoint fl2 fr1)
    by (apply disjoint_sym; exact (rep_disjoint_fresh r h3 pr1 fr1 fl2 Rr3 Wl2')).
  assert (Dr2l1 : disjoint fr2 fl1)
    by (apply disjoint_sym; exact (rep_disjoint_fresh l h4' pl1 fl1 fr2 Rl1_4' Wr2')).
  assert (Dr2r1 : disjoint fr2 fr1)
    by (apply disjoint_sym; exact (rep_disjoint_fresh r h4' pr1 fr1 fr2 Rr1_4' Wr2')).
  (* newRoot goes out of scope *)
  destruct (h_delete_sim r fuel h6 pr1 fr1 Rr1_6 ltac:(lia)) as (h7 & Hd1 & P67).
  fold h3; fold h4'; fold h6; rewrite Hd1; cbn [bind].
  assert (Rl1_7 : rep h7 pl1 l fl1)
    by (apply (rep_keep l h6 _ _ _ fr1); [exact Rl1_6 | exact D1 | exact P67]).
  destruct (h_delete_sim l fuel h7 pl1 fl1 Rl1_7 ltac:(lia)) as (h8 & Hd2 & P78).
  rewrite Hd2; cbn [bind].
  assert (P07 : preserves h h7 [])
    by exact (preserves_trans h h6 h7 [] fr1 P06 Wr1 P67).
  assert (Wl1h : within h [] fl1) by exact Wl1.
  assert (P08 : preserves h h8 [])
    by exact (preserves_trans h h7 h8 [] fl1 P07 Wl1h P78).
  assert (Hn6 : h_lookup h6 n = Some (mkCell w pl2 pr2 f))
    by (unfold h6; apply h_lookup_store_same).
  assert (Hn7 : h_lookup h7 n = Some (mkCell w pl2 pr2 f))
    by (rewrite (P67 n Hnr1) by congruence; exact Hn6).
  assert (Hn8 : h_lookup h8 n = Some (mkCell w pl2 pr2 f))
    by (rewrite (P78 n Hnl1) by congruence; exact Hn7).
  exists (Some n), h8, (n :: fl2 ++ fr2).
  split; [reflexivity |].
  split.
  { apply (rep_node_intro _ _ _ pl2 pr2); auto.
    - apply (rep_keep l h7 _ _ _ fl1); [| exact Dl2l1 | exact P78].
      apply (rep_keep l h6 _ _ _ fr1); [exact Rl2_6 | exact Dl2r1 | exact P67].
    - apply (rep_keep r h7 _ _ _ fl1); [| exact Dr2l1 | exact P78].
      apply (rep_keep r h6 _ _ _ fr1); [exact Rr2_6 | exact Dr2r1 | exact P67]. }
  split; [| exact P08].
  apply within_cons; [exact (Wn n (or_introl eq_refl)) |].
  apply within_app; assumption.
Qed.

(** [splitAt] in memory returns the two trees that [splitAt] computes,
    built from the nodes of its argument and from unused storage; every other
    node is left as it is. *)
Lemma h_splitAt_sim (t : handle) :
  forall (fuel : nat) (h : heap) (p : ptr) (fp : list addr) (i : Z)
         (t1 t2 : handle),
    rep h p t fp -> splitAt t i = Ret (t1, t2) -> (height t <= fuel)%nat ->
    exists p1 p2 h' f1 f2,
      h_splitAt fresh fuel h p i = Ret (p1, p2, h')
      /\ rep h' p1 t1 f1 /\ rep h' p2 t2 f2
      /\ disjoint f1 f2
      /\ within h fp (f1 ++ f2)
      /\ preserves h h' fp.
Proof.
  induction t as [| w l IHl r IHr f]; intros fuel h p fp i t1 t2 H Hs Hfuel;
    [discriminate Hs |].
  apply rep_node_inv in H.
  destruct H as (a & pl & pr & fl & fr & -> & Ha & Hl & Hr & -> & Hal & Har
                 & Hndl & Hndr & Hd).
  destruct fuel as [| fuel]; [simpl in Hfuel; lia |].
  cbn [height] in Hfuel.
  cbn [h_splitAt splitAt] in *; rewrite Ha; cbv zeta.
  rewrite (c_isLeaf_rep h pl pr l r fl fr w f Hl Hr).
  cbn [weight_ left_ right_ fragment_].
  set (fp := a :: fl ++ fr).
  assert (Wa : within h fp [a])
    by (intros b [<- | []]; left; left; reflexivity).
  assert (Wfl : within h fp fl)
    by (intros b Hb; left; right; apply in_or_app; left; exact Hb).
  assert (Wfr : within h fp fr)
    by (intros b Hb; left; right; apply in_or_app; right; exact Hb).
  destruct (isLeaf l r) eqn:El.
  - (* a leaf is split into two new leaves *)
    destruct (substr f 0 i) as [s1 | | |]; try discriminate Hs.
    destruct (substr f i (wrap (w - i))) as [s2 | | |]; try discriminate Hs.
    cbn [bind] in *; injection Hs as <- <-.
    destruct (h_leaf_sim h s1) as (n1 & E1 & Hn1 & R1); rewrite E1.
    set (h1 := h_store h n1 (mkCell (slen s1) None None s1)) in *.
    destruct (h_leaf_sim h1 s2) as (n2 & E2 & Hn2 & R2); rewrite E2.
    set (h2 := h_store h1 n2 (mkCell (slen s2) None None s2)) in *.
    assert (Hn12 : n1 <> n2)
      by (intros ->; unfold h1 in Hn2; rewrite h_lookup_store_same in Hn2;
          discriminate Hn2).
    assert (Hn1a : n1 <> a) by (intros ->; congruence).
    assert (Hn2a : n2 <> a).
    { intros ->; unfold h1 in Hn2.
      rewrite h_lookup_store_other in Hn2 by (intros E; apply Hn1a; symmetry; exact E).
      congruence. }
    assert (P1 : preserves h h1 fp) by (apply preserves_store; right; exact Hn1).
    assert (P2 : preserves h h2 fp).
    { apply (preserves_trans h h1 h2 fp [n2] P1).
      - intros b [<- | []]; exact (within_fresh h h1 fp _ P1 Hn2).
      - apply preserves_store; left; left; reflexivity. }
    exists (Some n1), (Some n2), (h_free h2 a), [n1], [n2].
    split; [reflexivity |].
    split.
    { apply (rep_keep (leaf s1) h2 _ _ _ [a]);
        [| apply disjoint_single_r; intros [E | []]; exact (Hn1a E)
         | apply preserves_free; left; reflexivity].
      apply (rep_keep (leaf s1) h1 _ _ _ [n2]);
        [exact R1
        | apply disjoint_single_r; intros [E | []]; exact (Hn12 E)
        | apply preserves_store; left; left; reflexivity]. }
    split.
    { apply (rep_keep (leaf s2) h2 _ _ _ [a]);
        [exact R2
        | apply disjoint_single_r; intros [E | []]; exact (Hn2a E)
        | apply preserves_free; left; reflexivity]. }
    split; [apply disjoint_single_r; intros [E | []]; exact (Hn12 E) |].
    split.
    { intros b [<- | [<- | []]].
      - right; exact Hn1.
      - exact (within_fresh h h1 fp _ P1 Hn2). }
    apply (preserves_trans h h2 _ fp [a] P2 Wa).
    apply preserves_free; left; reflexivity.
  - destruct (i <? w) eqn:Eiw.
    + (* the split point lies in the left subtree; the node is reused *)
      destruct (splitAt l i) as [[ll lr] | | |] eqn:E; try discriminate Hs.
      cbn [bind] in Hs.
      destruct lr as [| w' l' r' f'] eqn:Elr; [discriminate Hs |].
      rewrite <- Elr in *.
      assert (Hlrn : lr <> null) by (rewrite Elr; discriminate).
      assert (Hc : concat lr r = Ret (node (getLength lr) lr r []))
        by (rewrite Elr; reflexivity).
      rewrite Hc in Hs; cbn [bind] in Hs; injection Hs as <- <-.
      destruct (splitAt_height l i ll lr E) as (Hh1 & Hh2).
      set (h1 := h_store h a (mkCell i None None f)).
      assert (P1 : preserves h h1 fp)
        by (apply preserves_store; left; left; reflexivity).
      assert (Ha1 : h_lookup h1 a <> None)
        by (unfold h1; rewrite h_lookup_store_same; discriminate).
      assert (Hl1 : rep h1 pl l fl).
      { apply (rep_keep l h _ _ _ [a]);
          [exact Hl | apply disjoint_single_r; exact Hal
          | apply preserves_store; left; left; reflexivity]. }
      assert (Hr1 : rep h1 pr r fr).
      { apply (rep_keep r h _ _ _ [a]);
          [exact Hr | apply disjoint_single_r; exact Har
          | apply preserves_store; left; left; reflexivity]. }
      destruct (IHl fuel h1 pl fl i ll lr Hl1 E ltac:(lia))
        as (p_ll & p_lr & h2 & f_ll & f_lr & Hrun & Rll & Rlr & Dl & Wl & Pl).
      rewrite Hrun; cbn [bind].
      set (h3 := h_store h2 a (mkCell i p_ll None f)).
      assert (Hanew : ~ In a (f_ll ++ f_lr)).
      { intros Hin; destruct (Wl a Hin) as [Hf | Hn];
          [exact (Hal Hf) | exact (Ha1 Hn)]. }
      assert (Hall : ~ In a f_ll)
        by (intros Hin; apply Hanew, in_or_app; left; exact Hin).
      assert (Halr : ~ In a f_lr)
        by (intros Hin; apply Hanew, in_or_app; right; exact Hin).
      assert (P23 : preserves h2 h3 [a])
        by (apply preserves_store; left; left; reflexivity).
      assert (Rll3 : rep h3 p_ll ll f_ll)
        by (apply (rep_keep ll h2 _ _ _ [a]);
            [exact Rll | apply disjoint_single_r; exact Hall | exact P23]).
      assert (Rlr3 : rep h3 p_lr lr f_lr)
        by (apply (rep_keep lr h2 _ _ _ [a]);
            [exact Rlr | apply disjoint_single_r; exact Halr | exact P23]).
      assert (Hr2 : rep h2 pr r fr)
        by (apply (rep_keep r h1 _ _ _ fl);
            [exact Hr1 | apply disjoint_sym; exact Hd | exact Pl]).
      assert (Rr3 : rep h3 pr r fr)
        by (apply (rep_keep r h2 _ _ _ [a]);
            [exact Hr2 | apply disjoint_single_r; exact Har | exact P23]).
      assert (Dnew : disjoint fr (f_ll ++ f_lr))
        by (apply (rep_disjoint_within r h1 pr fr fl);
            [exact Hr1 | apply disjoint_sym; exact Hd | exact Wl]).
      assert (Dlr : disjoint f_lr fr).
      { intros b Hb Hin; apply (Dnew b Hin), in_or_app; right; exact Hb. }
      destruct (h_concat_sim fuel h3 p_lr pr lr r f_lr fr Rlr3 Rr3 Dlr Hlrn
                  ltac:(lia)) as (n & Hcat & Hn & Rn).
      assert (Hcat' : h_concat fresh (S fuel) h3 p_lr pr
                      = Ret (Some n, h_store h3 n (mkCell (getLength lr) p_lr pr []))).
      { destruct (h_concat_sim (S fuel) h3 p_lr pr lr r f_lr fr Rlr3 Rr3 Dlr Hlrn
                    ltac:(lia)) as (n' & Hcat' & _).
        rewrite Hcat'; unfold h_concat in Hcat, Hcat'.
        destruct p_lr; [| discriminate Hcat].
        destruct (h_getLength fuel h3 a0); try discriminate Hcat.
        destruct (h_getLength (S fuel) h3 a0); try discriminate Hcat'.
        cbn [bind] in *; congruence. }
      fold h3; rewrite Hcat'; cbn [bind].
      set (h4 := h_store h3 n (mkCell (getLength lr) p_lr pr [])) in *.
      assert (Hna : n <> a)
        by (intros ->; unfold h3 in Hn; rewrite h_lookup_store_same in Hn;
            discriminate Hn).
      assert (P34 : preserves h3 h4 []) by (apply preserves_store; right; exact Hn).
      assert (P2 : preserves h h2 fp) by exact (preserves_trans h h1 h2 fp fl P1 Wfl Pl).
      assert (P3 : preserves h h3 fp) by exact (preserves_trans h h2 h3 fp [a] P2 Wa P23).
      assert (Wn : In n fp \/ h_lookup h n = None) by exact (within_fresh h h3 fp n P3 Hn).
      assert (Wnew : within h fp (f_ll ++ f_lr))
        by exact (within_trans h h1 fp fl _ P1 Wfl Wl).
      exists (Some a), (Some n), h4, (a :: f_ll ++ []), (n :: f_lr ++ fr).
      split; [reflexivity |].
      split.
      { apply (rep_node_intro _ _ _ p_ll None).
        - unfold h4; rewrite h_lookup_store_other by (intros E'; apply Hna; symmetry; exact E').
          unfold h3; apply h_lookup_store_same.
        - apply (rep_keep ll h3 _ _ _ []);
            [exact Rll3 | apply disjoint_nil_r | exact P34].
        - split; reflexivity.
        - exact Hall.
        - intros [].
        - apply disjoint_nil_r. }
      split; [exact Rn |].
      split.
      { intros b [<- | Hb].
        - intros [E' | Hin]; [exact (Hna E') |].
          apply in_app_or in Hin; destruct Hin; [exact (Halr H) | exact (Har H)].
        - rewrite app_nil_r in Hb.
          intros [<- | Hin].
          + exact (rep_live _ _ _ _ _ Rll3 Hb Hn).
          + apply in_app_or in Hin; destruct Hin as [Hin | Hin].
            * exact (Dl b Hb Hin).
            * apply (Dnew b Hin), in_or_app; left; exact Hb. }
      split.
      { rewrite app_nil_r.
        intros b Hb; apply in_app_or in Hb; destruct Hb as [[<- | Hb] | [<- | Hb]].
        - left; left; reflexivity.
        - apply Wnew, in_or_app; left; exact Hb.
        - exact Wn.
        - apply in_app_or in Hb; destruct Hb as [Hb | Hb].
          + apply Wnew, in_or_app; right; exact Hb.
          + apply Wfr; exact Hb. }
      apply (preserves_trans h h3 h4 fp [n] P3).
      * intros b [<- | []]; exact Wn.
      * apply preserves_store; left; left; reflexivity.
    + destruct (w <? i) eqn:Ewi.
      * (* the split point lies in the right subtree; the node is reused *)
        destruct (splitAt r (wrap (i - w))) as [[rl rr] | | |] eqn:E;
          try discriminate Hs.
        cbn [bind] in Hs; injection Hs as <- <-.
        set (h1 := h_store h a (mkCell w pl None f)).
        assert (P1 : preserves h h1 fp)
          by (apply preserves_store; left; left; reflexivity).
        assert (Ha1 : h_lookup h1 a <> None)
          by (unfold h1; rewrite h_lookup_store_same; discriminate).
        assert (Hl1 : rep h1 pl l fl).
        { apply (rep_keep l h _ _ _ [a]);
            [exact Hl | apply disjoint_single_r; exact Hal
            | apply preserves_store; left; left; reflexivity]. }
        assert (Hr1 : rep h1 pr r fr).
        { apply (rep_keep r h _ _ _ [a]);
            [exact Hr | apply disjoint_single_r; exact Har
            | apply preserves_store; left; left; reflexivity]. }
        destruct (IHr fuel h1 pr fr (wrap (i - w)) rl rr Hr1 E ltac:(lia))
          as (p_rl & p_rr & h2 & f_rl & f_rr & Hrun & Rrl & Rrr & Dr & Wr & Pr).
        rewrite Hrun; cbn [bind].
        set (h3 := h_store h2 a (mkCell w pl p_rl f)).
        assert (Hanew : ~ In a (f_rl ++ f_rr)).
        { intros Hin; destruct (Wr a Hin) as [Hf | Hn];
            [exact (Har Hf) | exact (Ha1 Hn)]. }
        assert (Harl : ~ In a f_rl)
          by (intros Hin; apply Hanew, in_or_app; left; exact Hin).
        assert (Harr : ~ In a f_rr)
          by (intros Hin; apply Hanew, in_or_app; right; exact Hin).
        assert (P23 : preserves h2 h3 [a])
          by (apply preserves_store; left; left; reflexivity).
        assert (Hl2 : rep h2 pl l fl)
          by (apply (rep_keep l h1 _ _ _ fr); [exact Hl1 | exact Hd | exact Pr]).
        assert (Dnew : disjoint fl (f_rl ++ f_rr))
          by (apply (rep_disjoint_within l h1 pl fl fr);
              [exact Hl1 | exact Hd | exact Wr]).
        assert (P2 : preserves h h2 fp)
          by exact (preserves_trans h h1 h2 fp fr P1 Wfr Pr).
        assert (Wnew : within h fp (f_rl ++ f_rr))
          by exact (within_trans h h1 fp fr _ P1 Wfr Wr).
        exists (Some a), p_rr, h3, (a :: fl ++ f_rl), f_rr.
        split; [reflexivity |].
        split.
        { apply (rep_node_intro _ _ _ pl p_rl).
          - unfold h3; apply h_lookup_store_same.
          - apply (rep_keep l h2 _ _ _ [a]);
              [exact Hl2 | apply disjoint_single_r; exact Hal | exact P23].
          - apply (rep_keep rl h2 _ _ _ [a]);
              [exact Rrl | apply disjoint_single_r; exact Harl | exact P23].
          - exact Hal.
          - exact Harl.
          - intros b Hb Hin; apply (Dnew b Hb), in_or_app; left; exact Hin. }
        split.
        { apply (rep_keep rr h2 _ _ _ [a]);
            [exact Rrr | apply disjoint_single_r; exact Harr | exact P23]. }
        split.
        { intros b [<- | Hb]; [exact Harr |].
          apply in_app_or in Hb; destruct Hb as [Hb | Hb].
          - intros Hin; apply (Dnew b Hb), in_or_app; right; exact Hin.
          - exact (Dr b Hb). }
        split.
        { intros b Hb; apply in_app_or in Hb; destruct Hb as [[<- | Hb] | Hb].
          - left; left; reflexivity.
          - apply in_app_or in Hb; destruct Hb as [Hb | Hb].
            + apply Wfl; exact Hb.
            + apply Wnew, in_or_app; left; exact Hb.
          - apply Wnew, in_or_app; right; exact Hb. }
        exact (preserves_trans h h2 h3 fp [a] P2 Wa P23).
      * (* a clean cut: the children are the result, the node is released *)
        injection Hs as <- <-.
        assert (Pf : preserves h (h_free h a) [a])
          by (apply preserves_free; left; reflexivity).
        exists pl, pr, (h_free h a), fl, fr.
        split; [reflexivity |].
        split; [apply (rep_keep l h _ _ _ [a]);
                [exact Hl | apply disjoint_single_r; exact Hal | exact Pf] |].
        split; [apply (rep_keep r h _ _ _ [a]);
                [exact Hr | apply disjoint_single_r; exact Har | exact Pf] |].
        split; [exact Hd |].
        split; [apply within_app; assumption |].
        exact (preserves_trans h h _ fp [a] (preserves_refl h fp) Wa Pf).
Qed.

(** The three steps that [insert] performs once the argument has been
    copied: the split of the root and the two concatenations. *)
Lemma h_insert_core (fuel : nat) (h : heap) (pthis ptmp : ptr) (i : Z)
  (t tx first second : handle) (fp ftmp : list addr) :
  rep h pthis t fp -> rep h ptmp tx ftmp -> disjoint fp ftmp ->
  splitAt t i = Ret (first, second) -> first <> null ->
  (height t + 1 <= fuel)%nat -> (height tx + 1 <= fuel)%nat ->
  exists p1 p2 h2 c1 h3 c2 h4 fp',
    h_splitAt fresh fuel h pthis i = Ret (p1, p2, h2)
    /\ h_concat fresh fuel h2 p1 ptmp = Ret (c1, h3)
    /\ h_concat fresh fuel h3 c1 p2 = Ret (c2, h4)
    /\ rep h4 c2
         (node (getLength (node (getLength first) first tx []))
            (node (getLength first) first tx []) second []) fp'
    /\ within h (fp ++ ftmp) fp'
    /\ preserves h h4 (fp ++ ftmp).
Proof.
  intros Rt Rx D Hs Hfn Hft Hfx.
  destruct (splitAt_height t i first second Hs) as (Hh1 & Hh2).
  destruct (h_splitAt_sim t fuel h pthis fp i first second Rt Hs ltac:(lia))
    as (p1 & p2 & h2 & f1 & f2 & Hrun & R1 & R2 & D12 & W12 & P2).
  assert (Rx2 : rep h2 ptmp tx ftmp)
    by (apply (rep_keep tx h _ _ _ fp); [exact Rx | apply disjoint_sym; exact D | exact P2]).
  assert (Dx : disjoint ftmp (f1 ++ f2))
    by (apply (rep_disjoint_within tx h ptmp ftmp fp);
        [exact Rx | apply disjoint_sym; exact D | exact W12]).
  assert (D1x : disjoint f1 ftmp)
    by (intros b Hb Hin; apply (Dx b Hin), in_or_app; left; exact Hb).
  assert (D2x : disjoint f2 ftmp)
    by (intros b Hb Hin; apply (Dx b Hin), in_or_app; right; exact Hb).
  destruct (h_concat_sim fuel h2 p1 ptmp first tx f1 ftmp R1 Rx2 D1x Hfn ltac:(lia))
    as (n1 & Hc1 & Hn1 & Rc1).
  set (h3 := h_store h2 n1 (mkCell (getLength first) p1 ptmp [])) in *.
  assert (P23 : preserves h2 h3 []) by (apply preserves_store; right; exact Hn1).
  assert (R2' : rep h3 p2 second f2) by exact (rep_keep_fresh second h2 h3 p2 f2 R2 P23).
  assert (Dc1 : disjoint (n1 :: f1 ++ ftmp) f2).
  { intros b [<- | Hb].
    - exact (fresh_not_in second h2 p2 f2 n1 R2 Hn1).
    - apply in_app_or in Hb; destruct Hb as [Hb | Hb];
        [exact (D12 b Hb) | intros Hin; exact (D2x b Hin Hb)]. }
  destruct (h_concat_sim fuel h3 (Some n1) p2
              (node (getLength first) first tx []) second
              (n1 :: f1 ++ ftmp) f2 Rc1 R2' Dc1 ltac:(discriminate)
              ltac:(cbn [height]; lia))
    as (n2 & Hc2 & Hn2 & Rc2).
  set (tc := node (getLength first) first tx []) in *.
  set (h4 := h_store h3 n2 (mkCell (getLength tc) (Some n1) p2 [])) in *.
  set (fin := fp ++ ftmp).
  assert (Wfp : within h fin fp)
    by (intros b Hb; left; apply in_or_app; left; exact Hb).
  assert (Wft : within h fin ftmp)
    by (intros b Hb; left; apply in_or_app; right; exact Hb).
  assert (P02 : preserves h h2 fin)
    by (apply (preserves_weaken h h2 fp); [apply incl_appl, incl_refl | exact P2]).
  assert (Wn1 : In n1 fin \/ h_lookup h n1 = None)
    by exact (within_fresh h h2 fin n1 P02 Hn1).
  assert (P03 : preserves h h3 fin).
  { apply (preserves_trans h h2 h3 fin [n1] P02).
    - intros b [<- | []]; exact Wn1.
    - apply preserves_store; left; left; reflexivity. }
  assert (Wn2 : In n2 fin \/ h_lookup h n2 = None)
    by exact (within_fresh h h3 fin n2 P03 Hn2).
  assert (W12' : within h fin (f1 ++ f2))
    by (apply (within_weaken h fp); [apply incl_appl, incl_refl | exact W12]).
  exists p1, p2, h2, (Some n1), h3, (Some n2), h4, (n2 :: (n1 :: f1 ++ ftmp) ++ f2).
  split; [exact Hrun |].
  split; [exact Hc1 |].
  split; [exact Hc2 |].
  split; [exact Rc2 |].
  split.
  - apply within_cons; [exact Wn2 |].
    apply within_app.
    + apply within_cons; [exact Wn1 |].
      apply within_app; [| exact Wft].
      intros b Hb; apply W12', in_or_app; left; exact Hb.
    + intros b Hb; apply W12', in_or_app; right; exact Hb.
  - apply (preserves_trans h h3 h4 fin [n2] P03).
    + intros b [<- | []]; exact Wn2.
    + apply preserves_store; left; left; reflexivity.
Qed.

Lemma h_length_sim (t : handle) (fuel : nat) (h : heap) (p : ptr)
  (fp : list addr) :
  rep h p t fp -> (height t <= fuel)%nat ->
  h_length fuel h p = Ret (length (mkRope t)).
Proof.
  intros H Hfuel.
  destruct t as [| w l r f].
  - destruct H as (-> & _); reflexivity.
  - pose proof H as (a & pl & pr & fl & fr & -> & _).
    exact (h_getLength_sim _ fuel h a fp H Hfuel).
Qed.

(** [insert] on root pointers, the argument being any rope, [*this]
    included: the call returns the root of the tree that [insert] computes,
    made of nodes of the old tree and of storage that was not in use; every
    other node is left as it is. *)
Lemma h_insert_root_sim (fuel : nat) (h : heap) (pthis parg : ptr)
  (i : Z) (t tx : handle) (fp fx : list addr) (r' : rope) :
  rep h pthis t fp -> rep h parg tx fx ->
  insert (mkRope t) i (mkRope tx) = Done r' ->
  (height t + 2 <= fuel)%nat -> (height tx + 2 <= fuel)%nat ->
  exists p' h' fp',
    h_insert_root fresh fuel h pthis parg i = Ret (p', h')
    /\ rep h' p' (root_ r') fp'
    /\ within h fp fp'
    /\ preserves h h' fp.
Proof.
  intros Rt Rx Hv Hft Hfx.
  unfold insert in Hv.
  destruct (length (mkRope t) <? i) eqn:El; [discriminate Hv |].
  destruct tx as [| wx lx rx fx'] eqn:Etx; [discriminate Hv |].
  rewrite <- Etx in *.
  assert (Hxn : tx <> null) by (rewrite Etx; discriminate).
  rewrite rope_copy_nonnull in Hv by exact Hxn.
  cbn [root_] in Hv.
  destruct (splitAt t i) as [[first second] | | |] eqn:Es; try discriminate Hv.
  cbn [bind] in Hv.
  destruct first as [| w1 l1 r1 f1'] eqn:Ef; [discriminate Hv |].
  rewrite <- Ef in *.
  assert (Hfn : first <> null) by (rewrite Ef; discriminate).
  rewrite (concat_nonnull first tx Hfn) in Hv; cbn [bind] in Hv.
  rewrite concat_nonnull in Hv by discriminate.
  cbn [after_move] in Hv; injection Hv as <-; cbn [root_].
  unfold h_insert_root.
  rewrite (h_length_sim t fuel h pthis fp Rt ltac:(lia)); cbn [bind].
  rewrite El.
  destruct (h_rope_copy_sim tx fuel h parg fx Rx Hxn ltac:(lia))
    as (ptmp & h1 & ftmp & Hcp & Rtmp & Wtmp & P01).
  rewrite Hcp; cbn [bind].
  assert (Rt1 : rep h1 pthis t fp) by exact (rep_keep_fresh t h h1 _ fp Rt P01).
  assert (D : disjoint fp ftmp) by exact (rep_disjoint_fresh t h _ fp ftmp Rt Wtmp).
  destruct (h_insert_core fuel h1 pthis ptmp i t tx first second fp ftmp
              Rt1 Rtmp D Es Hfn ltac:(lia) ltac:(lia))
    as (p1 & p2 & h2 & c1 & h3 & c2 & h4 & fp' & Hrun & Hc1 & Hc2 & Rc & Wc & Pc).
  rewrite Hrun; cbn [bind]; rewrite Hc1; cbn [bind]; rewrite Hc2.
  assert (P01' : preserves h h1 fp)
    by (apply (preserves_weaken h h1 []); [intros b [] | exact P01]).
  assert (Win : within h fp (fp ++ ftmp)).
  { apply within_app; [apply within_self |].
    apply (within_weaken h []); [intros b [] | exact Wtmp]. }
  exists c2, h4, fp'.
  split; [reflexivity |].
  split; [exact Rc |].
  split; [exact (within_trans h h1 fp (fp ++ ftmp) fp' P01' Win Wc) |].
  exact (preserves_trans h h1 h4 fp (fp ++ ftmp) P01' Win Pc).
Qed.

Lemma h_append_root_sim (fuel : nat) (h : heap) (pthis parg : ptr)
  (t tx : handle) (fp fx : list addr) (r' : rope) :
  rep h pthis t fp -> rep h parg tx fx ->
  append (mkRope t) (mkRope tx) = Done r' ->
  (height t + 2 <= fuel)%nat -> (height tx + 2 <= fuel)%nat ->
  exists p' h' fp',
    h_append_root fresh fuel h pthis parg = Ret (p', h')
    /\ rep h' p' (root_ r') fp'
    /\ within h fp fp'
    /\ preserves h h' fp.
Proof.
  intros Rt Rx Hv Hft Hfx.
  unfold append in Hv.
  destruct tx as [| wx lx rx fx'] eqn:Etx; [discriminate Hv |].
  rewrite <- Etx in *.
  assert (Hxn : tx <> null) by (rewrite Etx; discriminate).
  rewrite rope_copy_nonnull in Hv by exact Hxn.
  cbn [root_] in Hv.
  destruct t as [| w l r f] eqn:Et; [discriminate Hv |].
  rewrite <- Et in *.
  assert (Htn : t <> null) by (rewrite Et; discriminate).
  rewrite (concat_nonnull t tx Htn) in Hv.
  cbn [after_move] in Hv; injection Hv as <-; cbn [root_].
  unfold h_append_root.
  destruct (h_rope_copy_sim tx fuel h parg fx Rx Hxn ltac:(lia))
    as (ptmp & h1 & ftmp & Hcp & Rtmp & Wtmp & P01).
  rewrite Hcp; cbn [bind].
  assert (Rt1 : rep h1 pthis t fp) by exact (rep_keep_fresh t h h1 _ fp Rt P01).
  assert (D : disjoint fp ftmp) by exact (rep_disjoint_fresh t h _ fp ftmp Rt Wtmp).
  destruct (h_concat_sim fuel h1 pthis ptmp t tx fp ftmp Rt1 Rtmp D Htn ltac:(lia))
    as (n & Hc & Hn & Rc).
  rewrite Hc.
  assert (P01' : preserves h h1 fp)
    by (apply (preserves_weaken h h1 []); [intros b [] | exact P01]).
  assert (Wn : In n fp \/ h_lookup h n = None)
    by exact (within_fresh h h1 fp n P01' Hn).
  eexists; eexists; exists (n :: fp ++ ftmp).
  split; [reflexivity |].
  split; [exact Rc |].
  split.
  - apply within_cons; [exact Wn |].
    apply within_app; [apply within_self |].
    apply (within_weaken h []); [intros b [] | exact Wtmp].
  - apply (preserves_trans h h1 _ fp [n] P01').
    + intros b [<- | []]; exact Wn.
    + apply preserves_store; left; left; reflexivity.
Qed.

Lemma h_rdelete_root_sim (fuel : nat) (h : heap) (pthis : ptr)
  (start len : Z) (t : handle) (fp : list addr) (r' : rope) :
  rep h pthis t fp ->
  rdelete (mkRope t) start len = Done r' ->
  (height t + 2 <= fuel)%nat ->
  exists p' h' fp',
    h_rdelete_root fresh fuel h pthis start len = Ret (p', h')
    /\ rep h' p' (root_ r') fp'
    /\ within h fp fp'
    /\ preserves h h' fp.
Proof.
  intros Rt Hv Hft.
  unfold rdelete in Hv; cbv zeta in Hv.
  destruct (range_rejected (length (mkRope t)) start len) eqn:El;
    [discriminate Hv |].
  cbn [root_] in Hv.
  destruct (splitAt t start) as [[first1 second1] | | |] eqn:Es1;
    try discriminate Hv.
  cbn [bind] in Hv.
  destruct (splitAt second1 len) as [[first2 second2] | | |] eqn:Es2;
    try discriminate Hv.
  cbn [bind] in Hv.
  destruct first1 as [| w1 l1 r1 f1'] eqn:Ef; [discriminate Hv |].
  rewrite <- Ef in *.
  assert (Hfn : first1 <> null) by (rewrite Ef; discriminate).
  rewrite (concat_nonnull first1 second2 Hfn) in Hv.
  cbn [after_move] in Hv; injection Hv as <-; cbn [root_].
  destruct (splitAt_height t start first1 second1 Es1) as (Hh1 & Hh2).
  destruct (splitAt_height second1 len first2 second2 Es2) as (Hh3 & Hh4).
  unfold h_rdelete_root.
  rewrite (h_length_sim t fuel h pthis fp Rt ltac:(lia)); cbn [bind].
  rewrite El.
  destruct (h_splitAt_sim t fuel h pthis fp start first1 second1 Rt Es1 ltac:(lia))
    as (p1 & p2 & h1 & f1 & f2 & Hrun1 & R1 & R2 & D12 & W12 & P1).
  rewrite Hrun1; cbn [bind].
  destruct (h_splitAt_sim second1 fuel h1 p2 f2 len first2 second2 R2 Es2 ltac:(lia))
    as (p3 & p4 & h2 & f3 & f4 & Hrun2 & R3 & R4 & D34 & W34 & P2).
  rewrite Hrun2; cbn [bind].
  assert (R1' : rep h2 p1 first1 f1)
    by (apply (rep_keep first1 h1 _ _ _ f2); [exact R1 | exact D12 | exact P2]).
  assert (D1new : disjoint f1 (f3 ++ f4))
    by exact (rep_disjoint_within first1 h1 p1 f1 f2 (f3 ++ f4) R1 D12 W34).
  destruct (h_delete_sim first2 fuel h2 p3 f3 R3 ltac:(lia)) as (h3 & Hd & P3).
  rewrite Hd; cbn [bind].
  assert (D13 : disjoint f1 f3)
    by (intros b Hb Hin; apply (D1new b Hb), in_or_app; left; exact Hin).
  assert (D14 : disjoint f1 f4)
    by (intros b Hb Hin; apply (D1new b Hb), in_or_app; right; exact Hin).
  assert (R1'' : rep h3 p1 first1 f1)
    by (apply (rep_keep first1 h2 _ _ _ f3); [exact R1' | exact D13 | exact P3]).
  assert (R4' : rep h3 p4 second2 f4)
    by (apply (rep_keep second2 h2 _ _ _ f3);
        [exact R4 | apply disjoint_sym; exact D34 | exact P3]).
  destruct (h_concat_sim fuel h3 p1 p4 first1 second2 f1 f4 R1'' R4' D14 Hfn
              ltac:(lia)) as (n & Hc & Hn & Rc).
  rewrite Hc.
  assert (Wf2 : within h fp f2)
    by (intros b Hb; apply W12, in_or_app; right; exact Hb).
  assert (Wf1 : within h fp f1)
    by (intros b Hb; apply W12, in_or_app; left; exact Hb).
  assert (P02 : preserves h h2 fp) by exact (preserves_trans h h1 h2 fp f2 P1 Wf2 P2).
  assert (W34' : within h fp (f3 ++ f4))
    by exact (within_trans h h1 fp f2 (f3 ++ f4) P1 Wf2 W34).
  assert (Wf3 : within h fp f3)
    by (intros b Hb; apply W34', in_or_app; left; exact Hb).
  assert (Wf4 : within h fp f4)
    by (intros b Hb; apply W34', in_or_app; right; exact Hb).
  assert (P03 : preserves h h3 fp) by exact (preserves_trans h h2 h3 fp f3 P02 Wf3 P3).
  assert (Wn : In n fp \/ h_lookup h n = None)
    by exact (within_fresh h h3 fp n P03 Hn).
  eexists; eexists; exists (n :: f1 ++ f4).
  split; [reflexivity |].
  split; [exact Rc |].
  split.
  - apply within_cons; [exact Wn |].
    apply within_app; assumption.
  - apply (preserves_trans h h3 _ fp [n] P03).
    + intros b [<- | []]; exact Wn.
    + apply preserves_store; left; left; reflexivity.
Qed.

End Simulation.

(** ** Rope objects in memory refine the ropes of a store *)

Lemma rope_eta (r : rope) : mkRope (root_ r) = r.
Proof. destruct r; reflexivity. Qed.

Lemma stands_for_update (h h' : heap) (sto sto' : objects) (vst : store)
  (fps : nat -> list addr) (this : nat) (r' : rope) (fp' : list addr) :
  stands_for h sto vst fps ->
  (forall o, o <> this -> sto' o = sto o) ->
  rep h' (sto' this) (root_ r') fp' ->
  within h (fps this) fp' ->
  preserves h h' (fps this) ->
  stands_for h' sto' (upd vst this r')
    (fun o => if Nat.eqb o this then fp' else fps o).
Proof.
  intros (Hrep & Hdis) Hsto Hr' Hw Hp.
  split.
  - intros o; unfold upd.
    destruct (Nat.eqb o this) eqn:E.
    + apply Nat.eqb_eq in E; subst o; exact Hr'.
    + apply Nat.eqb_neq in E; rewrite (Hsto o E).
      apply (rep_keep (root_ (vst o)) h _ _ _ (fps this));
        [apply Hrep | apply Hdis; exact E | exact Hp].
  - intros o o' Hne.
    destruct (Nat.eqb o this) eqn:E; destruct (Nat.eqb o' this) eqn:E'.
    + apply Nat.eqb_eq in E, E'; congruence.
    + apply Nat.eqb_neq in E'.
      apply disjoint_sym.
      apply (rep_disjoint_within (root_ (vst o')) h (sto o') (fps o') (fps this));
        [apply Hrep | apply Hdis; exact E' | exact Hw].
    + apply Nat.eqb_neq in E.
      apply (rep_disjoint_within (root_ (vst o)) h (sto o) (fps o) (fps this));
        [apply Hrep | apply Hdis; exact E | exact Hw].
    + apply Hdis; exact Hne.
Qed.

Section Refinement.

Variable fresh : heap -> addr.
Hypothesis fresh_spec : forall h, h_lookup h (fresh h) = None.

(** A mutator that returns on the rope of [*this] returns on the rope
    objects in memory with the root of the tree it computes, made of nodes of
    the old tree of [*this] and of storage that was not in use; every other
    node is left as it is. *)
Lemma h_run_sim (fuel : nat) (sto : objects) (h : heap) (vst : store)
  (fps : nat -> list addr) (this : nat) (m : mutation) (r' : rope) :
  stands_for h sto vst fps ->
  run vst this m = Done r' ->
  (3 <= fuel)%nat ->
  (forall o, height (root_ (vst o)) + 2 <= fuel)%nat ->
  exists p' h' fp',
    h_run fresh fuel sto h this m = Ret (set_root sto this p', h')
    /\ rep h' p' (root_ r') fp'
    /\ within h (fps this) fp'
    /\ preserves h h' (fps this).
Proof.
  intros Hst Hrun Hf3 Hfuel.
  pose proof Hst as (Hrep & Hdis).
  destruct m as [i arg | i s | arg | s | start len]; cbn [run h_run] in *.
  - (* insert(i, rope) *)
    rewrite <- (rope_eta (vst this)), <- (rope_eta (vst arg)) in Hrun.
    destruct (h_insert_root_sim fresh fresh_spec fuel h (sto this) (sto arg) i
                _ _ _ _ r' (Hrep this) (Hrep arg) Hrun (Hfuel this) (Hfuel arg))
      as (p' & h' & fp' & Hr & Rr & Wr & Pr).
    rewrite Hr; cbn [bind].
    exists p', h', fp'; split; [reflexivity | exact (conj Rr (conj Wr Pr))].
  - (* insert(i, string) *)
    unfold insert_str in Hrun.
    rewrite <- (rope_eta (vst this)) in Hrun.
    destruct (h_leaf_sim fresh fresh_spec h s) as (n0 & E0 & Hn0 & R0).
    rewrite E0.
    set (h0 := h_store h n0 (mkCell (slen s) None None s)) in *.
    assert (P00 : preserves h h0 []) by (apply preserves_store; right; exact Hn0).
    assert (Rt0 : rep h0 (sto this) (root_ (vst this)) (fps this))
      by exact (rep_keep_fresh _ h h0 _ _ (Hrep this) P00).
    destruct (h_insert_root_sim fresh fresh_spec fuel h0 (sto this) (Some n0) i
                _ (leaf s) _ _ r' Rt0 R0 Hrun (Hfuel this)
                ltac:(cbn [leaf height]; simpl; lia))
      as (p' & h1 & fp' & Hr & Rr & Wr & Pr).
    rewrite Hr; cbn [bind].
    assert (Hn0fp : ~ In n0 (fps this))
      by exact (fresh_not_in _ h _ _ n0 (Hrep this) Hn0).
    assert (Hn0live : h_lookup h0 n0 <> None)
      by (unfold h0; rewrite h_lookup_store_same; discriminate).
    assert (R01 : rep h1 (Some n0) (leaf s) [n0]).
    { apply (rep_keep _ h0 _ _ _ (fps this)); [exact R0 | | exact Pr].
      intros b [<- | []]; exact Hn0fp. }
    destruct (h_delete_sim (leaf s) fuel h1 (Some n0) [n0] R01
                ltac:(cbn [leaf height]; simpl; lia)) as (h2 & Hd & Pd).
    rewrite Hd; cbn [bind].
    assert (Hn0new : ~ In n0 fp').
    { intros Hin; destruct (Wr n0 Hin) as [Hf | Hn];
        [exact (Hn0fp Hf) | exact (Hn0live Hn)]. }
    assert (P0 : preserves h h0 (fps this))
      by (apply (preserves_weaken h h0 []); [intros b [] | exact P00]).
    assert (P1 : preserves h h1 (fps this))
      by exact (preserves_trans h h0 h1 _ _ P0 (within_self h _) Pr).
    assert (Wn0 : within h (fps this) [n0])
      by (intros b [<- | []]; right; exact Hn0).
    exists p', h2, fp'; split; [reflexivity |].
    split; [| split].
    + apply (rep_keep _ h1 _ _ _ [n0]);
        [exact Rr | apply disjoint_single_r; exact Hn0new | exact Pd].
    + exact (within_trans h h0 _ _ fp' P0 (within_self h _) Wr).
    + exact (preserves_trans h h1 h2 _ _ P1 Wn0 Pd).
  - (* append(rope) *)
    rewrite <- (rope_eta (vst this)), <- (rope_eta (vst arg)) in Hrun.
    destruct (h_append_root_sim fresh fresh_spec fuel h (sto this) (sto arg)
                _ _ _ _ r' (Hrep this) (Hrep arg) Hrun (Hfuel this) (Hfuel arg))
      as (p' & h' & fp' & Hr & Rr & Wr & Pr).
    rewrite Hr; cbn [bind].
    exists p', h', fp'; split; [reflexivity | exact (conj Rr (conj Wr Pr))].
  - (* append(string) *)
    unfold append_str in Hrun; cbv zeta in Hrun.
    destruct (root_ (vst this)) as [| w l r f] eqn:Et; [discriminate Hrun |].
    rewrite <- Et in *.
    assert (Htn : root_ (vst this) <> null) by (rewrite Et; discriminate).
    rewrite (concat_nonnull _ _ Htn) in Hrun.
    cbn [after_move] in Hrun; injection Hrun as <-.
    destruct (h_leaf_sim fresh fresh_spec h s) as (n0 & E0 & Hn0 & R0).
    rewrite E0.
    set (h0 := h_store h n0 (mkCell (slen s) None None s)) in *.
    assert (P00 : preserves h h0 []) by (apply preserves_store; right; exact Hn0).
    assert (Rt0 : rep h0 (sto this) (root_ (vst this)) (fps this))
      by exact (rep_keep_fresh _ h h0 _ _ (Hrep this) P00).
    assert (Hn0fp : ~ In n0 (fps this))
      by exact (fresh_not_in _ h _ _ n0 (Hrep this) Hn0).
    destruct (h_concat_sim fresh fresh_spec fuel h0 (sto this) (Some n0)
                (root_ (vst this)) (leaf s) (fps this) [n0] Rt0 R0
                ltac:(apply disjoint_single_r; exact Hn0fp) Htn
                ltac:(specialize (Hfuel this); lia))
      as (n & Hc & Hn & Rc).
    rewrite Hc; cbn [bind].
    assert (P0 : preserves h h0 (fps this))
      by (apply (preserves_weaken h h0 []); [intros b [] | exact P00]).
    assert (Wn : In n (fps this) \/ h_lookup h n = None)
      by exact (within_fresh h h0 _ n P0 Hn).
    eexists; eexists; eexists; split; [reflexivity |].
    split; [| split].
    + exact Rc.
    + apply within_cons; [exact Wn |].
      apply within_app; [apply within_self |].
      intros b [<- | []]; right; exact Hn0.
    + apply (preserves_trans h h0 _ _ [n] P0).
      * intros b [<- | []]; exact Wn.
      * apply preserves_store; left; left; reflexivity.
  - (* rdelete *)
    rewrite <- (rope_eta (vst this)) in Hrun.
    destruct (h_rdelete_root_sim fresh fresh_spec fuel h (sto this) start len
                _ _ r' (Hrep this) Hrun (Hfuel this))
      as (p' & h' & fp' & Hr & Rr & Wr & Pr).
    rewrite Hr; cbn [bind].
    exists p', h', fp'; split; [reflexivity | exact (conj Rr (conj Wr Pr))].
Qed.

(** [operator=] on two distinct objects whose right-hand side has a root:
    the old tree of the left-hand side is released and the tree of the
    right-hand side is cloned into storage that is not in use. *)
Lemma h_assign_sim (fuel : nat) (sto : objects) (h : heap) (vst : store)
  (fps : nat -> list addr) (r s : nat) :
  stands_for h sto vst fps ->
  r <> s -> root_ (vst s) <> null ->
  (forall o, height (root_ (vst o)) < fuel)%nat ->
  exists p' h' fp',
    h_assign fresh fuel sto h r s
    = Ret (set_root (set_root sto r None) r p', h')
    /\ rep h' p' (root_ (vst s)) fp'
    /\ within h (fps r) fp'
    /\ preserves h h' (fps r).
Proof.
  intros Hst Hne Hsn Hfuel.
  pose proof Hst as (Hrep & Hdis).
  assert (Hne' : s <> r) by (intros E; apply Hne; symmetry; exact E).
  unfold h_assign.
  destruct (Nat.eqb r s) eqn:Ers; [apply Nat.eqb_eq in Ers; congruence |].
  destruct (h_delete_sim (root_ (vst r)) fuel h (sto r) (fps r) (Hrep r) (Hfuel r))
    as (h1 & Hd & P1).
  rewrite Hd; cbn [bind]; cbv zeta.
  rewrite (set_root_other sto r s None) by exact Hne'.
  assert (Rs1 : rep h1 (sto s) (root_ (vst s)) (fps s)).
  { apply (rep_keep (root_ (vst s)) h _ _ _ (fps r));
      [apply Hrep | apply Hdis; exact Hne' | exact P1]. }
  destruct (sto s) as [a |] eqn:Es;
    [| apply (rep_null_iff _ h1 None (fps s)) in Rs1;
       exfalso; apply Hsn, Rs1; reflexivity].
  destruct (h_clone_sim fresh fresh_spec (root_ (vst s)) fuel h1 (Some a) (fps s)
              Rs1 (Hfuel s))
    as (p' & h2 & fr' & Hc & Rc & Wc & P2).
  rewrite Hc; cbn [bind].
  exists p', h2, fr'.
  split; [reflexivity |].
  split; [exact Rc |].
  split.
  - exact (within_trans h h1 (fps r) [] fr' P1 (within_nil h _) Wc).
  - exact (preserves_trans h h1 h2 (fps r) [] P1 (within_nil h _) P2).
Qed.

(** Every mutator ([insert], [append], [rdelete], with a rope or a string)
    that returns on the ropes of a store returns on the rope objects in
    memory, which then stand for the store it leaves: [*this] holds the tree
    the mutator computes, every other object holds the nodes it held, and no
    two trees share a node.  The rope argument may be [*this]. *)
Theorem h_run_refines (fuel : nat) (sto : objects) (h : heap) (vst vst' : store)
  (fps : nat -> list addr) (this : nat) (m : mutation) :
  stands_for h sto vst fps ->
  mutate vst this m = Done vst' ->
  (3 <= fuel)%nat ->
  (forall o, height (root_ (vst o)) + 2 <= fuel)%nat ->
  exists sto' h' fps',
    h_run fresh fuel sto h this m = Ret (sto', h')
    /\ stands_for h' sto' vst' fps'
    /\ (forall o, o <> this -> sto' o = sto o /\ fps' o = fps o).
Proof.
  intros Hst Hm Hf3 Hfuel.
  unfold mutate in Hm.
  destruct (run vst this m) as [r' | | |] eqn:Hrun; try discriminate Hm.
  injection Hm as <-.
  destruct (h_run_sim fuel sto h vst fps this m r' Hst Hrun Hf3 Hfuel)
    as (p' & h' & fp' & Hr & Rr & Wr & Pr).
  exists (set_root sto this p'), h',
    (fun o => if Nat.eqb o this then fp' else fps o).
  split; [exact Hr |].
  split.
  - apply (stands_for_update h h' sto _ vst fps this r' fp' Hst);
      [intros o Ho; apply set_root_other; exact Ho
      | rewrite set_root_same; exact Rr | exact Wr | exact Pr].
  - intros o Ho; split; [apply set_root_other; exact Ho |].
    destruct (Nat.eqb o this) eqn:E; [apply Nat.eqb_eq in E; congruence | reflexivity].
Qed.

(** [operator=] that returns on the ropes of a store returns on the rope
    objects in memory, which then stand for the store it leaves: the
    left-hand side holds a tree equal to that of the right-hand side, every
    other object holds the nodes it held, and no two trees share a node. *)
Theorem h_assign_refines (fuel : nat) (sto : objects) (h : heap)
  (vst vst' : store) (fps : nat -> list addr) (r s : nat) :
  stands_for h sto vst fps ->
  assign vst r s = Ret vst' ->
  (forall o, height (root_ (vst o)) < fuel)%nat ->
  exists sto' h' fps',
    h_assign fresh fuel sto h r s = Ret (sto', h')
    /\ stands_for h' sto' vst' fps'
    /\ (forall o, o <> r -> sto' o = sto o /\ fps' o = fps o).
Proof.
  intros Hst Ha Hfuel.
  unfold assign in Ha.
  destruct (Nat.eqb r s) eqn:Ers.
  - injection Ha as <-.
    exists sto, h, fps.
    split; [unfold h_assign; rewrite Ers; reflexivity |].
    split; [exact Hst | auto].
  - apply Nat.eqb_neq in Ers.
    destruct (root_ (vst s)) as [| w l rr f] eqn:Ets; [discriminate Ha |].
    rewrite <- Ets in *.
    assert (Hsn : root_ (vst s) <> null) by (rewrite Ets; discriminate).
    rewrite (clone_nonnull _ Hsn) in Ha; cbn [bind] in Ha; injection Ha as <-.
    destruct (h_assign_sim fuel sto h vst fps r s Hst Ers Hsn Hfuel)
      as (p' & h' & fp' & Hr & Rr & Wr & Pr).
    exists (set_root (set_root sto r None) r p'), h',
      (fun o => if Nat.eqb o r then fp' else fps o).
    split; [exact Hr |].
    split.
    + apply (stands_for_update h h' sto _ vst fps r (mkRope (root_ (vst s))) fp' Hst);
        [intros o Ho; apply set_root_twice_other; exact Ho
        | rewrite set_root_same; exact Rr | exact Wr | exact Pr].
    + intros o Ho; split; [apply set_root_twice_other; exact Ho |].
      destruct (Nat.eqb o r) eqn:E; [apply Nat.eqb_eq in E; congruence | reflexivity].
Qed.

(** Deep copy in memory.  After [r = s] on two distinct rope objects the
    tree of [r] is equal to the tree of [s] and shares no node with it; a
    mutator that then returns on [s] leaves every node of the tree of [r] as
    it is, and a mutator that returns on [r] leaves every node of the tree of
    [s] as it is. *)
Theorem deep_copy_in_memory (fuel : nat) (sto : objects) (h : heap)
  (vst : store) (fps : nat -> list addr) (r s : nat) :
  stands_for h sto vst fps ->
  r <> s -> root_ (vst s) <> null ->
  (3 <= fuel)%nat ->
  (forall o, height (root_ (vst o)) + 2 <= fuel)%nat ->
  exists sto1 h1 fr fs,
    h_assign fresh fuel sto h r s = Ret (sto1, h1)
    /\ rep h1 (sto1 r) (root_ (vst s)) fr
    /\ rep h1 (sto1 s) (root_ (vst s)) fs
    /\ disjoint fr fs
    /\ (forall m vst2,
          mutate (upd vst r (mkRope (root_ (vst s)))) s m = Done vst2 ->
          exists sto2 h2,
            h_run fresh fuel sto1 h1 s m = Ret (sto2, h2)
            /\ sto2 r = sto1 r
            /\ rep h2 (sto2 r) (root_ (vst s)) fr)
    /\ (forall m vst2,
          mutate (upd vst r (mkRope (root_ (vst s)))) r m = Done vst2 ->
          exists sto2 h2,
            h_run fresh fuel sto1 h1 r m = Ret (sto2, h2)
            /\ sto2 s = sto1 s
            /\ rep h2 (sto2 s) (root_ (vst s)) fs).
Proof.
  intros Hst Hne Hsn Hf3 Hfuel.
  assert (Hne' : s <> r) by (intros E; apply Hne; symmetry; exact E).
  set (vst1 := upd vst r (mkRope (root_ (vst s)))).
  destruct (h_assign_sim fuel sto h vst fps r s Hst Hne Hsn
              ltac:(intros o; specialize (Hfuel o); lia))
    as (p' & h1 & fr & Hrun & Rr & Wr & Pr).
  set (sto1 := set_root (set_root sto r None) r p') in *.
  set (fps1 := fun o => if Nat.eqb o r then fr else fps o).
  assert (Hst1 : stands_for h1 sto1 vst1 fps1).
  { apply (stands_for_update h h1 sto _ vst fps r (mkRope (root_ (vst s))) fr Hst);
      [intros o Ho; apply set_root_twice_other; exact Ho
      | unfold sto1; rewrite set_root_same; exact Rr | exact Wr | exact Pr]. }
  pose proof Hst1 as (Hrep1 & Hdis1).
  assert (Efr : fps1 r = fr) by (unfold fps1; rewrite Nat.eqb_refl; reflexivity).
  assert (Efs : fps1 s = fps s).
  { unfold fps1; destruct (Nat.eqb s r) eqn:E;
      [apply Nat.eqb_eq in E; congruence | reflexivity]. }
  assert (Hr1 : root_ (vst1 r) = root_ (vst s))
    by (unfold vst1; rewrite upd_same; reflexivity).
  assert (Hs1 : root_ (vst1 s) = root_ (vst s))
    by (unfold vst1; rewrite upd_other by exact Hne'; reflexivity).
  assert (Rr1 : rep h1 (sto1 r) (root_ (vst s)) fr)
    by (rewrite <- Hr1, <- Efr; apply Hrep1).
  assert (Rs1 : rep h1 (sto1 s) (root_ (vst s)) (fps s))
    by (rewrite <- Hs1, <- Efs; apply Hrep1).
  assert (D : disjoint fr (fps s))
    by (rewrite <- Efr, <- Efs; apply Hdis1; exact Hne).
  assert (Hfuel1 : forall o, (height (root_ (vst1 o)) + 2 <= fuel)%nat).
  { intros o; unfold vst1, upd.
    destruct (Nat.eqb o r); [exact (Hfuel s) | exact (Hfuel o)]. }
  exists sto1, h1, fr, (fps s).
  split; [exact Hrun |].
  split; [exact Rr1 |].
  split; [exact Rs1 |].
  split; [exact D |].
  split.
  - intros m vst2 Hm.
    unfold mutate in Hm.
    destruct (run vst1 s m) as [r' | | |] eqn:Hrun2; try discriminate Hm.
    destruct (h_run_sim fuel sto1 h1 vst1 fps1 s m r' Hst1 Hrun2 Hf3 Hfuel1)
      as (p2 & h2 & fp2 & Hr2 & _ & _ & P2).
    rewrite Efs in P2.
    exists (set_root sto1 s p2), h2.
    split; [exact Hr2 |].
    split; [apply set_root_other; exact Hne |].
    rewrite set_root_other by exact Hne.
    exact (rep_keep _ h1 h2 _ _ _ Rr1 D P2).
  - intros m vst2 Hm.
    unfold mutate in Hm.
    destruct (run vst1 r m) as [r' | | |] eqn:Hrun2; try discriminate Hm.
    destruct (h_run_sim fuel sto1 h1 vst1 fps1 r m r' Hst1 Hrun2 Hf3 Hfuel1)
      as (p2 & h2 & fp2 & Hr2 & _ & _ & P2).
    rewrite Efr in P2.
    exists (set_root sto1 r p2), h2.
    split; [exact Hr2 |].
    split; [apply set_root_other; exact Hne' |].
    rewrite set_root_other by exact Hne'.
    exact (rep_keep _ h1 h2 _ _ _ Rs1 (disjoint_sym _ _ D) P2).
Qed.

(** Self-insertion in memory.  [r.insert(i, r)] with [i <= length] on a rope
    object whose rope satisfies the representation invariant returns, and
    the tree the object then holds in memory reads
    [to_string(r)[0:i] + to_string(r) + to_string(r)[i:]]. *)
Theorem self_insert_in_memory (fuel : nat) (sto : objects) (h : heap)
  (vst : store) (fps : nat -> list addr) (a : nat) (i : Z) :
  stands_for h sto vst fps ->
  rope_rep (vst a) -> is_size i -> i <= length (vst a) ->
  (3 <= fuel)%nat ->
  (forall o, height (root_ (vst o)) + 2 <= fuel)%nat ->
  exists sto' h' t' fp',
    h_run fresh fuel sto h a (Insert i a) = Ret (sto', h')
    /\ rep h' (sto' a) t' fp'
    /\ treeToString t'
       = take i (toString (vst a)) ++ toString (vst a) ++ drop i (toString (vst a)).
Proof.
  intros Hst Hrep Hi Hle Hf3 Hfuel.
  destruct (insert_toString (vst a) (vst a) i Hrep (rope_rep_nonnull _ Hrep)
              ltac:(unfold is_size in Hi; lia))
    as (r' & Hins & Hstr).
  destruct (h_run_sim fuel sto h vst fps a (Insert i a) r' Hst Hins Hf3 Hfuel)
    as (p' & h' & fp' & Hrun & Rr & _).
  exists (set_root sto a p'), h', (root_ r'), fp'.
  split; [exact Hrun |].
  split; [rewrite set_root_same; exact Rr |].
  rewrite <- toString_root; exact Hstr.
Qed.

End Refinement.

(** ** Three rope objects in memory *)

Lemma stands_for_three :
  stands_for heap_three objects_three store_three footprints_three.
Proof.
  split.
  - intros [| [| o]].
    + apply (rep_node_intro _ _ _ None None null null _ [] []);
        [reflexivity | split; reflexivity | split; reflexivity
        | intros [] | intros [] | intros a []].
    + apply (rep_node_intro heap_three 2%nat 2 (Some 3%nat) (Some 4%nat)
               (leaf (bytes "ab")) (leaf (bytes "cd")) [] [3%nat] [4%nat]).
      * reflexivity.
      * apply (rep_node_intro _ _ _ None None null null _ [] []);
          [reflexivity | split; reflexivity | split; reflexivity
          | intros [] | intros [] | intros a []].
      * apply (rep_node_intro _ _ _ None None null null _ [] []);
          [reflexivity | split; reflexivity | split; reflexivity
          | intros [] | intros [] | intros a []].
      * intros [E | []]; discriminate E.
      * intros [E | []]; discriminate E.
      * intros a [<- | []] [E | []]; discriminate E.
    + split; reflexivity.
  - intros [| [| o]] [| [| o']] Hne a Ha Hb; try congruence;
      simpl in Ha, Hb;
      repeat match goal with
             | H : _ \/ _ |- _ => destruct H
             | H : False |- _ => destruct H
             end; subst; try discriminate.
Qed.

Lemma heights_three (o : nat) : (height (root_ (store_three o)) + 2 <= 4)%nat.
Proof. destruct o as [| [| o]]; vm_compute; lia. Qed.

Lemma h_run_refines_witness :
  exists sto' h' fps',
    h_run next_addr 4 objects_three heap_three 1 (Insert 1 1) = Ret (sto', h')
    /\ stands_for h' sto'
         (upd store_three 1 (returned (insert rope_ab_cd 1 rope_ab_cd))) fps'
    /\ (forall o, o <> 1%nat ->
                  sto' o = objects_three o /\ fps' o = footprints_three o).
Proof.
  apply (h_run_refines next_addr next_addr_spec 4 objects_three heap_three
           store_three _ footprints_three 1 (Insert 1 1));
    [exact stands_for_three | vm_compute; reflexivity | lia | exact heights_three].
Defined.

Lemma h_assign_refines_witness :
  exists sto' h' fps',
    h_assign next_addr 4 objects_three heap_three 0 1 = Ret (sto', h')
    /\ stands_for h' sto' (upd store_three 0 rope_ab_cd) fps'
    /\ (forall o, o <> 0%nat ->
                  sto' o = objects_three o /\ fps' o = footprints_three o).
Proof.
  apply (h_assign_refines next_addr next_addr_spec 4 objects_three heap_three
           store_three _ footprints_three 0 1);
    [exact stands_for_three | vm_compute; reflexivity
    | intros o; pose proof (heights_three o); lia].
Defined.

Lemma deep_copy_in_memory_witness :
  exists sto1 h1 fr fs,
    h_assign next_addr 4 objects_three heap_three 0 1 = Ret (sto1, h1)
    /\ rep h1 (sto1 0%nat) (root_ rope_ab_cd) fr
    /\ rep h1 (sto1 1%nat) (root_ rope_ab_cd) fs
    /\ disjoint fr fs
    /\ (forall m vst2,
          mutate (upd store_three 0 (mkRope (root_ rope_ab_cd))) 1 m = Done vst2 ->
          exists sto2 h2,
            h_run next_addr 4 sto1 h1 1 m = Ret (sto2, h2)
            /\ sto2 0%nat = sto1 0%nat
            /\ rep h2 (sto2 0%nat) (root_ rope_ab_cd) fr)
    /\ (forall m vst2,
          mutate (upd store_three 0 (mkRope (root_ rope_ab_cd))) 0 m = Done vst2 ->
          exists sto2 h2,
            h_run next_addr 4 sto1 h1 0 m = Ret (sto2, h2)
            /\ sto2 1%nat = sto1 1%nat
            /\ rep h2 (sto2 1%nat) (root_ rope_ab_cd) fs).
Proof.
  apply (deep_copy_in_memory next_addr next_addr_spec 4 objects_three heap_three
           store_three footprints_three 0 1);
    [exact stands_for_three | discriminate | discriminate | lia
    | exact heights_three].
Defined.

Lemma self_insert_in_memory_witness :
  exists sto' h' t' fp',
    h_run next_addr 4 objects_three heap_three 1 (Insert 1 1) = Ret (sto', h')
    /\ rep h' (sto' 1%nat) t' fp'
    /\ treeToString t' = bytes "aabcdbcd".
Proof.
  apply (self_insert_in_memory next_addr next_addr_spec 4 objects_three
           heap_three store_three footprints_three 1 1);
    [exact stands_for_three | concrete_rep | concrete_size
    | vm_compute; discriminate | lia | exact heights_three].
Defined.
